(** * Streaming chunk-and-playback pipeline of the TTS API examples

    Shallow embedding of the TypeScript sources
      - voice-pipeline.ts        (AudioStreamPlayer, TTSWebSocketClient,
                                  LLMTextChunker, VoicePipeline,
                                  streamTTSFromHTTP, streamTTSFromSSE)
      - api-route-example.ts     (TextChunker, synthesizeChunk,
                                  streamTextWithTTS, streamWithAudio)
      - use-voice-chat.tsx       (AudioQueuePlayer, useVoiceChat.sendMessage)
    and the properties of the segmenter, the scheduler and the orchestrator
    proved about them.

    Conventions.  A JavaScript string is the list of its UTF-16 code units;
    a JavaScript number that holds a time is a rational (rounding of doubles
    is not modelled; what is stated about times is an order fact, an
    equation between sums that the program itself forms, in the order in
    which it forms them, or a bound with a margin far above the rounding
    error, and these hold for doubles as well); an exception is a value of the error type [exn]; a callback
    that mutates captured state is a state transformer. *)

From Stdlib Require Import ZArith NArith QArith Qminmax Lia Lqa.
From Stdlib.Strings Require Import String Ascii Byte.
From Stdlib Require DecimalString.
From stdpp Require Import base option list.

Set Default Proof Using "Type".

(* ===================================================================== *)
(** ** JavaScript strings                                                 *)
(* ===================================================================== *)

Module JS.

(** A UTF-16 code unit, and a string. *)
Abbreviation char := N (only parsing).
Abbreviation jsstring := (list N) (only parsing).

Definition of_string (s : string) : jsstring :=
  List.map N_of_ascii (list_ascii_of_string s).

(** Line terminators: LF, CR, LS, PS.  Without the [s] flag the regular
    expression atom [.] matches every code unit but these. *)
Definition isLineTerminator (c : char) : bool :=
  ((c =? 10) || (c =? 13) || (c =? 8232) || (c =? 8233))%N.

(** The class [\s], which is also the set stripped by [String.prototype.trim]:
    WhiteSpace (TAB, VT, FF, SP, NBSP, ZWNBSP and the Unicode space
    separators) together with the line terminators. *)
Definition isSpace (c : char) : bool :=
  ((c =? 9) || (c =? 11) || (c =? 12) || (c =? 32) || (c =? 160)
   || (c =? 5760) || ((8192 <=? c) && (c <=? 8202)) || (c =? 8239)
   || (c =? 8287) || (c =? 12288) || (c =? 65279))%N
  || isLineTerminator c.

Fixpoint takeWhile {A} (f : A -> bool) (l : list A) : list A :=
  match l with
  | x :: l' => if f x then x :: takeWhile f l' else []
  | [] => []
  end.

Fixpoint dropWhile {A} (f : A -> bool) (l : list A) : list A :=
  match l with
  | x :: l' => if f x then dropWhile f l' else l
  | [] => []
  end.

Definition trimStart (s : jsstring) : jsstring := dropWhile isSpace s.
Definition trimEnd (s : jsstring) : jsstring := rev (dropWhile isSpace (rev s)).

(** [s.trim()] *)
Definition trim (s : jsstring) : jsstring := trimEnd (trimStart s).

(** Truthiness of a string value: every string but the empty one. *)
Definition truthy (s : jsstring) : bool :=
  match s with [] => false | _ :: _ => true end.

(** [s.slice(n)] for [0 <= n]. *)
Definition slice (n : nat) (s : jsstring) : jsstring := drop n s.

End JS.
Import JS.

(* ===================================================================== *)
(** ** The two boundary regular expressions                               *)
(* ===================================================================== *)

Module Regex.

(** The atom [.]: with the [s] flag (dotAll) it matches any code unit,
    without it any code unit that is not a line terminator. *)
Definition dot (dotAll : bool) (c : char) : bool :=
  dotAll || negb (isLineTerminator c).

(** The class [[.!?]]. *)
Definition sentenceEnd (c : char) : bool :=
  ((c =? 46) || (c =? 33) || (c =? 63))%N.

(** The class [[,;:]]. *)
Definition clauseEnd (c : char) : bool :=
  ((c =? 44) || (c =? 59) || (c =? 58))%N.

(** [s.match(/^(.*?[T]\s+)/)] for a terminator class [T], as the
    backtracking matcher runs it.  The pattern is anchored at the start of
    the input.  At each position the lazy [.*?] first lets the rest of the
    pattern try: one code unit of the class [T], then the greedy [\s+],
    which needs one space and takes the whole run (nothing follows it in
    the pattern, so it never gives a space back).  When that fails [.*?]
    takes one more code unit, if [.] matches it, and the search goes on;
    when [.] does not match it the whole match fails.  The result is
    capture group 1, [None] standing for [null]. *)
Fixpoint boundary (dotAll : bool) (T : char -> bool) (s : jsstring)
  : option jsstring :=
  match s with
  | [] => None
  | c :: s' =>
      if T c && match s' with d :: _ => isSpace d | [] => false end
      then Some (c :: takeWhile isSpace s')
      else if dot dotAll c
           then cons c <$> boundary dotAll T s'
           else None
  end.

(** The test [m && m[1].length >= minChars] on the result [m] of a
    match; its value is the capture group when the test passes. *)
Definition longEnough (minChars : Z) (m : option jsstring) : option jsstring :=
  match m with
  | Some g => if (minChars <=? Z.of_nat (length g))%Z then Some g else None
  | None => None
  end.

End Regex.

(* ===================================================================== *)
(** ** voice-pipeline.ts: LLMTextChunker                                  *)
(* ===================================================================== *)

Module LLMTextChunker.

(** The chunker hands its chunks to the callback [onChunk]; the state the
    callback captures and mutates has type [W]. *)
Record t (W : Type) := mk {
  buffer : jsstring;
  minChars : Z;
  onChunk : jsstring -> W -> W
}.
Arguments mk {W}.
Arguments buffer {W}.
Arguments minChars {W}.
Arguments onChunk {W}.

Definition new {W} (onChunk : jsstring -> W -> W) (minChars : option Z) : t W :=
  mk [] (default 20%Z minChars) onChunk.

Definition set_buffer {W} (b : jsstring) (c : t W) : t W :=
  mk b (minChars c) (onChunk c).

Definition emitChunk {W} (chunk : jsstring) (c : t W) (w : W) : W :=
  onChunk c (trim chunk) w.

Definition addToken {W} (token : jsstring) (cw : t W * W) : t W * W :=
  let '(c, w) := cw in
  let c := set_buffer (buffer c ++ token) c in
  let sentenceMatch := Regex.boundary false Regex.sentenceEnd (buffer c) in
  match Regex.longEnough (minChars c) sentenceMatch with
  | Some g =>
      let w := emitChunk g c w in
      (set_buffer (slice (length g) (buffer c)) c, w)
  | None =>
      if (50 <? length (buffer c))%nat then
        let clauseMatch := Regex.boundary false Regex.clauseEnd (buffer c) in
        match Regex.longEnough (minChars c) clauseMatch with
        | Some g =>
            let w := emitChunk g c w in
            (set_buffer (slice (length g) (buffer c)) c, w)
        | None => (c, w)
        end
      else (c, w)
  end.

Definition flush {W} (cw : t W * W) : t W * W :=
  let '(c, w) := cw in
  if truthy (trim (buffer c))
  then (set_buffer [] c, emitChunk (trim (buffer c)) c w)
  else (c, w).

End LLMTextChunker.

(* ===================================================================== *)
(** ** api-route-example.ts: TextChunker                                  *)
(* ===================================================================== *)

Module TextChunker.

Record t := mk {
  buffer : jsstring;
  minChars : Z
}.

Definition new : t := mk [] 20.

Definition set_buffer (b : jsstring) (c : t) : t := mk b (minChars c).

(** [add] returns the chunk, or [None] for [null], and the new state. *)
Definition add (text : jsstring) (c : t) : option jsstring * t :=
  let c := set_buffer (buffer c ++ text) c in
  let sentenceMatch := Regex.boundary true Regex.sentenceEnd (buffer c) in
  match Regex.longEnough (minChars c) sentenceMatch with
  | Some g =>
      let chunk := trim g in
      (Some chunk, set_buffer (slice (length g) (buffer c)) c)
  | None =>
      if (50 <? length (buffer c))%nat then
        let clauseMatch := Regex.boundary true Regex.clauseEnd (buffer c) in
        match Regex.longEnough (minChars c) clauseMatch with
        | Some g =>
            let chunk := trim g in
            (Some chunk, set_buffer (slice (length g) (buffer c)) c)
        | None => (None, c)
        end
      else (None, c)
  end.

Definition flush (c : t) : option jsstring * t :=
  if truthy (trim (buffer c))
  then (Some (trim (buffer c)), set_buffer [] c)
  else (None, c).

End TextChunker.

(* ===================================================================== *)
(** ** Exceptions                                                         *)
(* ===================================================================== *)

Inductive exn_name :=
  ErrorName | RangeErrorName | NotSupportedErrorName | InvalidCharacterErrorName
| AbortErrorName | TypeErrorName.

Record exn := Exn { name : exn_name; message : jsstring }.

Inductive result (A : Type) :=
| Ok (a : A)
| Throw (e : exn).
Arguments Ok {A}.
Arguments Throw {A}.

#[global] Instance result_ret : MRet result := fun A a => Ok a.

#[global] Instance result_bind : MBind result := fun A B k r =>
  match r with
  | Ok a => k a
  | Throw e => Throw e
  end.

(** [try { body } catch {}] around a state update whose body changes
    nothing before the last point at which it can throw: a throw leaves the
    state as it was before the body. *)
Definition tryCatch {A} (before : A) (body : result A) : A :=
  match body with
  | Ok a => a
  | Throw _ => before
  end.

(* ===================================================================== *)
(** ** The part of the Web Audio API the players use                      *)
(* ===================================================================== *)

Module WebAudio.

(** [new Int16Array(buffer)]: a view of the bytes as little-endian signed
    16-bit integers; a [RangeError] when the byte length is odd. *)
Definition int16 (lo hi : byte) : Z :=
  let u := (Z.of_N (Byte.to_N lo) + 256 * Z.of_N (Byte.to_N hi))%Z in
  if (u <? 32768)%Z then u else (u - 65536)%Z.

Fixpoint int16s (bytes : list byte) : list Z :=
  match bytes with
  | lo :: hi :: rest => int16 lo hi :: int16s rest
  | _ => []
  end.

Definition Int16Array (bytes : list byte) : result (list Z) :=
  if Nat.even (length bytes) then Ok (int16s bytes)
  else Throw (Exn RangeErrorName
                (of_string "byte length of Int16Array should be a multiple of 2")).

(** The loop [float32Array[i] = int16Array[i] / 32768]. *)
Definition toFloat32 (int16Array : list Z) : list Q :=
  List.map (fun v => v # 32768) int16Array.

(** An audio buffer: one channel of samples and the sample rate in hertz. *)
Record AudioBuffer := mkBuffer {
  channelData : list Q;
  bufferRate : positive
}.

Definition duration (b : AudioBuffer) : Q :=
  Z.of_nat (length (channelData b)) # bufferRate b.

(** [ctx.createBuffer(1, length, sampleRate)]: a silent buffer; a
    [NotSupportedError] when the number of frames is zero. *)
Definition createBuffer (frames : nat) (rate : positive) : result AudioBuffer :=
  match frames with
  | O => Throw (Exn NotSupportedErrorName
                  (of_string "The number of frames provided (0) is less than or equal to the minimum bound (0)."))
  | S _ => Ok (mkBuffer (repeat 0%Q frames) rate)
  end.

(** [audioBuffer.getChannelData(0).set(float32Array)], the source having
    as many samples as the buffer. *)
Definition setChannelData (samples : list Q) (b : AudioBuffer) : AudioBuffer :=
  mkBuffer samples (bufferRate b).

(** A source node that has its buffer, is connected to the destination
    and was started: it plays its buffer from [startAt] on, up to the end
    of the buffer or to the time at which [stop()] was called on it. *)
Record AudioBufferSourceNode := mkSource {
  sourceBuffer : AudioBuffer;
  startAt : Q;
  stopAt : option Q
}.

(** The audio context: its sample rate and the source nodes created in
    it, a node being known by its index. *)
Record AudioContext := mkContext {
  sampleRate : positive;
  nodes : list AudioBufferSourceNode
}.

Definition newAudioContext (rate : positive) : AudioContext :=
  mkContext rate [].

(** The four statements
      [source = ctx.createBufferSource(); source.buffer = audioBuffer;
       source.connect(ctx.destination); source.start(when)]
    which add a started node to the context; the value is its handle. *)
Definition startSource (audioBuffer : AudioBuffer) (when : Q)
    (ctx : AudioContext) : nat * AudioContext :=
  (length (nodes ctx),
   mkContext (sampleRate ctx) (nodes ctx ++ [mkSource audioBuffer when None])).

(** [source.stop()] at the time [now]: the node stops at once; calling it
    on a node that was stopped before changes nothing. *)
Definition stopNode (now : Q) (n : AudioBufferSourceNode) : AudioBufferSourceNode :=
  match stopAt n with
  | Some _ => n
  | None => mkSource (sourceBuffer n) (startAt n) (Some now)
  end.

Definition stopSource (now : Q) (source : nat) (ctx : AudioContext) : AudioContext :=
  mkContext (sampleRate ctx) (alter (stopNode now) source (nodes ctx)).

(** The time at which a node reaches the end of its buffer. *)
Definition finish (n : AudioBufferSourceNode) : Q :=
  (startAt n + duration (sourceBuffer n))%Q.

(** A node plays to completion when no [stop()] cuts it before the end of
    its buffer. *)
Definition playsToCompletion (n : AudioBufferSourceNode) : Prop :=
  match stopAt n with
  | None => True
  | Some t => (finish n <= t)%Q
  end.

End WebAudio.
Import WebAudio.

(* ===================================================================== *)
(** ** voice-pipeline.ts: AudioStreamPlayer                               *)
(* ===================================================================== *)

(** Every operation that reads [this.audioContext.currentTime] takes that
    reading as its argument [now]. *)

Module AudioStreamPlayer.

Record t := mk {
  audioContext : option AudioContext;
  nextStartTime : Q;
  sampleRate : positive;
  isPlaying : bool;
  scheduledBuffers : list nat
}.

Definition new (sampleRate : option positive) : t :=
  mk None 0 (default 22050%positive sampleRate) false [].

Definition init (now : Q) (p : t) : t :=
  let ctx :=
    match audioContext p with
    | None => newAudioContext (sampleRate p)
    | Some ctx => ctx
    end in
  mk (Some ctx) now (sampleRate p) true (scheduledBuffers p).

Definition addChunk (now : Q) (pcmData : list byte) (p : t) : result t :=
  match audioContext p with
  | None => Ok p
  | Some ctx =>
      if negb (isPlaying p) then Ok p else
      int16Array ← Int16Array pcmData;
      let float32Array := toFloat32 int16Array in
      audioBuffer ← createBuffer (length float32Array) (sampleRate p);
      let audioBuffer := setChannelData float32Array audioBuffer in
      let startTime := Qmax (nextStartTime p) now in
      let '(source, ctx) := startSource audioBuffer startTime ctx in
      Ok (mk (Some ctx) (startTime + duration audioBuffer) (sampleRate p)
             (isPlaying p) (scheduledBuffers p ++ [source]))
  end.

Definition stop (now : Q) (p : t) : t :=
  let ctx :=
    (fun ctx => foldl (fun ctx source => stopSource now source ctx)
                      ctx (scheduledBuffers p)) <$> audioContext p in
  mk ctx 0 (sampleRate p) false [].

Definition close (now : Q) (p : t) : t :=
  let p := stop now p in
  mk None (nextStartTime p) (sampleRate p) (isPlaying p) (scheduledBuffers p).

End AudioStreamPlayer.

(* ===================================================================== *)
(** ** use-voice-chat.tsx: AudioQueuePlayer                               *)
(* ===================================================================== *)

Module AudioQueuePlayer.

Record t := mk {
  audioContext : option AudioContext;
  nextStartTime : Q;
  sampleRate : positive;
  sources : list nat
}.

Definition new (sampleRate : option positive) : t :=
  mk None 0 (default 22050%positive sampleRate) [].

Definition init (now : Q) (p : t) : t :=
  let ctx :=
    match audioContext p with
    | None => newAudioContext (sampleRate p)
    | Some ctx => ctx
    end in
  mk (Some ctx) now (sampleRate p) (sources p).

Definition addPCM (now : Q) (pcmBuffer : list byte) (p : t) : result t :=
  match audioContext p with
  | None => Ok p
  | Some ctx =>
      int16Array ← Int16Array pcmBuffer;
      let float32Array := toFloat32 int16Array in
      audioBuffer ← createBuffer (length float32Array) (sampleRate p);
      let audioBuffer := setChannelData float32Array audioBuffer in
      let startTime := Qmax (nextStartTime p) now in
      let '(source, ctx) := startSource audioBuffer startTime ctx in
      Ok (mk (Some ctx) (startTime + duration audioBuffer) (sampleRate p)
             (sources p ++ [source]))
  end.

(** [addBase64WAV]; the argument [binaryString] is the value of
    [atob(base64Audio)], which throws on text that is not base64. *)
Definition addBase64WAV (now : Q) (binaryString : result (list byte)) (p : t)
  : result t :=
  match audioContext p with
  | None => Ok p
  | Some _ =>
      bytes ← binaryString;
      let pcmData := drop 44 bytes in
      addPCM now pcmData p
  end.

Definition stop (now : Q) (p : t) : t :=
  let ctx :=
    (fun ctx => foldl (fun ctx s => stopSource now s ctx) ctx (sources p))
      <$> audioContext p in
  let next :=
    match audioContext p with
    | Some _ => now
    | None => nextStartTime p
    end in
  mk ctx next (sampleRate p) [].

Definition close (now : Q) (p : t) : t :=
  let p := stop now p in
  mk None (nextStartTime p) (sampleRate p) (sources p).

End AudioQueuePlayer.

(* ===================================================================== *)
(** ** voice-pipeline.ts: TTSWebSocketClient and VoicePipeline            *)
(* ===================================================================== *)

(** The JSON text frame [{text, language, is_final}]. *)
Record frame := mkFrame {
  text : jsstring;
  language : jsstring;
  is_final : bool
}.

Inductive readyState := CONNECTING | OPEN | CLOSING | CLOSED.

Module TTSWebSocketClient.

(** [ws] holds the state of the socket, [None] for [null]; [wire] is the
    sequence of frames handed to [ws.send] so far. *)
Record t := mk {
  ws : option readyState;
  wire : list frame;
  player : AudioStreamPlayer.t
}.

Definition new (sampleRate : option positive) : t :=
  mk None [] (AudioStreamPlayer.new sampleRate).

(** [connect()] when the socket opens. *)
Definition connect (now : Q) (cl : t) : t :=
  mk (Some OPEN) (wire cl) (AudioStreamPlayer.init now (player cl)).

Definition sendText (text language : jsstring) (isFinal : bool) (cl : t) : t :=
  match ws cl with
  | Some OPEN => mk (ws cl) (wire cl ++ [mkFrame text language isFinal]) (player cl)
  | _ => cl
  end.

Definition stop (now : Q) (cl : t) : t :=
  mk None (wire cl) (AudioStreamPlayer.stop now (player cl)).

(** The value of [event.data] of a message: text, or an [ArrayBuffer]. *)
Inductive data :=
| TextData (s : jsstring)
| BinaryData (bytes : list byte).

(** The handler [ws.onmessage]; a throw is an exception that leaves the
    handler. *)
Definition onmessage (now : Q) (d : data) (cl : t) : result t :=
  match d with
  | BinaryData bytes =>
      player ← AudioStreamPlayer.addChunk now bytes (player cl);
      Ok (mk (ws cl) (wire cl) player)
  | TextData _ => Ok cl
  end.

Definition close (now : Q) (cl : t) : t :=
  let cl := stop now cl in
  mk (ws cl) (wire cl) (AudioStreamPlayer.close now (player cl)).

End TTSWebSocketClient.

Module VoicePipeline.

Record t := mk {
  ttsClient : TTSWebSocketClient.t;
  chunker : LLMTextChunker.t TTSWebSocketClient.t;
  language : jsstring
}.

(** The callback the constructor gives to the chunker. *)
Definition onChunk (language : jsstring) : jsstring -> TTSWebSocketClient.t -> TTSWebSocketClient.t :=
  fun chunk cl => TTSWebSocketClient.sendText chunk language false cl.

Definition new (language : option jsstring) : t :=
  let language := default (of_string "english") language in
  mk (TTSWebSocketClient.new None)
     (LLMTextChunker.new (onChunk language) None)
     language.

Definition start (now : Q) (p : t) : t :=
  mk (TTSWebSocketClient.connect now (ttsClient p)) (chunker p) (language p).

Definition processToken (token : jsstring) (p : t) : t :=
  let '(c, cl) := LLMTextChunker.addToken token (chunker p, ttsClient p) in
  mk cl c (language p).

Definition finalize (p : t) : t :=
  let '(c, cl) := LLMTextChunker.flush (chunker p, ttsClient p) in
  let cl := TTSWebSocketClient.sendText [] (language p) true cl in
  mk cl c (language p).

Definition stop (now : Q) (p : t) : t :=
  mk (TTSWebSocketClient.stop now (ttsClient p)) (chunker p) (language p).

Definition close (now : Q) (p : t) : t :=
  mk (TTSWebSocketClient.close now (ttsClient p)) (chunker p) (language p).

End VoicePipeline.

(* ===================================================================== *)
(** ** voice-pipeline.ts: streamTTSFromHTTP                               *)
(* ===================================================================== *)

Module HTTPStream.

(** What [fetch] resolves to: the [ok] flag, the status and the body, a
    body being the sequence of values that [reader.read()] yields before
    [done], each with the reading of the device clock at the moment it is
    handed on. The buffer of every value holds the bytes of the value and
    no others. *)
Record response := mkResponse {
  ok : bool;
  status : nat;
  body : option (list (Q * list byte))
}.

(** The state of the read loop: the player, [totalBytes], and the
    buffers given to [player.addChunk] so far.  The optional progress
    callback and the wait for the end of the playback are left out. *)
Record loop := mkLoop {
  player : AudioStreamPlayer.t;
  totalBytes : nat;
  handed : list (list byte)
}.

(** The body of the [while (true)] loop for one value read. *)
Definition readOne (now : Q) (value : list byte) (st : loop) : loop * option exn :=
  let handed := handed st ++ [value] in
  match AudioStreamPlayer.addChunk now value (player st) with
  | Ok p => (mkLoop p (totalBytes st + length value) handed, None)
  | Throw e => (mkLoop (player st) (totalBytes st) handed, Some e)
  end.

Fixpoint readLoop (reads : list (Q * list byte)) (st : loop) : loop * option exn :=
  match reads with
  | [] => (st, None)
  | (now, value) :: reads =>
      match readOne now value st with
      | (st, None) => readLoop reads st
      | (st, Some e) => (st, Some e)
      end
  end.

Definition decimal (n : nat) : jsstring :=
  of_string (DecimalString.NilZero.string_of_uint (Nat.to_uint n)).

(** [streamTTSFromHTTP]: [now0] is the clock at [init], [nowEnd] the clock
    when the [finally] block closes the player, [fetched] what the call
    of [fetch] settles to.  The value is the final state of the loop, with
    the player closed, and the exception the promise rejects with, if
    any. *)
Definition streamTTSFromHTTP (now0 nowEnd : Q) (fetched : result response)
  : loop * option exn :=
  let player := AudioStreamPlayer.init now0 (AudioStreamPlayer.new (Some 22050%positive)) in
  let '(st, e) :=
    match fetched with
    | Throw e => (mkLoop player 0 [], Some e)
    | Ok r =>
        if negb (ok r)
        then (mkLoop player 0 [],
              Some (Exn ErrorName (of_string "TTS request failed: " ++ decimal (status r))))
        else
          match body r with
          | None => (mkLoop player 0 [], Some (Exn ErrorName (of_string "No response body")))
          | Some reads => readLoop reads (mkLoop player 0 [])
          end
    end in
  (mkLoop (AudioStreamPlayer.close nowEnd (HTTPStream.player st)) (totalBytes st) (handed st), e).

End HTTPStream.

(* ===================================================================== *)
(** ** api-route-example.ts: synthesizeChunk and streamTextWithTTS        *)
(* ===================================================================== *)

Module Route.

(** The events enqueued on the response stream. *)
Inductive event :=
| Token (text : jsstring)
| Audio (chunk : jsstring) (index : nat) (text : jsstring)
| Done (fullText : jsstring)
| Error (message : jsstring).

(** What the request to [TTS_URL/tts] settles to: the promise rejects, or
    there is a response with its [ok] flag and its [json()], which throws
    ([None]) or gives an object whose [audio_base64] is a string or is
    missing. *)
Inductive ttsFetch :=
| Rejected
| Responded (ok : bool) (json : option (option jsstring)).

(** The synthesis service, as the route sees it: the answer to the
    [n]-th request, for a text and a language. *)
Definition service := nat -> jsstring -> jsstring -> ttsFetch.

Definition synthesizeChunk (tts : service) (n : nat) (text language : jsstring)
  : option jsstring :=
  match tts n text language with
  | Rejected => None
  | Responded ok json =>
      if negb ok then None
      else match json with
           | None => None
           | Some audio_base64 => audio_base64
           end
  end.

(** Truthiness of a value that is a string, [null] or [undefined]. *)
Definition truthy_opt (v : option jsstring) : option jsstring :=
  match v with
  | Some s => if truthy s then Some s else None
  | None => None
  end.

Record st := mkSt {
  chunker : TextChunker.t;
  fullResponse : jsstring;
  chunkIndex : nat;
  requests : nat;
  out : list event
}.

(** [if (audioData) controller.enqueue(audio event)] after the request for
    the chunk [ttsChunk]. *)
Definition speak (tts : service) (language ttsChunk : jsstring) (s : st) : st :=
  let audioData := synthesizeChunk tts (requests s) ttsChunk language in
  match truthy_opt audioData with
  | Some a =>
      mkSt (chunker s) (fullResponse s) (S (chunkIndex s)) (S (requests s))
           (out s ++ [Audio a (chunkIndex s) ttsChunk])
  | None =>
      mkSt (chunker s) (fullResponse s) (chunkIndex s) (S (requests s)) (out s)
  end.

(** The body of [for await (const chunk of result.stream)]. *)
Definition onText (tts : service) (language text : jsstring) (s : st) : st :=
  let s := mkSt (chunker s) (fullResponse s ++ text) (chunkIndex s) (requests s)
                (out s ++ [Token text]) in
  let '(ttsChunk, c) := TextChunker.add text (chunker s) in
  let s := mkSt c (fullResponse s) (chunkIndex s) (requests s) (out s) in
  match truthy_opt ttsChunk with
  | Some ttsChunk => speak tts language ttsChunk s
  | None => s
  end.

(** [String(error)] for an error object, which is what
    [Error.prototype.toString] gives: the name alone when the message is
    empty, and else the name, a colon, a space and the message (the names
    of [exn_name] are not empty). *)
Definition String_ (e : exn) : jsstring :=
  let name :=
    of_string
      match name e with
      | ErrorName => "Error"
      | RangeErrorName => "RangeError"
      | NotSupportedErrorName => "NotSupportedError"
      | InvalidCharacterErrorName => "InvalidCharacterError"
      | AbortErrorName => "AbortError"
      | TypeErrorName => "TypeError"
      end in
  match message e with
  | [] => name
  | msg => name ++ of_string ": " ++ msg
  end.

(** [streamTextWithTTS]: [texts] are the values of [chunk.text()] that the
    model streams, [failure] the exception that ends the stream, if one
    does.  The value is the sequence of events enqueued before the stream
    is closed. *)
Definition streamTextWithTTS (tts : service) (language : jsstring)
    (texts : list jsstring) (failure : option exn) : list event :=
  let s := foldl (fun s text => onText tts language text s)
                 (mkSt TextChunker.new [] 0 0 []) texts in
  match failure with
  | Some e => out s ++ [Error (String_ e)]
  | None =>
      let '(remaining, c) := TextChunker.flush (chunker s) in
      let s := mkSt c (fullResponse s) (chunkIndex s) (requests s) (out s) in
      let s := match truthy_opt remaining with
               | Some remaining => speak tts language remaining s
               | None => s
               end in
      out s ++ [Done (fullResponse s)]
  end.

(** What the request to [TTS_URL/tts/stream] settles to: the promise
    rejects, or there is a response with its [ok] flag and its body, a body
    being the values that [reader.read()] yields and the exception with
    which a read rejects in the end, if one does. *)
Inductive streamFetch :=
| RejectedStream (e : exn)
| RespondedStream (ok : bool) (body : option (list (list byte) * option exn)).

Definition streamService := nat -> jsstring -> jsstring -> streamFetch.

(** The state of [streamWithAudio]: the chunker, the number of requests
    made and the values enqueued on the response. *)
Record audioSt := mkAudioSt {
  audioChunker : TextChunker.t;
  audioRequests : nat;
  enqueued : list (list byte)
}.

(** The request for one chunk and the loop that enqueues what is read; the
    exception is the one that leaves the block, if one does. *)
Definition forward (tts : streamService) (language ttsChunk : jsstring) (s : audioSt)
  : audioSt * option exn :=
  match tts (audioRequests s) ttsChunk language with
  | RejectedStream e =>
      (mkAudioSt (audioChunker s) (S (audioRequests s)) (enqueued s), Some e)
  | RespondedStream ok body =>
      match (if ok then body else None) with
      | Some (values, failure) =>
          (mkAudioSt (audioChunker s) (S (audioRequests s)) (enqueued s ++ values),
           failure)
      | None =>
          (mkAudioSt (audioChunker s) (S (audioRequests s)) (enqueued s), None)
      end
  end.

(** The loop [for await (const chunk of result.stream)] of
    [streamWithAudio]. *)
Fixpoint audioLoop (tts : streamService) (language : jsstring) (texts : list jsstring)
    (s : audioSt) : audioSt * option exn :=
  match texts with
  | [] => (s, None)
  | text :: texts =>
      let '(ttsChunk, c) := TextChunker.add text (audioChunker s) in
      let s := mkAudioSt c (audioRequests s) (enqueued s) in
      match truthy_opt ttsChunk with
      | Some ttsChunk =>
          match forward tts language ttsChunk s with
          | (s, None) => audioLoop tts language texts s
          | (s, Some e) => (s, Some e)
          end
      | None => audioLoop tts language texts s
      end
  end.

(** [streamWithAudio]: the values enqueued before the stream is closed.
    Its [catch] closes the stream and nothing else, so an exception only
    ends the work. *)
Definition streamWithAudio (tts : streamService) (language : jsstring)
    (texts : list jsstring) (failure : option exn) : list (list byte) :=
  match audioLoop tts language texts (mkAudioSt TextChunker.new 0 []) with
  | (s, Some _) => enqueued s
  | (s, None) =>
      match failure with
      | Some _ => enqueued s
      | None =>
          let '(remaining, c) := TextChunker.flush (audioChunker s) in
          let s := mkAudioSt c (audioRequests s) (enqueued s) in
          match truthy_opt remaining with
          | Some remaining => enqueued (fst (forward tts language remaining s))
          | None => enqueued s
          end
      end
  end.

End Route.

(* ===================================================================== *)
(** ** use-voice-chat.tsx: useVoiceChat.sendMessage                       *)
(* ===================================================================== *)

Module VoiceChat.

Record state := mkState {
  isLoading : bool;
  isPlaying : bool;
  transcript : jsstring;
  error : option jsstring
}.

(** The object that [JSON.parse] gives for a [data: ] line, by its [type]:
    the [chunk] of an audio event is missing or empty ([None]) or is
    text on which [atob] throws or gives bytes. *)
Inductive data :=
| token (text : jsstring)
| audio (chunk : option (result (list byte)))
| done
| error_ (message : jsstring)
| other.

(** One element of [buffer.split('\n\n')]: a line that does not start
    with [data: ], a line on which [JSON.parse] throws, or an event. *)
Inductive line :=
| NoData
| BadJSON
| Data (d : data).

(** The response of the route: the lines of its body, each with the
    reading of the device clock when it is handled, and the exception
    with which [reader.read()] rejects in the end, if it does. *)
Record response := mkResponse {
  ok : bool;
  status : nat;
  body : option (list (Q * line) * option exn)
}.

(** The state of the hook and the player in [playerRef.current]. *)
Definition hook : Type := state * AudioQueuePlayer.t.

(** The [switch (data.type)]. *)
Definition onData (now : Q) (d : data) (h : hook) : result hook :=
  let '(s, player) := h in
  match d with
  | token text =>
      Ok (mkState (isLoading s) (isPlaying s) (transcript s ++ text) (error s), player)
  | audio chunk =>
      match chunk with
      | Some binaryString =>
          player ← AudioQueuePlayer.addBase64WAV now binaryString player;
          Ok (s, player)
      | None => Ok h
      end
  | done =>
      Ok (mkState false (isPlaying s) (transcript s) (error s), player)
  | error_ message => Throw (Exn ErrorName message)
  | other => Ok h
  end.

(** The body of [for (const line of lines)]: the inner [try] with its
    [catch (e) { /* Skip malformed events */ }]. *)
Definition onLine (now : Q) (l : line) (h : hook) : hook :=
  match l with
  | NoData => h
  | BadJSON => h
  | Data d => tryCatch h (onData now d h)
  end.

(** The outer [catch (error)]. *)
Definition onError (e : exn) (h : hook) : hook :=
  let '(s, player) := h in
  match name e with
  | AbortErrorName => h
  | _ => (mkState false false (transcript s) (Some (message e)), player)
  end.

(** [sendMessage] on a hook whose player exists: [now0] is the clock at
    [init], [fetched] what the call of [fetch] settles to. *)
Definition sendMessage (now0 : Q) (fetched : result response) (h : hook) : hook :=
  let '(s, player) := h in
  let s := mkState true (isPlaying s) [] None in
  let player := AudioQueuePlayer.init now0 player in
  let s := mkState (isLoading s) true (transcript s) (error s) in
  match fetched with
  | Throw e => onError e (s, player)
  | Ok r =>
      if negb (ok r)
      then onError (Exn ErrorName (of_string "Request failed: " ++ HTTPStream.decimal (status r)))
                   (s, player)
      else
        match body r with
        | None => onError (Exn ErrorName (of_string "No response body")) (s, player)
        | Some (lines, failure) =>
            let h := foldl (fun h '(now, l) => onLine now l h) (s, player) lines in
            match failure with
            | Some e => onError e h
            | None => h
            end
        end
  end.

End VoiceChat.

(* ===================================================================== *)
(** ** The lines of an event stream                                       *)
(* ===================================================================== *)

(** The read loops of [sendMessage] and [streamTTSFromSSE] keep the text
    that has arrived in [buffer] and cut it into lines:
      [buffer += decoder.decode(value, { stream: true });
       const lines = buffer.split('\n\n');
       buffer = lines.pop() || '';]
    The decoded text of each value read is the input here. *)

Module EventStream.

(** A code unit put in front of the first piece. *)
Definition consFirst (c : char) (pieces : list jsstring) : list jsstring :=
  match pieces with
  | piece :: pieces => (c :: piece) :: pieces
  | [] => [[c]]
  end.

(** [s.split('\n\n')]: the pieces of [s] between the occurrences of the
    separator, found from left to right without overlap; there is always
    at least one piece. *)
Fixpoint split (s : jsstring) : list jsstring :=
  match s with
  | [] => [[]]
  | c :: rest =>
      match rest with
      | d :: rest' =>
          if ((c =? 10) && (d =? 10))%N then [] :: split rest'
          else consFirst c (split rest)
      | [] => consFirst c (split rest)
      end
  end.

(** The three statements of the loop: the lines that are complete, and the
    new buffer. *)
Definition cut (buffer text : jsstring) : list jsstring * jsstring :=
  let lines := split (buffer ++ text) in
  (removelast lines, default [] (last lines)).

(** The lines cut while the texts arrive one after the other, and the
    buffer in the end. *)
Fixpoint cuts (buffer : jsstring) (texts : list jsstring) : list jsstring * jsstring :=
  match texts with
  | [] => ([], buffer)
  | text :: texts =>
      let '(lines, buffer) := cut buffer text in
      let '(more, buffer) := cuts buffer texts in
      (lines ++ more, buffer)
  end.

(** [s.startsWith(prefix)] *)
Fixpoint startsWith (s prefix : jsstring) : bool :=
  match prefix, s with
  | [], _ => true
  | p :: prefix, c :: s => (c =? p)%N && startsWith s prefix
  | _ :: _, [] => false
  end.

Definition isData (line : jsstring) : bool := startsWith line (of_string "data: ").

Section Hook.

(** [JSON.parse(line.slice(6))] and the reading of the fields of its value
    in the [switch]: [None] when one of them throws. *)
Variable parse : jsstring -> option VoiceChat.data.

(** What a line is to the loop of [sendMessage]. *)
Definition hookLine (line : jsstring) : VoiceChat.line :=
  if isData line then
    match parse (slice 6 line) with
    | Some d => VoiceChat.Data d
    | None => VoiceChat.BadJSON
    end
  else VoiceChat.NoData.

(** The lines that the loop of [sendMessage] handles, each with the clock
    of the read that completed it, for the texts read with their clocks. *)
Fixpoint hookLines (buffer : jsstring) (reads : list (Q * jsstring))
  : list (Q * VoiceChat.line) :=
  match reads with
  | [] => []
  | (now, text) :: reads =>
      let '(lines, buffer) := cut buffer text in
      List.map (fun line => (now, hookLine line)) lines ++ hookLines buffer reads
  end.

End Hook.

End EventStream.

(* ===================================================================== *)
(** ** voice-pipeline.ts: streamTTSFromSSE                                *)
(* ===================================================================== *)

Module SSEStream.

(** One element of [buffer.split('\n\n')]: a line that does not start
    with [data: ], a line on which [JSON.parse] (or the reading of a field
    of its value) throws [e], or an event.  The events are those of
    [VoiceChat.data]: the [chunk] of an audio event is missing or empty, or
    is text on which [atob] throws or gives bytes. *)
Inductive line :=
| NoData
| BadJSON (e : exn)
| Data (d : VoiceChat.data).

(** What [fetch] resolves to: the [ok] flag, the status and the body, a
    body being the lines cut from the values read, each with the reading
    of the device clock when it is handled, and the exception with which
    [reader.read()] rejects in the end, if it does. *)
Record response := mkResponse {
  ok : bool;
  status : nat;
  body : option (list (Q * line) * option exn)
}.

(** The state of the read loop: the player, and the buffers given to
    [player.addChunk] so far. *)
Record loop := mkLoop {
  player : AudioStreamPlayer.t;
  handed : list (list byte)
}.

(** The body of [for (const line of lines)]: only an audio event with a
    chunk does anything, and nothing catches what is thrown. *)
Definition onLine (now : Q) (l : line) (st : loop) : loop * option exn :=
  match l with
  | NoData => (st, None)
  | BadJSON e => (st, Some e)
  | Data (VoiceChat.audio (Some binaryString)) =>
      match binaryString with
      | Throw e => (st, Some e)
      | Ok bytes =>
          let handed := handed st ++ [bytes] in
          match AudioStreamPlayer.addChunk now bytes (player st) with
          | Ok p => (mkLoop p handed, None)
          | Throw e => (mkLoop (player st) handed, Some e)
          end
      end
  | Data _ => (st, None)
  end.

Fixpoint onLines (lines : list (Q * line)) (st : loop) : loop * option exn :=
  match lines with
  | [] => (st, None)
  | (now, l) :: lines =>
      match onLine now l st with
      | (st, None) => onLines lines st
      | (st, Some e) => (st, Some e)
      end
  end.

(** [streamTTSFromSSE]: [now0] is the clock at [init], [nowEnd] the clock
    when the [finally] block closes the player, [fetched] what the call
    of [fetch] settles to.  The value is the final state of the loop, with
    the player closed, and the exception the promise rejects with, if
    any. *)
Definition streamTTSFromSSE (now0 nowEnd : Q) (fetched : result response)
  : loop * option exn :=
  let player := AudioStreamPlayer.init now0 (AudioStreamPlayer.new (Some 22050%positive)) in
  let '(st, e) :=
    match fetched with
    | Throw e => (mkLoop player [], Some e)
    | Ok r =>
        if negb (ok r)
        then (mkLoop player [],
              Some (Exn ErrorName
                      (of_string "TTS request failed: " ++ HTTPStream.decimal (status r))))
        else
          match body r with
          | None => (mkLoop player [], Some (Exn ErrorName (of_string "No response body")))
          | Some (lines, failure) =>
              match onLines lines (mkLoop player []) with
              | (st, None) => (st, failure)
              | (st, Some e) => (st, Some e)
              end
          end
    end in
  (mkLoop (AudioStreamPlayer.close nowEnd (SSEStream.player st)) (handed st), e).

End SSEStream.

(* ===================================================================== *)
(** ** Notions used to state the properties                               *)
(* ===================================================================== *)

(** The decision that [LLMTextChunker.addToken] and [TextChunker.add] take
    on the buffer after the append: the chunk, if one is cut, and the
    buffer that is left.  The two methods differ in the [s] flag of their
    regular expressions and in how the chunk leaves (callback or return
    value); [addToken_segment] and [add_segment] relate them to it. *)
Definition segment (dotAll : bool) (minChars : Z) (b : jsstring)
  : option jsstring * jsstring :=
  match Regex.longEnough minChars (Regex.boundary dotAll Regex.sentenceEnd b) with
  | Some g => (Some (trim g), drop (length g) b)
  | None =>
      if (50 <? length b)%nat then
        match Regex.longEnough minChars (Regex.boundary dotAll Regex.clauseEnd b) with
        | Some g => (Some (trim g), drop (length g) b)
        | None => (None, b)
        end
      else (None, b)
  end.

Definition spaces (w : jsstring) : Prop := Forall (fun c => isSpace c = true) w.

(** Position [i] of [s] holds a terminator of the class [T] and position
    [i + 1] a space. *)
Definition boundaryAt (T : char -> bool) (s : jsstring) (i : nat) : Prop :=
  exists c d, s !! i = Some c /\ s !! (S i) = Some d /\ T c = true /\ isSpace d = true.

(** [g] is the prefix of [s] that runs up to the first boundary of [s] and
    through the whole run of spaces after it, and [.] matches every code
    unit before that boundary. *)
Definition firstBoundary (dotAll : bool) (T : char -> bool) (s g : jsstring) : Prop :=
  exists pre c ws rest,
    s = pre ++ c :: ws ++ rest /\ g = pre ++ c :: ws /\
    T c = true /\ ws <> [] /\ spaces ws /\
    (forall d, head rest = Some d -> isSpace d = false) /\
    Forall (fun x => Regex.dot dotAll x = true) pre /\
    (forall i, i < length pre -> ~ boundaryAt T s i).

(** [p] is a prefix of [b] that ends in a sentence terminator which a space
    follows in [b]. *)
Definition sentencePrefix (b p : jsstring) : Prop :=
  exists q c d rest,
    p = q ++ [c] /\ b = p ++ d :: rest /\
    Regex.sentenceEnd c = true /\ isSpace d = true.

(** The chunks [cs], in order and with runs of spaces between, before and
    after them, make up the text [s]. *)
Inductive reassembles : list jsstring -> jsstring -> Prop :=
| reassembles_nil w : spaces w -> reassembles [] w
| reassembles_cons w c cs rest :
    spaces w -> reassembles cs rest -> reassembles (c :: cs) (w ++ c ++ rest).

Definition solid (s : jsstring) : jsstring := filter (fun c => isSpace c = false) s.

(** The callback that records the chunks in the order of emission. *)
Definition record_chunk : jsstring -> list jsstring -> list jsstring :=
  fun chunk log => log ++ [chunk].

(** Feeding fragments to an [LLMTextChunker], one [addToken] each. *)
Definition addTokens {W} (fragments : list jsstring) (cw : LLMTextChunker.t W * W)
  : LLMTextChunker.t W * W :=
  foldl (fun cw token => LLMTextChunker.addToken token cw) cw fragments.

(** Feeding fragments to a [TextChunker] the way the route does, keeping the
    chunks returned, then [flush]. *)
Definition feed (c : TextChunker.t) (fragments : list jsstring)
  : list jsstring * TextChunker.t :=
  foldl (fun '(log, c) text =>
           let '(chunk, c) := TextChunker.add text c in
           (log ++ option_list chunk, c))
        ([], c) fragments.

Definition feed_flush (c : TextChunker.t) (fragments : list jsstring)
  : list jsstring * TextChunker.t :=
  let '(log, c) := feed c fragments in
  let '(chunk, c) := TextChunker.flush c in
  (log ++ option_list chunk, c).

(** The rule by which a buffer [b] is cut, [chunk] being what is emitted
    and [b'] what stays:
    - when the first sentence boundary of [b], with the spaces after it,
      makes a prefix of at least [minChars] code units, that prefix is cut
      and its trimmed text emitted;
    - when no sentence boundary passes that test and [b] has more than 50
      code units, the same is done with the first clause boundary;
    - otherwise nothing is emitted and [b] stays whole. *)
Definition firstBoundaryRule (dotAll : bool) (minChars : Z) (b : jsstring)
    (chunk : option jsstring) (b' : jsstring) : Prop :=
  let tooShort T :=
    forall g, firstBoundary dotAll T b g -> (Z.of_nat (length g) < minChars)%Z in
  (forall g,
      firstBoundary dotAll Regex.sentenceEnd b g ->
      (minChars <= Z.of_nat (length g))%Z ->
      chunk = Some (trim g) /\ b = g ++ b')
  /\ (forall g,
      tooShort Regex.sentenceEnd -> 50 < length b ->
      firstBoundary dotAll Regex.clauseEnd b g ->
      (minChars <= Z.of_nat (length g))%Z ->
      chunk = Some (trim g) /\ b = g ++ b')
  /\ (tooShort Regex.sentenceEnd ->
      length b <= 50 \/ tooShort Regex.clauseEnd ->
      chunk = None /\ b' = b).


(** Inputs of the examples. *)
Definition two_sentences : jsstring :=
  of_string "This is a first sentence. And this is a second sentence. ".

Definition short_then_long : jsstring :=
  of_string "Hi. This is a much longer sentence. ".

Definition padded_ok : jsstring :=
  of_string "Ok.                 ".

Definition sure_first : jsstring :=
  of_string "Sure, let's break this down. First, here's how it works.".

Definition sure : jsstring := of_string "Sure, let's break this down.".
Definition first : jsstring := of_string "First, here's how it works.".

(** The buffer and the chunks after the decision [segment] was taken on
    each of the [tokens] in turn, from the buffer [b] and the chunks
    [log]. *)
Fixpoint segments (dotAll : bool) (minChars : Z) (b : jsstring)
    (log tokens : list jsstring) : jsstring * list jsstring :=
  match tokens with
  | [] => (b, log)
  | token :: tokens =>
      let '(chunk, b') := segment dotAll minChars (b ++ token) in
      segments dotAll minChars b' (log ++ option_list chunk) tokens
  end.

Definition three_tokens : list jsstring :=
  [of_string "Sure, let's break this"; of_string " down.";
   of_string " First, here's how it works."].

(** A byte buffer that [addChunk] and [addPCM] can schedule: an even number
    of bytes, and at least one sample. *)
Definition playable (pcm : list byte) : Prop :=
  Nat.even (length pcm) = true /\ pcm <> [].

(** The audio buffer made from a playable byte buffer. *)
Definition bufferOf (pcm : list byte) (rate : positive) : AudioBuffer :=
  mkBuffer (toFloat32 (int16s pcm)) rate.

(** [forEach(source => { try { source.stop(); } catch {} })] on the handles
    retained. *)
Definition stopAll (now : Q) (handles : list nat) (ctx : AudioContext) : AudioContext :=
  foldl (fun ctx source => stopSource now source ctx) ctx handles.

(** The node behind the handle retained last. *)
Definition lastScheduled (ctx : option AudioContext) (handles : list nat)
  : option AudioBufferSourceNode :=
  match ctx, last handles with
  | Some ctx, Some h => nodes ctx !! h
  | _, _ => None
  end.

(** The handles retained and the nodes of the context agree, at a clock
    reading [t]: a node is retained and was never stopped, or it is not
    retained and was stopped at a time not after [t]. Without a context no handle is retained. *)
Definition coherent (t : Q) (ctx : option AudioContext) (handles : list nat) : Prop :=
  match ctx with
  | None => handles = []
  | Some ctx =>
      forall i n, nodes ctx !! i = Some n ->
        (i ∈ handles /\ stopAt n = None) \/
        ((i ∉ handles) /\ exists t', stopAt n = Some t' /\ (t' <= t)%Q)
  end.

(** The states of an [AudioStreamPlayer] that calls of its methods lead to
    from a new player, the clock of a context never running backwards; the
    index is the last reading of the clock. *)
Inductive streamReachable : Q -> AudioStreamPlayer.t -> Prop :=
| streamReachable_new rate :
    streamReachable 0 (AudioStreamPlayer.new rate)
| streamReachable_init t p now :
    streamReachable t p ->
    AudioStreamPlayer.audioContext p = None \/ (t <= now)%Q ->
    streamReachable now (AudioStreamPlayer.init now p)
| streamReachable_addChunk t p now pcm p' :
    streamReachable t p -> (t <= now)%Q ->
    AudioStreamPlayer.addChunk now pcm p = Ok p' ->
    streamReachable now p'
| streamReachable_stop t p now :
    streamReachable t p -> (t <= now)%Q ->
    streamReachable now (AudioStreamPlayer.stop now p)
| streamReachable_close t p now :
    streamReachable t p -> (t <= now)%Q ->
    streamReachable now (AudioStreamPlayer.close now p).

(** The same for an [AudioQueuePlayer]. *)
Inductive queueReachable : Q -> AudioQueuePlayer.t -> Prop :=
| queueReachable_new rate :
    queueReachable 0 (AudioQueuePlayer.new rate)
| queueReachable_init t p now :
    queueReachable t p ->
    AudioQueuePlayer.audioContext p = None \/ (t <= now)%Q ->
    queueReachable now (AudioQueuePlayer.init now p)
| queueReachable_addPCM t p now pcm p' :
    queueReachable t p -> (t <= now)%Q ->
    AudioQueuePlayer.addPCM now pcm p = Ok p' ->
    queueReachable now p'
| queueReachable_stop t p now :
    queueReachable t p -> (t <= now)%Q ->
    queueReachable now (AudioQueuePlayer.stop now p)
| queueReachable_close t p now :
    queueReachable t p -> (t <= now)%Q ->
    queueReachable now (AudioQueuePlayer.close now p).

(** Two bytes, one sample. *)
Definition one_sample : list byte := [x00; x40].
Definition two_samples : list byte := [x00; x40; x00; xc0].

(** Two nodes [a] and [b] scheduled one after the other from the offset
    [next], at the clock readings [nowA] and [nowB]; [nextA] and [nextB]
    are the offsets after each call. *)
Definition backToBack (next nowA nowB : Q) (a b : AudioBufferSourceNode)
    (nextA nextB : Q) : Prop :=
  startAt a = Qmax next nowA /\ nextA = (startAt a + duration (sourceBuffer a))%Q /\
  startAt b = Qmax nextA nowB /\ nextB = (startAt b + duration (sourceBuffer b))%Q /\
  (startAt a + duration (sourceBuffer a) <= startAt b)%Q.

(** Every node of the context was stopped at [now] at the latest, the nodes
    behind [handles] at [now], and no node that had not reached the end of
    its buffer at [now] plays to completion. *)
Definition allCancelled (now : Q) (handles : list nat) (ctx : option AudioContext) : Prop :=
  forall ctx' i n, ctx = Some ctx' -> nodes ctx' !! i = Some n ->
    (exists t', stopAt n = Some t' /\ (t' <= now)%Q /\ (i ∈ handles -> t' = now))
    /\ ((now < finish n)%Q -> ~ playsToCompletion n).

(** A player that is playing two samples scheduled at the clock reading 1. *)
Definition playing_stream : AudioStreamPlayer.t :=
  match AudioStreamPlayer.addChunk 1 two_samples
          (AudioStreamPlayer.init 1 (AudioStreamPlayer.new None)) with
  | Ok p => p
  | Throw _ => AudioStreamPlayer.new None
  end.

(** An initialised player. *)
Definition ready (p : AudioStreamPlayer.t) : Prop :=
  is_Some (AudioStreamPlayer.audioContext p) /\ AudioStreamPlayer.isPlaying p = true.

(** The bytes of the values read. *)
Definition payloads (reads : list (Q * list byte)) : list (list byte) :=
  List.map snd reads.

(** A response whose only value read has three bytes. *)
Definition three_byte_read : HTTPStream.response :=
  HTTPStream.mkResponse true 200 (Some [(0%Q, [x01; x02; x03])]).

(** The pipeline in the middle of a response: a client, and a chunker with
    the callback of the constructor that holds the text [b]. *)
Definition pipelineWith (cl : TTSWebSocketClient.t) (language b : jsstring)
    (minChars : Z) : VoicePipeline.t :=
  VoicePipeline.mk cl (LLMTextChunker.mk b minChars (VoicePipeline.onChunk language))
                   language.

(** A client whose socket is open and that has sent nothing. *)
Definition open_client : TTSWebSocketClient.t :=
  TTSWebSocketClient.connect 0 (TTSWebSocketClient.new None).

Definition english : jsstring := of_string "english".

(** The token events among the events of a response, and the test for an
    error event. *)
Definition tokensOf (evs : list Route.event) : list jsstring :=
  omap (fun e => match e with Route.Token text => Some text | _ => None end) evs.

Definition isError (e : Route.event) : bool :=
  match e with Route.Error _ => true | _ => false end.

Definition noError (evs : list Route.event) : Prop :=
  Forall (fun e => isError e = false) evs.


(** A hook that has not sent anything yet. *)
Definition idle_hook : VoiceChat.hook :=
  (VoiceChat.mkState false false [] None, AudioQueuePlayer.new None).

(** A response of the route that delivers a token and then an error
    event, and one whose body breaks off after the token. *)
Definition token_then_error : list (Q * VoiceChat.line) :=
  [(0%Q, VoiceChat.Data (VoiceChat.token (of_string "Hi")));
   (0%Q, VoiceChat.Data (VoiceChat.error_ (of_string "boom")))].


(** A chunk as [addToken] and [add] cut it: trimmed, and ending in a
    sentence or clause terminator. *)
Definition phrase (c : jsstring) : Prop :=
  trim c = c /\
  exists q t, c = q ++ [t] /\ (Regex.sentenceEnd t || Regex.clauseEnd t = true).

(** No line terminator occurs in the text. *)
Definition oneLine (s : jsstring) : Prop :=
  Forall (fun c => isLineTerminator c = false) s.

(** Calls of [addChunk], and of [addPCM], one after the other; a call that
    throws ends the run. *)
Fixpoint addChunks (calls : list (Q * list byte)) (p : AudioStreamPlayer.t)
  : result AudioStreamPlayer.t :=
  match calls with
  | [] => Ok p
  | (now, pcm) :: calls => p ← AudioStreamPlayer.addChunk now pcm p; addChunks calls p
  end.

Fixpoint addPCMs (calls : list (Q * list byte)) (p : AudioQueuePlayer.t)
  : result AudioQueuePlayer.t :=
  match calls with
  | [] => Ok p
  | (now, pcm) :: calls => p ← AudioQueuePlayer.addPCM now pcm p; addPCMs calls p
  end.

(** What a run of calls with playable buffers does to the context, the
    offset and the handles of either player. *)
Definition scheduleOne (rate : positive) (v : AudioContext * Q * list nat)
    (call : Q * list byte) : AudioContext * Q * list nat :=
  let '(ctx, next, handles) := v in
  let audioBuffer := bufferOf (snd call) rate in
  let startTime := Qmax next (fst call) in
  (snd (startSource audioBuffer startTime ctx),
   (startTime + duration audioBuffer)%Q,
   handles ++ [fst (startSource audioBuffer startTime ctx)]).

Definition scheduleAll (rate : positive) (v : AudioContext * Q * list nat)
    (calls : list (Q * list byte)) : AudioContext * Q * list nat :=
  foldl (scheduleOne rate) v calls.

(** Nodes that play one after the other from the offset [next] on, none
    before the one before it has ended, and none stopped; the last index
    is the offset after them. *)
Inductive chain : Q -> list AudioBufferSourceNode -> Q -> Prop :=
| chain_nil next : chain next [] next
| chain_cons next a rest next' :
    (next <= startAt a)%Q -> stopAt a = None ->
    chain (finish a) rest next' ->
    chain next (a :: rest) next'.

(** The same with no silence between the nodes. *)
Inductive gapless : Q -> list AudioBufferSourceNode -> Q -> Prop :=
| gapless_nil next : gapless next [] next
| gapless_cons next a rest next' :
    startAt a = next -> stopAt a = None ->
    gapless (finish a) rest next' ->
    gapless next (a :: rest) next'.

(** The clock never passes the end of what is queued: each call comes no
    later than the offset it finds. *)
Fixpoint noUnderrun (rate : positive) (next : Q) (calls : list (Q * list byte)) : Prop :=
  match calls with
  | [] => True
  | (now, pcm) :: calls =>
      (now <= next)%Q /\ noUnderrun rate (next + duration (bufferOf pcm rate))%Q calls
  end.

Definition totalDuration (rate : positive) (calls : list (Q * list byte)) : Q :=
  foldr (fun call d => (duration (bufferOf (snd call) rate) + d)%Q) 0%Q calls.

(** [processToken] on each token in turn. *)
Definition processTokens (tokens : list jsstring) (p : VoicePipeline.t) : VoicePipeline.t :=
  foldl (fun p token => VoicePipeline.processToken token p) p tokens.

(** The callback [on] called on each chunk in turn. *)
Definition emitAll {W} (on : jsstring -> W -> W) (chunks : list jsstring) (w : W) : W :=
  foldl (fun w chunk => on chunk w) w chunks.

(** The separator of the lines of an event stream. *)
Definition blankLine : jsstring := [10; 10]%N.

(** The text does not hold the separator. *)
Definition unbroken (line : jsstring) : Prop :=
  forall u v, line <> u ++ blankLine ++ v.

(** The texts of the token events among the lines, and the test for the
    [done] event. *)
Definition tokenTexts (lines : list (Q * VoiceChat.line)) : list jsstring :=
  omap (fun l => match snd l with
                 | VoiceChat.Data (VoiceChat.token text) => Some text
                 | _ => None
                 end) lines.

Definition isDone (l : Q * VoiceChat.line) : bool :=
  match snd l with
  | VoiceChat.Data VoiceChat.done => true
  | _ => false
  end.

(** The pieces with the separator between them. *)
Fixpoint join (pieces : list jsstring) : jsstring :=
  match pieces with
  | [] => []
  | [piece] => piece
  | piece :: pieces => piece ++ blankLine ++ join pieces
  end.

(** The indices and the texts of the audio events among the events of a
    response. *)
Definition audioIndices (evs : list Route.event) : list nat :=
  omap (fun e => match e with Route.Audio _ index _ => Some index | _ => None end) evs.

Definition audioTexts (evs : list Route.event) : list jsstring :=
  omap (fun e => match e with Route.Audio _ _ text => Some text | _ => None end) evs.

(** One step of [feed]. *)
Definition feedStep (acc : list jsstring * TextChunker.t) (text : jsstring)
  : list jsstring * TextChunker.t :=
  let '(log, c) := acc in
  let '(chunk, c) := TextChunker.add text c in
  (log ++ option_list chunk, c).

(** A synthesis service that answers every request with audio. *)
Definition speaking_service : Route.service :=
  fun _ _ _ => Route.Responded true (Some (Some (of_string "UklGRg=="))).

(** The values that the response to the [n]-th request carries to the
    client, and those of the requests for the chunks in turn, the first
    being the [n]-th. *)
Definition played (tts : Route.streamService) (language : jsstring) (n : nat)
    (chunk : jsstring) : list (list byte) :=
  match tts n chunk language with
  | Route.RespondedStream true (Some (values, _)) => values
  | _ => []
  end.

Fixpoint playedFrom (tts : Route.streamService) (language : jsstring) (n : nat)
    (chunks : list jsstring) : list (list byte) :=
  match chunks with
  | [] => []
  | chunk :: chunks => played tts language n chunk ++ playedFrom tts language (S n) chunks
  end.

(** A request that neither rejects nor breaks off while its body is read. *)
Definition settles (f : Route.streamFetch) : Prop :=
  match f with
  | Route.RejectedStream _ => False
  | Route.RespondedStream _ (Some (_, Some _)) => False
  | _ => True
  end.

(** A streaming service that answers every request with two values. *)
Definition pcm_service : Route.streamService :=
  fun _ _ _ => Route.RespondedStream true (Some ([two_samples; [x01]], None)).

(** The clock does not run backwards over the calls: each call reads a
    time that is no earlier than the one before it, the first no earlier
    than [t]. *)
Fixpoint clockRuns (t : Q) (calls : list (Q * list byte)) : Prop :=
  match calls with
  | [] => True
  | (now, _) :: calls => (t <= now)%Q /\ clockRuns now calls
  end.

(** The clock of the last call, [t] when there is none. *)
Definition lastCall (t : Q) (calls : list (Q * list byte)) : Q :=
  foldl (fun _ call => fst call) t calls.

(** The wait of [streamTTSFromHTTP] between the end of the body and the
    [finally] block:
      [const durationMs = (totalBytes / 2 / 22050) * 1000;
       await new Promise(resolve => setTimeout(resolve, durationMs + 100));]
    [playbackWait] is the delay of the timer in seconds. *)
Definition durationMs (totalBytes : nat) : Q :=
  (inject_Z (Z.of_nat totalBytes) / 2 / 22050 * 1000)%Q.

Definition playbackWait (totalBytes : nat) : Q :=
  ((durationMs totalBytes + 100) / 1000)%Q.

(** Two reads of two samples each, the second five seconds after the
    first. *)
Definition late_reads : list (Q * list byte) :=
  [(0%Q, two_samples); (5%Q, two_samples)].

(** The call of [addChunk] that a line makes [streamTTSFromSSE] do: the
    clock of the line and the bytes that [atob] gives, all of them. *)
Definition sseCall (l : Q * SSEStream.line) : option (Q * list byte) :=
  match snd l with
  | SSEStream.Data (VoiceChat.audio (Some (Ok bytes))) => Some (fst l, bytes)
  | _ => None
  end.

(** A line on which the loop of [streamTTSFromSSE] does not throw. *)
Definition harmless (l : SSEStream.line) : Prop :=
  match l with
  | SSEStream.BadJSON _ => False
  | SSEStream.Data (VoiceChat.audio (Some (Throw _))) => False
  | SSEStream.Data (VoiceChat.audio (Some (Ok bytes))) => playable bytes
  | _ => True
  end.

(** What a line throws before anything reaches the player. *)
Definition thrownBy (l : SSEStream.line) : option exn :=
  match l with
  | SSEStream.BadJSON e => Some e
  | SSEStream.Data (VoiceChat.audio (Some (Throw e))) => Some e
  | _ => None
  end.

(** A response with a token, audio, an error event and the [done] event,
    and the same with a line in the middle that does not parse. *)
Definition sse_events : list (Q * SSEStream.line) :=
  [(0%Q, SSEStream.Data (VoiceChat.token (of_string "Hi.")));
   (0%Q, SSEStream.Data (VoiceChat.audio (Some (Ok two_samples))));
   (1%Q, SSEStream.Data (VoiceChat.error_ (of_string "boom")));
   (1%Q, SSEStream.Data VoiceChat.done)].

Definition syntax_error : exn := Exn ErrorName (of_string "Unexpected end of JSON input").

(** The offset with the durations of the buffers added to it one at a
    time, in the order of the calls: the additions that a run of calls
    performs when no reading of the clock is taken for a start time. *)
Definition offsetAfter (rate : positive) (next : Q) (calls : list (Q * list byte)) : Q :=
  foldl (fun t call => (t + duration (bufferOf (snd call) rate))%Q) next calls.

(** What [close] at [now] does to a player whose context holds the nodes
    [news]: [stop] stops every one of them at [now], the nodes keeping
    their buffers, and the player is left without a context, not playing
    and with no handle retained. *)
Definition closedAt (now : Q) (news : list AudioBufferSourceNode)
    (p : AudioStreamPlayer.t) : Prop :=
  (exists ctx,
      AudioStreamPlayer.audioContext (AudioStreamPlayer.stop now p) = Some ctx /\
      List.map sourceBuffer (nodes ctx) = List.map sourceBuffer news /\
      Forall (fun n => stopAt n = Some now) (nodes ctx)) /\
  AudioStreamPlayer.audioContext (AudioStreamPlayer.close now p) = None /\
  AudioStreamPlayer.isPlaying (AudioStreamPlayer.close now p) = false /\
  AudioStreamPlayer.scheduledBuffers (AudioStreamPlayer.close now p) = [].

(** A response of three values, the second of three bytes. *)
Definition odd_second_read : HTTPStream.response :=
  HTTPStream.mkResponse true 200
    (Some ([(0%Q, two_samples)] ++ (0%Q, [x01; x02; x03]) :: [(0%Q, two_samples)])).

(* ===================================================================== *)
(** ** Strings: spans and trimming                                        *)
(* ===================================================================== *)

Section Spans.
Context {A : Type} (f : A -> bool).

Lemma takeWhile_dropWhile (l : list A) : takeWhile f l ++ dropWhile f l = l.
Proof. induction l as [|x l IH]; simpl; [done|]. destruct (f x); simpl; congruence. Qed.

Lemma takeWhile_all (l : list A) : Forall (fun x => f x = true) (takeWhile f l).
Proof.
  induction l as [|x l IH]; simpl; [constructor|].
  destruct (f x) eqn:E; constructor; assumption.
Qed.

Lemma dropWhile_head (l : list A) x : head (dropWhile f l) = Some x -> f x = false.
Proof.
  induction l as [|y l IH]; simpl; [done|].
  destruct (f y) eqn:E; simpl; [done|]. intros [= <-]. done.
Qed.

Lemma takeWhile_app (ws rest : list A) :
  Forall (fun x => f x = true) ws ->
  (forall d, head rest = Some d -> f d = false) ->
  takeWhile f (ws ++ rest) = ws.
Proof.
  intros Hws Hrest. induction Hws as [|x ws Hx _ IH]; simpl.
  - destruct rest as [|d rest]; simpl; [done|]. by rewrite (Hrest d).
  - by rewrite Hx, IH.
Qed.

Lemma dropWhile_all (l : list A) :
  Forall (fun x => f x = true) l -> dropWhile f l = [].
Proof. induction 1 as [|x l Hx _ IH]; simpl; [done|]. by rewrite Hx. Qed.

Lemma dropWhile_stop (x : A) (l : list A) : f x = false -> dropWhile f (x :: l) = x :: l.
Proof. intros H. simpl. by rewrite H. Qed.

Lemma dropWhile_nil_all (l : list A) :
  dropWhile f l = [] -> Forall (fun x => f x = true) l.
Proof.
  induction l as [|x l IH]; simpl; [constructor|].
  destruct (f x) eqn:E; [|done]. intros H. constructor; auto.
Qed.
End Spans.

Lemma spaces_app (u v : jsstring) : spaces u -> spaces v -> spaces (u ++ v).
Proof. unfold spaces. intros. by apply Forall_app. Qed.

Lemma spaces_rev (u : jsstring) : spaces u -> spaces (rev u).
Proof. apply List.Forall_rev. Qed.

Lemma trimStart_split (s : jsstring) :
  exists l, spaces l /\ s = l ++ trimStart s.
Proof.
  exists (takeWhile isSpace s). split; [apply takeWhile_all|].
  symmetry. apply takeWhile_dropWhile.
Qed.

Lemma trimEnd_split (s : jsstring) :
  exists r, spaces r /\ s = trimEnd s ++ r.
Proof.
  exists (rev (takeWhile isSpace (rev s))). split.
  - apply spaces_rev, takeWhile_all.
  - unfold trimEnd. rewrite <- rev_app_distr, takeWhile_dropWhile. by rewrite rev_involutive.
Qed.

(** A string is its trimmed text between two runs of spaces. *)
Lemma trim_split (s : jsstring) :
  exists l r, spaces l /\ spaces r /\ s = l ++ trim s ++ r.
Proof.
  destruct (trimStart_split s) as (l & Hl & Hs).
  destruct (trimEnd_split (trimStart s)) as (r & Hr & Ht).
  exists l, r. repeat split; [done..|]. unfold trim. by rewrite <- Ht.
Qed.

Lemma trimStart_solid_head (x : char) (s : jsstring) :
  isSpace x = false -> trimStart (x :: s) = x :: s.
Proof. apply dropWhile_stop. Qed.

Lemma trimEnd_solid_head (x : char) (s : jsstring) :
  isSpace x = false -> exists s', trimEnd (x :: s) = x :: s'.
Proof.
  intros Hx. destruct (trimEnd_split (x :: s)) as (r & Hr & E).
  destruct (trimEnd (x :: s)) as [|y s'] eqn:Et.
  - simpl in E. subst r. inversion Hr; congruence.
  - simpl in E. injection E as <- _. by exists s'.
Qed.

Lemma trimEnd_idem (s : jsstring) : trimEnd (trimEnd s) = trimEnd s.
Proof.
  unfold trimEnd. rewrite rev_involutive. f_equal.
  destruct (dropWhile isSpace (rev s)) as [|x l] eqn:E; [done|].
  apply dropWhile_stop. apply (dropWhile_head isSpace (rev s)). by rewrite E.
Qed.

(** Trimming a trimmed string changes nothing. *)
Lemma trim_idem (s : jsstring) : trim (trim s) = trim s.
Proof.
  unfold trim. destruct (trimStart s) as [|x t] eqn:E; [done|].
  assert (Hx : isSpace x = false).
  { apply (dropWhile_head isSpace s). unfold trimStart in E. by rewrite E. }
  destruct (trimEnd_solid_head x t Hx) as (t' & Et).
  rewrite Et, (trimStart_solid_head x t' Hx), <- Et. apply trimEnd_idem.
Qed.

Lemma trim_spaces (s : jsstring) : spaces s -> trim s = [].
Proof. intros H. unfold trim, trimStart. by rewrite (dropWhile_all _ _ H). Qed.

Lemma trim_nil_spaces (s : jsstring) : trim s = [] -> spaces s.
Proof.
  intros H. destruct (trim_split s) as (l & r & Hl & Hr & E).
  rewrite H in E. rewrite E. simpl. by apply spaces_app.
Qed.

Lemma truthy_false (s : jsstring) : truthy s = false <-> s = [].
Proof. by destruct s. Qed.

Lemma truthy_true (s : jsstring) : truthy s = true <-> s <> [].
Proof. by destruct s. Qed.

(* ===================================================================== *)
(** ** The regular expressions find the first boundary                    *)
(* ===================================================================== *)

Lemma boundaryAt_cons T (x : char) (s : jsstring) i :
  boundaryAt T (x :: s) (S i) <-> boundaryAt T s i.
Proof. unfold boundaryAt. simpl. done. Qed.

Lemma boundaryAt_0 T (x : char) (s : jsstring) :
  boundaryAt T (x :: s) 0 <->
  T x && match s with d :: _ => isSpace d | [] => false end = true.
Proof.
  unfold boundaryAt. split.
  - intros (c & d & Hc & Hd & HT & Hs). simpl in Hc. injection Hc as ->.
    destruct s as [|d' s]; simpl in Hd; [done|]. injection Hd as ->.
    by rewrite HT, Hs.
  - intros H. apply andb_true_iff in H as [HT Hs].
    destruct s as [|d s]; [done|]. by exists x, d.
Qed.

Lemma boundary_sound dotAll T (s g : jsstring) :
  Regex.boundary dotAll T s = Some g -> firstBoundary dotAll T s g.
Proof.
  revert g. induction s as [|x s IH]; intros g; simpl; [done|].
  destruct (T x && _) eqn:E.
  - intros [= <-]. apply andb_true_iff in E as [HT Hd].
    exists [], x, (takeWhile isSpace s), (dropWhile isSpace s).
    simpl. repeat split.
    + by rewrite takeWhile_dropWhile.
    + done.
    + destruct s as [|d s]; [done|]. simpl. by rewrite Hd.
    + apply takeWhile_all.
    + apply dropWhile_head.
    + constructor.
    + intros i Hi. lia.
  - destruct (Regex.dot dotAll x) eqn:Hdot; [|done].
    destruct (Regex.boundary dotAll T s) as [g'|] eqn:Eg; [|done].
    intros [= <-].
    destruct (IH g' eq_refl) as (pre & c & ws & rest & -> & -> & HT & Hne & Hws & Hrest & Hpre & Hmin).
    exists (x :: pre), c, ws, rest. simpl. repeat split; try done.
    + by constructor.
    + intros [|i] Hi.
      * rewrite boundaryAt_0. by rewrite E.
      * rewrite boundaryAt_cons. apply Hmin. lia.
Qed.

Lemma boundary_complete dotAll T (s g : jsstring) :
  firstBoundary dotAll T s g -> Regex.boundary dotAll T s = Some g.
Proof.
  intros (pre & c & ws & rest & -> & -> & HT & Hne & Hws & Hrest & Hpre & Hmin).
  induction pre as [|x pre IH]; simpl.
  - destruct ws as [|d ws]; [done|]. simpl.
    assert (Hd : isSpace d = true) by (by inversion Hws).
    rewrite HT, Hd. simpl. do 3 f_equal.
    apply takeWhile_app; [by inversion Hws|done].
  - assert (E : T x && match pre ++ c :: ws ++ rest with
                       | d :: _ => isSpace d | [] => false end = false).
    { apply not_true_is_false. rewrite <- boundaryAt_0.
      apply (Hmin 0). simpl. lia. }
    rewrite E. inversion Hpre as [|? ? Hx Hpre']; subst. rewrite Hx.
    rewrite IH; [done|done|].
    intros i Hi. rewrite <- boundaryAt_cons. apply Hmin. simpl. lia.
Qed.

(** The match of [/^(.*?[T]\s+)/] is the prefix up to the first boundary
    with the run of spaces after it. *)
Lemma boundary_iff dotAll T (s g : jsstring) :
  Regex.boundary dotAll T s = Some g <-> firstBoundary dotAll T s g.
Proof. split; [apply boundary_sound|apply boundary_complete]. Qed.

Lemma firstBoundary_prefix dotAll T (s g : jsstring) :
  firstBoundary dotAll T s g -> s = g ++ drop (length g) s.
Proof.
  intros (pre & c & ws & rest & -> & -> & _).
  replace (pre ++ c :: ws ++ rest) with ((pre ++ c :: ws) ++ rest)
    by (by rewrite <- app_assoc).
  by rewrite drop_app_length.
Qed.

Lemma boundary_prefix dotAll T (s g : jsstring) :
  Regex.boundary dotAll T s = Some g -> s = g ++ drop (length g) s.
Proof. intros H. eapply firstBoundary_prefix, boundary_sound, H. Qed.

Lemma longEnough_Some minChars m (g : jsstring) :
  Regex.longEnough minChars m = Some g <->
  m = Some g /\ (minChars <= Z.of_nat (length g))%Z.
Proof.
  unfold Regex.longEnough. destruct m as [g'|].
  - destruct (minChars <=? Z.of_nat (length g'))%Z eqn:E.
    + apply Z.leb_le in E. split.
      * intros H. injection H as <-. done.
      * intros [H _]. done.
    + apply Z.leb_gt in E. split; [done|].
      intros [H Hle]. injection H as <-. lia.
  - split; [done|]. intros [H _]. done.
Qed.

Lemma longEnough_None minChars m :
  Regex.longEnough minChars m = None <->
  forall g : jsstring, m = Some g -> (Z.of_nat (length g) < minChars)%Z.
Proof.
  unfold Regex.longEnough. destruct m as [g'|].
  - destruct (minChars <=? Z.of_nat (length g'))%Z eqn:E.
    + apply Z.leb_le in E. split; [done|]. intros H. specialize (H g' eq_refl). lia.
    + apply Z.leb_gt in E. split; [|done]. intros _ g H. injection H as <-. done.
  - split; [|done]. intros _ g H. done.
Qed.

(* ===================================================================== *)
(** ** The two chunkers take the decision [segment]                       *)
(* ===================================================================== *)

Lemma addToken_segment {W} (token : jsstring) (c : LLMTextChunker.t W) (w : W) :
  LLMTextChunker.addToken token (c, w) =
  let '(chunk, b) :=
    segment false (LLMTextChunker.minChars c) (LLMTextChunker.buffer c ++ token) in
  (LLMTextChunker.set_buffer b c,
   match chunk with
   | Some chunk => LLMTextChunker.onChunk c chunk w
   | None => w
   end).
Proof.
  unfold LLMTextChunker.addToken, segment, LLMTextChunker.emitChunk, slice. simpl.
  destruct (Regex.longEnough _ _); [done|].
  destruct (50 <? _)%nat; [|done].
  destruct (Regex.longEnough _ _); done.
Qed.

Lemma add_segment (text : jsstring) (c : TextChunker.t) :
  TextChunker.add text c =
  let '(chunk, b) :=
    segment true (TextChunker.minChars c) (TextChunker.buffer c ++ text) in
  (chunk, TextChunker.set_buffer b c).
Proof.
  unfold TextChunker.add, segment, slice. simpl.
  destruct (Regex.longEnough _ _); [done|].
  destruct (50 <? _)%nat; [|done].
  destruct (Regex.longEnough _ _); done.
Qed.

(** Whatever [segment] does, the chunk is the trimmed text of a prefix of
    the buffer, and that prefix is what leaves the buffer. *)
Lemma segment_cut dotAll minChars (b : jsstring) chunk b' :
  segment dotAll minChars b = (chunk, b') ->
  match chunk with
  | Some ch => exists g, ch = trim g /\ b = g ++ b' /\ g <> []
  | None => b' = b
  end.
Proof.
  unfold segment.
  destruct (Regex.longEnough _ (Regex.boundary dotAll Regex.sentenceEnd b)) as [g|] eqn:E1.
  - intros [= <- <-]. apply longEnough_Some in E1 as [E1 _].
    exists g. split; [done|]. split; [by eapply boundary_prefix|].
    apply boundary_sound in E1 as (pre & c & ws & rest & _ & -> & _). by destruct pre.
  - destruct (50 <? length b)%nat; [|by intros [= <- <-]].
    destruct (Regex.longEnough _ (Regex.boundary dotAll Regex.clauseEnd b)) as [g|] eqn:E2;
      [|by intros [= <- <-]].
    intros [= <- <-]. apply longEnough_Some in E2 as [E2 _].
    exists g. split; [done|]. split; [by eapply boundary_prefix|].
    apply boundary_sound in E2 as (pre & c & ws & rest & _ & -> & _). by destruct pre.
Qed.

Lemma sentenceEnd_solid (c : char) : Regex.sentenceEnd c = true -> isSpace c = false.
Proof.
  unfold Regex.sentenceEnd. rewrite !orb_true_iff, !N.eqb_eq. by intros [[->| ->]| ->].
Qed.

Lemma clauseEnd_solid (c : char) : Regex.clauseEnd c = true -> isSpace c = false.
Proof.
  unfold Regex.clauseEnd. rewrite !orb_true_iff, !N.eqb_eq. by intros [[->| ->]| ->].
Qed.

Lemma boundary_solid dotAll T (s g : jsstring) :
  (forall c, T c = true -> isSpace c = false) ->
  Regex.boundary dotAll T s = Some g -> trim g <> [].
Proof.
  intros HT Hg Hnil. apply trim_nil_spaces in Hnil.
  apply boundary_sound in Hg as (pre & c & ws & rest & _ & -> & Hc & _).
  apply Forall_app in Hnil as [_ Hnil]. inversion Hnil as [|? ? Hsp _]; subst.
  rewrite (HT c Hc) in Hsp. done.
Qed.

(** A chunk that [segment] cuts is never empty. *)
Lemma segment_chunk_solid dotAll minChars (b : jsstring) chunk b' :
  segment dotAll minChars b = (Some chunk, b') -> chunk <> [].
Proof.
  unfold segment.
  destruct (Regex.longEnough _ (Regex.boundary dotAll Regex.sentenceEnd b)) as [g|] eqn:E1.
  - intros [= <- <-]. apply longEnough_Some in E1 as [E1 _].
    eapply boundary_solid; [apply sentenceEnd_solid|done].
  - destruct (50 <? length b)%nat; [|done].
    destruct (Regex.longEnough _ (Regex.boundary dotAll Regex.clauseEnd b)) as [g|] eqn:E2;
      [|done].
    intros [= <- <-]. apply longEnough_Some in E2 as [E2 _].
    eapply boundary_solid; [apply clauseEnd_solid|done].
Qed.

(* ===================================================================== *)
(** ** The boundary rule of the segmenter                                 *)
(* ===================================================================== *)

Lemma longEnough_first dotAll T minChars (b g : jsstring) :
  firstBoundary dotAll T b g -> (minChars <= Z.of_nat (length g))%Z ->
  Regex.longEnough minChars (Regex.boundary dotAll T b) = Some g.
Proof. intros Hg Hlen. apply longEnough_Some. split; [by apply boundary_complete|done]. Qed.

Lemma longEnough_tooShort dotAll T minChars (b : jsstring) :
  (forall g, firstBoundary dotAll T b g -> (Z.of_nat (length g) < minChars)%Z) ->
  Regex.longEnough minChars (Regex.boundary dotAll T b) = None.
Proof. intros H. apply longEnough_None. intros g Hg. apply H. by apply boundary_sound. Qed.

Lemma segment_rule dotAll minChars (b : jsstring) :
  firstBoundaryRule dotAll minChars b
    (fst (segment dotAll minChars b)) (snd (segment dotAll minChars b)).
Proof.
  unfold firstBoundaryRule. split; [|split].
  - intros g Hg Hlen. unfold segment.
    rewrite (longEnough_first _ _ _ _ _ Hg Hlen). simpl.
    split; [done|]. by eapply firstBoundary_prefix.
  - intros g Hshort H50 Hg Hlen. unfold segment.
    rewrite (longEnough_tooShort _ _ _ _ Hshort).
    apply Nat.ltb_lt in H50 as ->.
    rewrite (longEnough_first _ _ _ _ _ Hg Hlen). simpl.
    split; [done|]. by eapply firstBoundary_prefix.
  - intros Hshort Hno. unfold segment.
    rewrite (longEnough_tooShort _ _ _ _ Hshort).
    destruct Hno as [Hlen|Hshort'].
    + apply Nat.ltb_ge in Hlen as ->. done.
    + rewrite (longEnough_tooShort _ _ _ _ Hshort'). by destruct (50 <? length b)%nat.
Qed.

(** C1 (as amended).  After the append, [addToken] and [add] cut the buffer
    by the first-boundary rule: the prefix that is cut runs to the FIRST
    sentence boundary (not the last) and through the spaces after it, the
    threshold [minChars] is compared with the length of that prefix, spaces
    included, the chunk is its trimmed text and exactly that prefix leaves
    the buffer; the clause boundary is looked for only when no sentence
    boundary was accepted and the buffer has more than 50 code units. *)
Theorem segmenter_cuts_at_first_boundary :
  (forall W (c : LLMTextChunker.t W) (w : W) (token : jsstring),
      exists chunk b',
        firstBoundaryRule false (LLMTextChunker.minChars c)
          (LLMTextChunker.buffer c ++ token) chunk b' /\
        LLMTextChunker.addToken token (c, w) =
          (LLMTextChunker.set_buffer b' c,
           match chunk with
           | Some chunk => LLMTextChunker.onChunk c chunk w
           | None => w
           end))
  /\ (forall (c : TextChunker.t) (text : jsstring),
      exists chunk b',
        firstBoundaryRule true (TextChunker.minChars c)
          (TextChunker.buffer c ++ text) chunk b' /\
        TextChunker.add text c = (chunk, TextChunker.set_buffer b' c)).
Proof.
  split.
  - intros W c w token.
    pose proof (segment_rule false (LLMTextChunker.minChars c)
                  (LLMTextChunker.buffer c ++ token)) as Hrule.
    rewrite addToken_segment.
    destruct (segment _ _ _) as [chunk b']. by exists chunk, b'.
  - intros c text.
    pose proof (segment_rule true (TextChunker.minChars c)
                  (TextChunker.buffer c ++ text)) as Hrule.
    rewrite add_segment.
    destruct (segment _ _ _) as [chunk b']. by exists chunk, b'.
Qed.

(** The rule at work: of two sentences that arrive together the first is
    emitted and the second stays in the buffer. *)
Lemma segmenter_cuts_at_first_boundary_witness :
  LLMTextChunker.addToken two_sentences (LLMTextChunker.new record_chunk None, [])
  = (LLMTextChunker.mk (of_string "And this is a second sentence. ") 20 record_chunk,
     [of_string "This is a first sentence."]).
Proof.
  destruct segmenter_cuts_at_first_boundary as [Htoken _].
  destruct (Htoken _ (LLMTextChunker.new record_chunk None) [] two_sentences)
    as (chunk & b' & (Hsentence & _) & ->).
  destruct (Hsentence (of_string "This is a first sentence. ")) as [-> Hb].
  - apply boundary_sound. reflexivity.
  - simpl. lia.
  - apply (app_inv_head (of_string "This is a first sentence. ")) in Hb.
    rewrite <- Hb. reflexivity.
Defined.

(** C1 as stated fails: with both sentences in the buffer the longest prefix
    that ends in a sentence terminator before a space is the whole text, yet
    the chunk emitted is the first sentence. *)
Lemma longest_sentence_prefix_counterexample :
  ~ (forall (buf token p : jsstring),
        let b := buf ++ token in
        sentencePrefix b p ->
        (20 <= Z.of_nat (length (trim p)))%Z ->
        (forall p', sentencePrefix b p' -> length p' <= length p) ->
        snd (LLMTextChunker.addToken token (LLMTextChunker.mk buf 20 record_chunk, []))
        = [trim p]).
Proof.
  intros H.
  pose (p := of_string "This is a first sentence. And this is a second sentence.").
  assert (E : snd (LLMTextChunker.addToken two_sentences
                     (LLMTextChunker.mk [] 20 record_chunk, [])) = [trim p]).
  { apply (H [] two_sentences p).
    - exists (of_string "This is a first sentence. And this is a second sentence"),
        46%N, 32%N, []. done.
    - vm_compute. discriminate.
    - intros p' (q & c & d & rest & -> & E & _).
      apply (f_equal length) in E.
      change (length ([] ++ two_sentences)) with 57 in E.
      change (length p) with 56.
      rewrite length_app in E. simpl in E. lia. }
  vm_compute in E. discriminate E.
Qed.

(** A first sentence shorter than [minChars] is not emitted, and it keeps
    the sentences after it in the buffer: the regular expression only ever
    finds the first boundary. *)
Example short_first_sentence_blocks :
  LLMTextChunker.addToken short_then_long (LLMTextChunker.new record_chunk None, [])
  = (LLMTextChunker.mk short_then_long 20 record_chunk, []).
Proof. reflexivity. Qed.

(** The threshold counts the spaces after the terminator: a chunk of three
    code units is emitted here. *)
Example threshold_counts_spaces :
  LLMTextChunker.addToken padded_ok (LLMTextChunker.new record_chunk None, [])
  = (LLMTextChunker.mk [] 20 record_chunk, [of_string "Ok."]).
Proof. reflexivity. Qed.

(* ===================================================================== *)
(** ** flush                                                              *)
(* ===================================================================== *)

(** C9 (as amended).  [flush] emits exactly one chunk, the trimmed buffer,
    and empties the buffer when the buffer is not empty after trimming;
    when the buffer trims to the empty string it emits nothing and leaves
    the buffer as it is.  Either way no code unit other than spaces is
    pending afterwards.  The two classes agree. *)
Theorem flush_emits_trimmed_rest (b : jsstring) (minChars : Z) (log : list jsstring) :
  let '(c', log') :=
    LLMTextChunker.flush (LLMTextChunker.mk b minChars record_chunk, log) in
  let '(chunk, t') := TextChunker.flush (TextChunker.mk b minChars) in
  trim (LLMTextChunker.buffer c') = []
  /\ TextChunker.buffer t' = LLMTextChunker.buffer c'
  /\ (trim b <> [] ->
      LLMTextChunker.buffer c' = [] /\ log' = log ++ [trim b] /\ chunk = Some (trim b))
  /\ (trim b = [] ->
      LLMTextChunker.buffer c' = b /\ log' = log /\ chunk = None).
Proof.
  unfold LLMTextChunker.flush, TextChunker.flush, LLMTextChunker.emitChunk. simpl.
  destruct (truthy (trim b)) eqn:E; simpl.
  - apply truthy_true in E. rewrite trim_idem. unfold record_chunk. done.
  - apply truthy_false in E. done.
Qed.

Lemma flush_emits_trimmed_rest_witness :
  LLMTextChunker.flush (LLMTextChunker.mk (of_string " Ok. ") 20 record_chunk, [])
  = (LLMTextChunker.mk [] 20 record_chunk, [of_string "Ok."])
  /\ LLMTextChunker.flush (LLMTextChunker.mk (of_string "  ") 20 record_chunk, [])
  = (LLMTextChunker.mk (of_string "  ") 20 record_chunk, []).
Proof.
  split.
  - pose proof (flush_emits_trimmed_rest (of_string " Ok. ") 20 []) as H.
    destruct (LLMTextChunker.flush _) as [[b' m on] log'] eqn:Ef.
    destruct (TextChunker.flush _) as [chunk t'].
    destruct H as (_ & _ & H & _). simpl in H.
    destruct H as (-> & -> & _); [discriminate|].
    injection Ef as <- <-. reflexivity.
  - pose proof (flush_emits_trimmed_rest (of_string "  ") 20 []) as H.
    destruct (LLMTextChunker.flush _) as [[b' m on] log'] eqn:Ef.
    destruct (TextChunker.flush _) as [chunk t'].
    destruct H as (_ & _ & _ & H). simpl in H.
    destruct H as (-> & -> & _); [reflexivity|].
    injection Ef as <- <-. reflexivity.
Defined.

(** C9 as stated fails: a buffer that holds one space still holds it after
    [flush]. *)
Lemma flush_keeps_blank_buffer_counterexample :
  ~ (forall b : jsstring,
        LLMTextChunker.buffer
          (fst (LLMTextChunker.flush (LLMTextChunker.mk b 20 record_chunk, []))) = []
        /\ TextChunker.buffer (snd (TextChunker.flush (TextChunker.mk b 20))) = []).
Proof. intros H. destruct (H [32%N]) as [E _]. discriminate E. Qed.

(* ===================================================================== *)
(** ** The chunks make up the input                                       *)
(* ===================================================================== *)

Lemma reassembles_pad (cs : list jsstring) (s w : jsstring) :
  reassembles cs s -> spaces w -> reassembles cs (s ++ w).
Proof.
  intros H Hw. induction H as [w0 Hw0|w0 c cs rest Hw0 _ IH].
  - constructor. by apply spaces_app.
  - rewrite <- !app_assoc. by constructor.
Qed.

Lemma reassembles_snoc (cs : list jsstring) (s w1 c w2 : jsstring) :
  reassembles cs s -> spaces w1 -> spaces w2 ->
  reassembles (cs ++ [c]) (s ++ w1 ++ c ++ w2).
Proof.
  intros H H1 H2. induction H as [w0 Hw0|w0 c0 cs rest Hw0 _ IH].
  - rewrite app_assoc. constructor; [by apply spaces_app|by constructor].
  - rewrite <- !app_assoc. simpl. by constructor.
Qed.

Lemma solid_spaces (w : jsstring) : spaces w -> solid w = [].
Proof.
  unfold solid. induction 1 as [|x w Hx _ IH]; [done|].
  rewrite filter_cons_False; [done|]. by rewrite Hx.
Qed.

Lemma solid_app (u v : jsstring) : solid (u ++ v) = solid u ++ solid v.
Proof. apply filter_app. Qed.

(** Between the chunks only spaces are missing. *)
Lemma reassembles_solid (cs : list jsstring) (s : jsstring) :
  reassembles cs s -> solid (concat cs) = solid s.
Proof.
  induction 1 as [w Hw|w c cs rest Hw _ IH]; simpl.
  - by rewrite (solid_spaces w Hw).
  - rewrite !solid_app, IH, (solid_spaces w Hw). done.
Qed.

Lemma segment_reassembles dotAll minChars (log : list jsstring)
    (consumed b chunk_rest : jsstring) chunk :
  reassembles log consumed ->
  segment dotAll minChars b = (chunk, chunk_rest) ->
  exists consumed',
    consumed' ++ chunk_rest = consumed ++ b /\
    reassembles (log ++ option_list chunk) consumed'.
Proof.
  intros Hlog Hseg. apply segment_cut in Hseg. destruct chunk as [ch|]; simpl.
  - destruct Hseg as (g & -> & -> & _).
    destruct (trim_split g) as (l & r & Hl & Hr & Eg).
    exists (consumed ++ g). split; [by rewrite app_assoc|].
    rewrite Eg at 2. by apply reassembles_snoc.
  - subst chunk_rest. exists consumed. by rewrite app_nil_r.
Qed.

Lemma flush_reassembles (log : list jsstring) (consumed b : jsstring) :
  reassembles log consumed ->
  reassembles (log ++ (if truthy (trim b) then [trim b] else [])) (consumed ++ b).
Proof.
  intros Hlog. destruct (truthy (trim b)) eqn:E.
  - destruct (trim_split b) as (l & r & Hl & Hr & Eb).
    rewrite Eb at 2. by apply reassembles_snoc.
  - apply truthy_false, trim_nil_spaces in E.
    rewrite app_nil_r. by apply reassembles_pad.
Qed.

Lemma addTokens_invariant (minChars : Z) (fragments : list jsstring) :
  exists b log consumed,
    addTokens fragments (LLMTextChunker.new record_chunk (Some minChars), [])
    = (LLMTextChunker.mk b minChars record_chunk, log) /\
    consumed ++ b = concat fragments /\ reassembles log consumed.
Proof.
  unfold addTokens.
  induction fragments as [|token fragments IH] using rev_ind.
  - exists [], [], []. repeat split. constructor. constructor.
  - destruct IH as (b & log & consumed & E & Hb & Hlog).
    rewrite foldl_app, E. cbn [foldl]. rewrite addToken_segment. simpl.
    destruct (segment false minChars (b ++ token)) as [chunk b'] eqn:Hseg.
    destruct (segment_reassembles _ _ _ _ _ _ _ Hlog Hseg) as (consumed' & Hc & Hlog').
    exists b', (log ++ option_list chunk), consumed'. repeat split.
    + unfold LLMTextChunker.set_buffer, record_chunk. simpl.
      destruct chunk; simpl; [done|by rewrite app_nil_r].
    + rewrite concat_app. simpl. rewrite app_nil_r, <- Hb, Hc. by rewrite app_assoc.
    + done.
Qed.

Lemma feed_invariant (fragments : list jsstring) :
  exists b log consumed,
    feed TextChunker.new fragments = (log, TextChunker.mk b 20) /\
    consumed ++ b = concat fragments /\ reassembles log consumed.
Proof.
  unfold feed.
  induction fragments as [|text fragments IH] using rev_ind.
  - exists [], [], []. repeat split. constructor. constructor.
  - destruct IH as (b & log & consumed & E & Hb & Hlog).
    rewrite foldl_app, E. cbn [foldl]. rewrite add_segment. simpl.
    destruct (segment true 20 (b ++ text)) as [chunk b'] eqn:Hseg.
    destruct (segment_reassembles _ _ _ _ _ _ _ Hlog Hseg) as (consumed' & Hc & Hlog').
    exists b', (log ++ option_list chunk), consumed'. repeat split.
    + rewrite concat_app. simpl. rewrite app_nil_r, <- Hb, Hc. by rewrite app_assoc.
    + done.
Qed.

(** C7.  Feed any fragments to a fresh chunker and flush: the chunks
    emitted, in the order of emission, make up the concatenated input with
    nothing but runs of spaces missing between, before and after them; so
    the code units that are not spaces come out as they went in, none
    lost, none doubled, in the same order. *)
Theorem chunks_reassemble_input (minChars : Z) (fragments : list jsstring) :
  let input := concat fragments in
  let log1 :=
    snd (LLMTextChunker.flush
           (addTokens fragments (LLMTextChunker.new record_chunk (Some minChars), []))) in
  let log2 := fst (feed_flush TextChunker.new fragments) in
  (reassembles log1 input /\ solid (concat log1) = solid input)
  /\ (reassembles log2 input /\ solid (concat log2) = solid input).
Proof.
  simpl. split.
  - destruct (addTokens_invariant minChars fragments) as (b & log & consumed & -> & <- & Hlog).
    unfold LLMTextChunker.flush, LLMTextChunker.emitChunk. simpl.
    pose proof (flush_reassembles log consumed b Hlog) as H.
    rewrite trim_idem. unfold record_chunk.
    destruct (truthy (trim b)); simpl.
    + split; [done|by apply reassembles_solid].
    + rewrite app_nil_r in H. split; [done|by apply reassembles_solid].
  - unfold feed_flush.
    destruct (feed_invariant fragments) as (b & log & consumed & -> & <- & Hlog).
    unfold TextChunker.flush. simpl.
    pose proof (flush_reassembles log consumed b Hlog) as H.
    destruct (truthy (trim b)); simpl.
    + split; [done|by apply reassembles_solid].
    + split; [done|by apply reassembles_solid].
Qed.

(* ===================================================================== *)
(** ** The worked example of the two sentences                            *)
(* ===================================================================== *)

Lemma addTokens_segments (tokens : list jsstring) (b : jsstring) minChars
    (log : list jsstring) :
  addTokens tokens (LLMTextChunker.mk b minChars record_chunk, log) =
  let '(b', log') := segments false minChars b log tokens in
  (LLMTextChunker.mk b' minChars record_chunk, log').
Proof.
  unfold addTokens. revert b log.
  induction tokens as [|token tokens IH]; intros b log; [done|].
  cbn [foldl segments]. rewrite addToken_segment. cbn [LLMTextChunker.buffer LLMTextChunker.minChars].
  destruct (segment false minChars (b ++ token)) as [chunk b'].
  unfold LLMTextChunker.set_buffer. cbn [LLMTextChunker.minChars LLMTextChunker.onChunk].
  replace (match chunk with Some ch => record_chunk ch log | None => log end)
    with (log ++ option_list chunk)
    by (destruct chunk; simpl; [done|by rewrite app_nil_r]).
  apply IH.
Qed.

Lemma feed_segments (tokens : list jsstring) (b : jsstring) minChars
    (log : list jsstring) :
  foldl (fun '(log, c) text =>
           let '(chunk, c) := TextChunker.add text c in
           (log ++ option_list chunk, c))
        (log, TextChunker.mk b minChars) tokens =
  let '(b', log') := segments true minChars b log tokens in
  (log', TextChunker.mk b' minChars).
Proof.
  revert b log.
  induction tokens as [|token tokens IH]; intros b log; [done|].
  cbn [foldl segments]. rewrite add_segment. cbn [TextChunker.buffer TextChunker.minChars].
  destruct (segment true minChars (b ++ token)) as [chunk b'].
  apply IH.
Qed.

Lemma prefix_take_drop (b r s : jsstring) :
  b ++ r = s -> b = take (length b) s /\ r = drop (length b) s.
Proof. intros <-. by rewrite take_app_length, drop_app_length. Qed.

(** Up to the full stop of the first sentence nothing is cut. *)
Lemma sure_first_early dotAll (n : nat) :
  n <= 28 ->
  segment dotAll 20 (take n sure_first) = (None, take n sure_first).
Proof.
  intros Hn.
  do 29 (destruct n as [|n]; [by destruct dotAll; vm_compute|]). lia.
Qed.

(** From the space after it on, the first sentence is cut. *)
Lemma sure_first_late dotAll (n : nat) :
  29 <= n <= 56 ->
  segment dotAll 20 (take n sure_first) = (Some sure, take (n - 29) first)
  /\ take (n - 29) first ++ drop n sure_first = first.
Proof.
  intros Hn.
  do 29 (destruct n as [|n]; [lia|]).
  do 28 (destruct n as [|n]; [by destruct dotAll; vm_compute|]). lia.
Qed.

(** No prefix of the second sentence is cut. *)
Lemma first_never dotAll (n : nat) :
  segment dotAll 20 (take n first) = (None, take n first).
Proof.
  do 28 (destruct n as [|n]; [by destruct dotAll; vm_compute|]).
  by destruct dotAll; vm_compute.
Qed.

Lemma segments_second dotAll (tokens : list jsstring) (b : jsstring)
    (log : list jsstring) :
  b ++ concat tokens = first ->
  segments dotAll 20 b log tokens = (first, log).
Proof.
  revert b log. induction tokens as [|token tokens IH]; intros b log; simpl.
  - rewrite app_nil_r. by intros ->.
  - rewrite app_assoc. intros Hb.
    assert (E : segment dotAll 20 (b ++ token) = (None, b ++ token)).
    { destruct (prefix_take_drop _ _ _ Hb) as [E _]. rewrite E. apply first_never. }
    rewrite E. simpl. rewrite app_nil_r. by apply IH.
Qed.

Lemma segments_sure_first dotAll (tokens : list jsstring) (b : jsstring) :
  length b <= 28 ->
  b ++ concat tokens = sure_first ->
  segments dotAll 20 b [] tokens = (first, [sure]).
Proof.
  revert b. induction tokens as [|token tokens IH]; intros b Hlen; simpl.
  - rewrite app_nil_r. intros ->. vm_compute in Hlen. lia.
  - rewrite app_assoc. intros Hb.
    destruct (prefix_take_drop _ _ _ Hb) as [E1 E2].
    assert (Hn : length (b ++ token) <= 56).
    { apply (f_equal length) in Hb. rewrite length_app in Hb.
      change (length sure_first) with 56 in Hb. lia. }
    destruct (decide (length (b ++ token) <= 28)) as [Hearly|Hlate].
    + assert (E : segment dotAll 20 (b ++ token) = (None, b ++ token)).
      { rewrite E1. by apply sure_first_early. }
      rewrite E. simpl. by apply IH.
    + destruct (sure_first_late dotAll (length (b ++ token))) as [Hseg Hrest]; [lia|].
      rewrite <- E1 in Hseg. rewrite <- E2 in Hrest.
      rewrite Hseg. simpl. by apply segments_second.
Qed.

(** C8.  With [minChars = 20], however the text
    "Sure, let's break this down. First, here's how it works." is split
    into tokens, feeding the tokens and then calling [flush] emits exactly
    the two chunks "Sure, let's break this down." and
    "First, here's how it works.", in this order. *)
Theorem sure_first_two_chunks (tokens : list jsstring) :
  concat tokens = sure_first ->
  snd (LLMTextChunker.flush
         (addTokens tokens (LLMTextChunker.new record_chunk (Some 20%Z), [])))
  = [sure; first]
  /\ fst (feed_flush TextChunker.new tokens) = [sure; first].
Proof.
  intros Htokens. split.
  - unfold LLMTextChunker.new. simpl. rewrite addTokens_segments.
    rewrite segments_sure_first; [reflexivity|simpl; lia|done].
  - unfold feed_flush, feed, TextChunker.new. rewrite feed_segments.
    rewrite segments_sure_first; [reflexivity|simpl; lia|done].
Qed.

Lemma sure_first_two_chunks_witness :
  snd (LLMTextChunker.flush
         (addTokens three_tokens (LLMTextChunker.new record_chunk (Some 20%Z), [])))
  = [sure; first]
  /\ fst (feed_flush TextChunker.new three_tokens) = [sure; first].
Proof. apply (sure_first_two_chunks three_tokens). reflexivity. Defined.

(* ===================================================================== *)
(** ** Web Audio: decoding, nodes and handles                             *)
(* ===================================================================== *)

Lemma playable_cons (pcm : list byte) :
  playable pcm -> exists lo hi rest, pcm = lo :: hi :: rest.
Proof.
  intros [Heven Hne]. destruct pcm as [|lo [|hi rest]]; [done|done|].
  by exists lo, hi, rest.
Qed.

Lemma Int16Array_playable (pcm : list byte) :
  playable pcm -> Int16Array pcm = Ok (int16s pcm).
Proof. intros [Heven _]. unfold Int16Array. by rewrite Heven. Qed.

Lemma Int16Array_odd (pcm : list byte) :
  Nat.even (length pcm) = false -> exists e, Int16Array pcm = Throw e /\ name e = RangeErrorName.
Proof. intros Hodd. unfold Int16Array. rewrite Hodd. by eexists. Qed.

Lemma int16s_length (pcm : list byte) : length (int16s pcm) = Nat.div2 (length pcm).
Proof.
  induction pcm as [pcm IH] using (well_founded_induction
    (well_founded_ltof _ (@length byte))).
  destruct pcm as [|lo [|hi rest]]; [done|done|].
  simpl. f_equal. apply IH. unfold ltof. simpl. lia.
Qed.

Lemma createBuffer_playable (pcm : list byte) (rate : positive) :
  playable pcm ->
  exists silent,
    createBuffer (length (toFloat32 (int16s pcm))) rate = Ok silent /\
    setChannelData (toFloat32 (int16s pcm)) silent = bufferOf pcm rate.
Proof.
  intros H. destruct (playable_cons pcm H) as (lo & hi & rest & ->).
  eexists. split; reflexivity.
Qed.

Lemma stopNode_stopped (now : Q) (n : AudioBufferSourceNode) :
  exists t, stopAt (stopNode now n) = Some t /\
            (stopAt n = None -> t = now) /\ (stopAt n = Some t \/ stopAt n = None).
Proof.
  unfold stopNode. destruct (stopAt n) as [t|] eqn:E.
  - exists t. rewrite E. split; [done|]. split; [done|by left].
  - exists now. simpl. split; [done|]. split; [done|by right].
Qed.

Lemma stopNode_idem (now : Q) (n : AudioBufferSourceNode) :
  stopNode now (stopNode now n) = stopNode now n.
Proof. unfold stopNode. by destruct (stopAt n) as [t|] eqn:E; simpl; [rewrite E|]. Qed.

Lemma stopAll_cons (now : Q) (h : nat) (handles : list nat) (ctx : AudioContext) :
  stopAll now (h :: handles) ctx = stopAll now handles (stopSource now h ctx).
Proof. done. Qed.

Lemma stopAll_lookup (now : Q) (handles : list nat) (ctx : AudioContext) (i : nat) :
  nodes (stopAll now handles ctx) !! i =
  if decide (i ∈ handles) then stopNode now <$> nodes ctx !! i else nodes ctx !! i.
Proof.
  revert ctx. induction handles as [|h handles IH]; intros ctx.
  - case_decide as Hin; [|done]. by apply elem_of_nil in Hin.
  - rewrite stopAll_cons, IH. unfold stopSource. simpl.
    destruct (decide (i = h)) as [->|Hne].
    + rewrite list_lookup_alter_eq.
      destruct (decide (h ∈ h :: handles)) as [_|Hn]; [|exfalso; apply Hn; left].
      destruct (decide (h ∈ handles)) as [_|_]; [|done].
      destruct (nodes ctx !! h) as [n|]; simpl; [|done]. by rewrite stopNode_idem.
    + rewrite list_lookup_alter_ne by done.
      destruct (decide (i ∈ handles)) as [Hin|Hnin].
      * destruct (decide (i ∈ h :: handles)) as [_|Hn]; [done|].
        exfalso. apply Hn. by right.
      * destruct (decide (i ∈ h :: handles)) as [Hn|_]; [|done].
        exfalso. apply elem_of_cons in Hn as [?|?]; done.
Qed.

Lemma stopAll_sampleRate (now : Q) (handles : list nat) (ctx : AudioContext) :
  WebAudio.sampleRate (stopAll now handles ctx) = WebAudio.sampleRate ctx.
Proof.
  unfold stopAll. revert ctx. induction handles as [|h handles IH]; intros ctx; simpl; [done|].
  by rewrite IH.
Qed.

Lemma coherent_mono (t t' : Q) ctx (handles : list nat) :
  coherent t ctx handles -> (t <= t')%Q -> coherent t' ctx handles.
Proof.
  destruct ctx as [ctx|]; simpl; [|done].
  intros H Hle i n Hi. destruct (H i n Hi) as [?|(? & t0 & ? & ?)]; [by left|].
  right. split; [done|]. exists t0. split; [done|]. by eapply Qle_trans.
Qed.

Lemma coherent_new (t : Q) (rate : positive) :
  coherent t (Some (newAudioContext rate)) [].
Proof. intros i n Hi. done. Qed.

Lemma coherent_start (t : Q) (ctx : AudioContext) (handles : list nat)
    (audioBuffer : AudioBuffer) (when : Q) :
  coherent t (Some ctx) handles ->
  coherent t (Some (snd (startSource audioBuffer when ctx)))
             (handles ++ [fst (startSource audioBuffer when ctx)]).
Proof.
  simpl. intros H i n Hi.
  destruct (decide (i < length (nodes ctx))) as [Hlt|Hge].
  - rewrite lookup_app_l in Hi by done.
    destruct (H i n Hi) as [[Hin Hs]|[Hnin Hs]].
    + left. split; [|done]. apply elem_of_app. by left.
    + right. split; [|done]. rewrite elem_of_app, list_elem_of_singleton.
      intros [?|?]; [done|lia].
  - left. rewrite lookup_app_r in Hi by lia.
    destruct (i - length (nodes ctx)) as [|k] eqn:Ek; [|done].
    simpl in Hi. injection Hi as <-. split; [|done].
    apply elem_of_app. right. apply list_elem_of_singleton. lia.
Qed.

(** After [stop] every node of the context is stopped, at the time of the
    call at the latest, and the nodes that were retained are stopped at the
    time of the call. *)
Lemma coherent_stopAll (t now : Q) (ctx : AudioContext) (handles : list nat) :
  coherent t (Some ctx) handles -> (t <= now)%Q ->
  forall i n, nodes (stopAll now handles ctx) !! i = Some n ->
    exists t', stopAt n = Some t' /\ (t' <= now)%Q /\ (i ∈ handles -> t' = now).
Proof.
  simpl. intros H Hle i n. rewrite stopAll_lookup.
  destruct (decide (i ∈ handles)) as [Hin|Hnin].
  - destruct (nodes ctx !! i) as [n0|] eqn:E0; simpl; [|done].
    intros [= <-]. destruct (stopNode_stopped now n0) as (t' & E & Hnone & _).
    exists t'. split; [done|].
    destruct (H i n0 E0) as [[_ Hs]|[Hnin _]]; [|done].
    rewrite (Hnone Hs). split; [apply Qle_refl|done].
  - intros Hi. destruct (H i n Hi) as [[Hin _]|(_ & t0 & Hs & Ht0)]; [done|].
    exists t0. split; [done|]. split; [by eapply Qle_trans|done].
Qed.

(* ===================================================================== *)
(** ** The two players                                                    *)
(* ===================================================================== *)

(** What [addChunk] does to an initialised player with a playable buffer. *)
Lemma addChunk_playable (now : Q) (pcm : list byte) (p : AudioStreamPlayer.t)
    (ctx : AudioContext) :
  AudioStreamPlayer.audioContext p = Some ctx ->
  AudioStreamPlayer.isPlaying p = true ->
  playable pcm ->
  let audioBuffer := bufferOf pcm (AudioStreamPlayer.sampleRate p) in
  let startTime := Qmax (AudioStreamPlayer.nextStartTime p) now in
  AudioStreamPlayer.addChunk now pcm p =
  Ok (AudioStreamPlayer.mk
        (Some (snd (startSource audioBuffer startTime ctx)))
        (startTime + duration audioBuffer)
        (AudioStreamPlayer.sampleRate p) true
        (AudioStreamPlayer.scheduledBuffers p ++ [fst (startSource audioBuffer startTime ctx)])).
Proof.
  intros Hctx Hplay Hpcm. unfold AudioStreamPlayer.addChunk.
  rewrite Hctx, Hplay, (Int16Array_playable pcm Hpcm). simpl.
  destruct (createBuffer_playable pcm (AudioStreamPlayer.sampleRate p) Hpcm)
    as (silent & -> & E).
  simpl. by rewrite E.
Qed.

Lemma addPCM_playable (now : Q) (pcm : list byte) (p : AudioQueuePlayer.t)
    (ctx : AudioContext) :
  AudioQueuePlayer.audioContext p = Some ctx ->
  playable pcm ->
  let audioBuffer := bufferOf pcm (AudioQueuePlayer.sampleRate p) in
  let startTime := Qmax (AudioQueuePlayer.nextStartTime p) now in
  AudioQueuePlayer.addPCM now pcm p =
  Ok (AudioQueuePlayer.mk
        (Some (snd (startSource audioBuffer startTime ctx)))
        (startTime + duration audioBuffer)
        (AudioQueuePlayer.sampleRate p)
        (AudioQueuePlayer.sources p ++ [fst (startSource audioBuffer startTime ctx)])).
Proof.
  intros Hctx Hpcm. unfold AudioQueuePlayer.addPCM.
  rewrite Hctx, (Int16Array_playable pcm Hpcm). simpl.
  destruct (createBuffer_playable pcm (AudioQueuePlayer.sampleRate p) Hpcm)
    as (silent & -> & E).
  simpl. by rewrite E.
Qed.

Lemma not_playable_throws (pcm : list byte) (rate : positive) :
  ~ playable pcm ->
  exists e,
    (int16Array ← Int16Array pcm;
     createBuffer (length (toFloat32 int16Array)) rate) = Throw e.
Proof.
  intros Hn. unfold Int16Array.
  destruct (Nat.even (length pcm)) eqn:Heven; simpl; [|by eexists].
  destruct pcm as [|lo [|hi rest]]; simpl.
  - by eexists.
  - done.
  - exfalso. apply Hn. by split.
Qed.

(** A call of [addChunk] that returns either changed nothing or scheduled a
    playable buffer on an initialised player. *)
Lemma addChunk_Ok (now : Q) (pcm : list byte) (p p' : AudioStreamPlayer.t) :
  AudioStreamPlayer.addChunk now pcm p = Ok p' ->
  p' = p \/
  exists ctx,
    AudioStreamPlayer.audioContext p = Some ctx /\
    AudioStreamPlayer.isPlaying p = true /\ playable pcm.
Proof.
  intros H.
  destruct (AudioStreamPlayer.audioContext p) as [ctx|] eqn:Hctx.
  - destruct (AudioStreamPlayer.isPlaying p) eqn:Hplay.
    + right. exists ctx. repeat split.
      * destruct (Nat.even (length pcm)) eqn:E; [done|].
        unfold AudioStreamPlayer.addChunk, Int16Array in H.
        rewrite Hctx, Hplay, E in H. done.
      * intros ->. unfold AudioStreamPlayer.addChunk in H.
        rewrite Hctx, Hplay in H. done.
    + left. unfold AudioStreamPlayer.addChunk in H. rewrite Hctx, Hplay in H.
      by injection H.
  - left. unfold AudioStreamPlayer.addChunk in H. rewrite Hctx in H. by injection H.
Qed.

Lemma addPCM_Ok (now : Q) (pcm : list byte) (p p' : AudioQueuePlayer.t) :
  AudioQueuePlayer.addPCM now pcm p = Ok p' ->
  p' = p \/
  exists ctx, AudioQueuePlayer.audioContext p = Some ctx /\ playable pcm.
Proof.
  intros H.
  destruct (AudioQueuePlayer.audioContext p) as [ctx|] eqn:Hctx.
  - right. exists ctx. repeat split.
    + destruct (Nat.even (length pcm)) eqn:E; [done|].
      unfold AudioQueuePlayer.addPCM, Int16Array in H.
      rewrite Hctx, E in H. done.
    + intros ->. unfold AudioQueuePlayer.addPCM in H. rewrite Hctx in H. done.
  - left. unfold AudioQueuePlayer.addPCM in H. rewrite Hctx in H. by injection H.
Qed.

(** In every reachable state the handles and the nodes agree. *)
Lemma streamReachable_coherent (t : Q) (p : AudioStreamPlayer.t) :
  streamReachable t p ->
  coherent t (AudioStreamPlayer.audioContext p) (AudioStreamPlayer.scheduledBuffers p).
Proof.
  induction 1 as [rate|t p now _ IH Hclock|t p now pcm p' _ IH Hle Hadd
                 |t p now _ IH Hle|t p now _ IH Hle].
  - done.
  - simpl. destruct (AudioStreamPlayer.audioContext p) as [ctx|] eqn:Hctx.
    + destruct Hclock as [?|Hle]; [done|]. exact (coherent_mono t now (Some ctx) _ IH Hle).
    + simpl in IH. rewrite IH. apply coherent_new.
  - destruct (addChunk_Ok _ _ _ _ Hadd) as [->|(ctx & Hctx & Hplay & Hpcm)].
    + by apply (coherent_mono t).
    + rewrite (addChunk_playable now pcm p ctx Hctx Hplay Hpcm) in Hadd.
      injection Hadd as <-. cbn [AudioStreamPlayer.audioContext AudioStreamPlayer.scheduledBuffers].
      apply coherent_start. rewrite Hctx in IH. by apply (coherent_mono t).
  - simpl. destruct (AudioStreamPlayer.audioContext p) as [ctx|] eqn:Hctx; simpl; [|done].
    intros i n Hi. right. split; [apply not_elem_of_nil|].
    destruct (coherent_stopAll t now ctx _ IH Hle i n Hi) as (t' & ? & ? & _).
    by exists t'.
  - done.
Qed.

Lemma queueReachable_coherent (t : Q) (p : AudioQueuePlayer.t) :
  queueReachable t p ->
  coherent t (AudioQueuePlayer.audioContext p) (AudioQueuePlayer.sources p).
Proof.
  induction 1 as [rate|t p now _ IH Hclock|t p now pcm p' _ IH Hle Hadd
                 |t p now _ IH Hle|t p now _ IH Hle].
  - done.
  - simpl. destruct (AudioQueuePlayer.audioContext p) as [ctx|] eqn:Hctx.
    + destruct Hclock as [?|Hle]; [done|]. exact (coherent_mono t now (Some ctx) _ IH Hle).
    + simpl in IH. rewrite IH. apply coherent_new.
  - destruct (addPCM_Ok _ _ _ _ Hadd) as [->|(ctx & Hctx & Hpcm)].
    + by apply (coherent_mono t).
    + rewrite (addPCM_playable now pcm p ctx Hctx Hpcm) in Hadd.
      injection Hadd as <-. cbn [AudioQueuePlayer.audioContext AudioQueuePlayer.sources].
      apply coherent_start. rewrite Hctx in IH. by apply (coherent_mono t).
  - simpl. destruct (AudioQueuePlayer.audioContext p) as [ctx|] eqn:Hctx; simpl; [|done].
    intros i n Hi. right. split; [apply not_elem_of_nil|].
    destruct (coherent_stopAll t now ctx _ IH Hle i n Hi) as (t' & ? & ? & _).
    by exists t'.
  - done.
Qed.

Lemma lastScheduled_start (ctx : AudioContext) (handles : list nat)
    (audioBuffer : AudioBuffer) (when : Q) :
  lastScheduled (Some (snd (startSource audioBuffer when ctx)))
                (handles ++ [fst (startSource audioBuffer when ctx)])
  = Some (mkSource audioBuffer when None).
Proof.
  unfold lastScheduled. rewrite last_snoc. simpl.
  by rewrite list_lookup_middle.
Qed.

(** C2.  On an initialised player two calls in a row, for playable buffers
    A and B, both schedule: each node starts at the maximum of the offset
    [nextStartTime] and the clock, the offset after the call is that start
    plus the duration of the buffer, and B starts no earlier than A ends.
    The same holds for [addPCM]. *)
Theorem chunks_play_back_to_back (nowA nowB : Q) (pcmA pcmB : list byte) :
  playable pcmA -> playable pcmB ->
  (forall p ctx,
      AudioStreamPlayer.audioContext p = Some ctx ->
      AudioStreamPlayer.isPlaying p = true ->
      exists pA pB a b,
        AudioStreamPlayer.addChunk nowA pcmA p = Ok pA /\
        AudioStreamPlayer.addChunk nowB pcmB pA = Ok pB /\
        lastScheduled (AudioStreamPlayer.audioContext pA)
                      (AudioStreamPlayer.scheduledBuffers pA) = Some a /\
        lastScheduled (AudioStreamPlayer.audioContext pB)
                      (AudioStreamPlayer.scheduledBuffers pB) = Some b /\
        sourceBuffer a = bufferOf pcmA (AudioStreamPlayer.sampleRate p) /\
        sourceBuffer b = bufferOf pcmB (AudioStreamPlayer.sampleRate p) /\
        backToBack (AudioStreamPlayer.nextStartTime p) nowA nowB a b
          (AudioStreamPlayer.nextStartTime pA) (AudioStreamPlayer.nextStartTime pB))
  /\ (forall p ctx,
      AudioQueuePlayer.audioContext p = Some ctx ->
      exists pA pB a b,
        AudioQueuePlayer.addPCM nowA pcmA p = Ok pA /\
        AudioQueuePlayer.addPCM nowB pcmB pA = Ok pB /\
        lastScheduled (AudioQueuePlayer.audioContext pA)
                      (AudioQueuePlayer.sources pA) = Some a /\
        lastScheduled (AudioQueuePlayer.audioContext pB)
                      (AudioQueuePlayer.sources pB) = Some b /\
        sourceBuffer a = bufferOf pcmA (AudioQueuePlayer.sampleRate p) /\
        sourceBuffer b = bufferOf pcmB (AudioQueuePlayer.sampleRate p) /\
        backToBack (AudioQueuePlayer.nextStartTime p) nowA nowB a b
          (AudioQueuePlayer.nextStartTime pA) (AudioQueuePlayer.nextStartTime pB)).
Proof.
  intros HA HB. split.
  - intros p ctx Hctx Hplay.
    pose proof (addChunk_playable nowA pcmA p ctx Hctx Hplay HA) as EA.
    cbv zeta in EA.
    set (pA := AudioStreamPlayer.mk _ _ _ _ _) in EA.
    pose proof (addChunk_playable nowB pcmB pA _ eq_refl eq_refl HB) as EB.
    cbv zeta in EB.
    set (pB := AudioStreamPlayer.mk _ _ _ _ _) in EB.
    exists pA, pB. eexists. eexists.
    split; [exact EA|]. split; [exact EB|].
    split; [apply lastScheduled_start|]. split; [apply lastScheduled_start|].
    split; [reflexivity|]. split; [reflexivity|].
    unfold backToBack. simpl. repeat split. apply Q.le_max_l.
  - intros p ctx Hctx.
    pose proof (addPCM_playable nowA pcmA p ctx Hctx HA) as EA.
    cbv zeta in EA.
    set (pA := AudioQueuePlayer.mk _ _ _ _) in EA.
    pose proof (addPCM_playable nowB pcmB pA _ eq_refl HB) as EB.
    cbv zeta in EB.
    set (pB := AudioQueuePlayer.mk _ _ _ _) in EB.
    exists pA, pB. eexists. eexists.
    split; [exact EA|]. split; [exact EB|].
    split; [apply lastScheduled_start|]. split; [apply lastScheduled_start|].
    split; [reflexivity|]. split; [reflexivity|].
    unfold backToBack. simpl. repeat split. apply Q.le_max_l.
Qed.

Lemma chunks_play_back_to_back_witness :
  let p := AudioStreamPlayer.init 1 (AudioStreamPlayer.new None) in
  exists pA pB a b,
    AudioStreamPlayer.addChunk 1 two_samples p = Ok pA /\
    AudioStreamPlayer.addChunk 1 one_sample pA = Ok pB /\
    lastScheduled (AudioStreamPlayer.audioContext pA)
                  (AudioStreamPlayer.scheduledBuffers pA) = Some a /\
    lastScheduled (AudioStreamPlayer.audioContext pB)
                  (AudioStreamPlayer.scheduledBuffers pB) = Some b /\
    sourceBuffer a = bufferOf two_samples 22050 /\
    sourceBuffer b = bufferOf one_sample 22050 /\
    backToBack 1 1 1 a b
      (AudioStreamPlayer.nextStartTime pA) (AudioStreamPlayer.nextStartTime pB).
Proof.
  assert (H2 : playable two_samples) by (split; [reflexivity|discriminate]).
  assert (H1 : playable one_sample) by (split; [reflexivity|discriminate]).
  exact (proj1 (chunks_play_back_to_back 1 1 two_samples one_sample H2 H1)
           (AudioStreamPlayer.init 1 (AudioStreamPlayer.new None))
           (newAudioContext 22050) eq_refl eq_refl).
Defined.

(** C10.  [addChunk] on a player without audio context or with the playing
    flag down, so also on a new player and on a stopped one, and [addPCM]
    on a player without audio context, return normally and leave the player
    as it is: nothing is scheduled, [nextStartTime] and the handles keep
    their values.  The buffer may be of any length. *)
Theorem unready_player_ignores_audio (now : Q) (pcm : list byte) :
  (forall p,
      AudioStreamPlayer.audioContext p = None \/ AudioStreamPlayer.isPlaying p = false ->
      AudioStreamPlayer.addChunk now pcm p = Ok p)
  /\ (forall rate,
      AudioStreamPlayer.addChunk now pcm (AudioStreamPlayer.new rate)
      = Ok (AudioStreamPlayer.new rate))
  /\ (forall t p,
      AudioStreamPlayer.addChunk now pcm (AudioStreamPlayer.stop t p)
      = Ok (AudioStreamPlayer.stop t p))
  /\ (forall q,
      AudioQueuePlayer.audioContext q = None ->
      AudioQueuePlayer.addPCM now pcm q = Ok q)
  /\ (forall rate,
      AudioQueuePlayer.addPCM now pcm (AudioQueuePlayer.new rate)
      = Ok (AudioQueuePlayer.new rate)).
Proof.
  assert (H : forall p,
             AudioStreamPlayer.audioContext p = None \/
             AudioStreamPlayer.isPlaying p = false ->
             AudioStreamPlayer.addChunk now pcm p = Ok p).
  { intros p [Hctx|Hplay]; unfold AudioStreamPlayer.addChunk.
    - by rewrite Hctx.
    - rewrite Hplay. by destruct (AudioStreamPlayer.audioContext p). }
  split; [exact H|]. split; [intros rate; apply H; by left|].
  split; [intros t p; apply H; by right|].
  split; [|done].
  intros q Hctx. unfold AudioQueuePlayer.addPCM. by rewrite Hctx.
Qed.

Lemma unready_player_ignores_audio_witness :
  let p := AudioStreamPlayer.stop 2 (AudioStreamPlayer.init 1 (AudioStreamPlayer.new None)) in
  AudioStreamPlayer.isPlaying p = false
  /\ AudioStreamPlayer.addChunk 3 [x01; x02; x03] p = Ok p
  /\ AudioQueuePlayer.addPCM 3 [x01; x02; x03] (AudioQueuePlayer.new None)
     = Ok (AudioQueuePlayer.new None).
Proof.
  split; [reflexivity|]. split.
  - apply (proj1 (unready_player_ignores_audio 3 [x01; x02; x03])). right. reflexivity.
  - apply (proj1 (proj2 (proj2 (proj2 (unready_player_ignores_audio 3 [x01; x02; x03]))))).
    reflexivity.
Defined.

Lemma cut_short (now : Q) (n : AudioBufferSourceNode) (t' : Q) :
  stopAt n = Some t' -> (t' <= now)%Q -> (now < finish n)%Q -> ~ playsToCompletion n.
Proof.
  unfold playsToCompletion. intros -> Hle Hlt Hfin.
  apply (Qlt_not_le _ _ Hlt). by eapply Qle_trans.
Qed.

Lemma stopAll_cancels (t now : Q) (ctx : AudioContext) (handles : list nat) :
  coherent t (Some ctx) handles -> (t <= now)%Q ->
  allCancelled now handles (Some (stopAll now handles ctx)).
Proof.
  intros Hco Hle ctx' i n [= <-] Hi.
  destruct (coherent_stopAll t now ctx handles Hco Hle i n Hi) as (t' & Hs & Ht' & Hret).
  split; [by exists t'|]. by apply (cut_short now n t').
Qed.

(** C5 (as amended).  In every reachable state [stop] empties the list of
    handles and stops every node of the context: the retained ones at the
    time of the call, so that no node that was still playing or waiting
    plays to completion.  [AudioQueuePlayer.stop] sets [nextStartTime] to
    the clock when there is a context; [AudioStreamPlayer.stop] lowers the
    playing flag and sets [nextStartTime] to 0.  After a following [init]
    either player schedules a playable buffer again, from the clock of that
    [init] on. *)
Theorem stop_cancels_then_init_restarts (t now now1 now2 : Q) (pcm : list byte) :
  (t <= now)%Q -> playable pcm ->
  (forall p,
      streamReachable t p ->
      let p' := AudioStreamPlayer.stop now p in
      AudioStreamPlayer.scheduledBuffers p' = [] /\
      AudioStreamPlayer.isPlaying p' = false /\
      AudioStreamPlayer.nextStartTime p' = 0%Q /\
      allCancelled now (AudioStreamPlayer.scheduledBuffers p)
                   (AudioStreamPlayer.audioContext p') /\
      exists p'' b,
        AudioStreamPlayer.addChunk now2 pcm (AudioStreamPlayer.init now1 p') = Ok p'' /\
        lastScheduled (AudioStreamPlayer.audioContext p'')
                      (AudioStreamPlayer.scheduledBuffers p'') = Some b /\
        length (AudioStreamPlayer.scheduledBuffers p'') = 1 /\
        b = mkSource (bufferOf pcm (AudioStreamPlayer.sampleRate p)) (Qmax now1 now2) None /\
        AudioStreamPlayer.nextStartTime p'' = finish b)
  /\ (forall p,
      queueReachable t p ->
      let p' := AudioQueuePlayer.stop now p in
      AudioQueuePlayer.sources p' = [] /\
      (is_Some (AudioQueuePlayer.audioContext p) ->
       AudioQueuePlayer.nextStartTime p' = now) /\
      allCancelled now (AudioQueuePlayer.sources p) (AudioQueuePlayer.audioContext p') /\
      exists p'' b,
        AudioQueuePlayer.addPCM now2 pcm (AudioQueuePlayer.init now1 p') = Ok p'' /\
        lastScheduled (AudioQueuePlayer.audioContext p'')
                      (AudioQueuePlayer.sources p'') = Some b /\
        length (AudioQueuePlayer.sources p'') = 1 /\
        b = mkSource (bufferOf pcm (AudioQueuePlayer.sampleRate p)) (Qmax now1 now2) None /\
        AudioQueuePlayer.nextStartTime p'' = finish b).
Proof.
  intros Hle Hpcm. split.
  - intros p Hp p'. apply streamReachable_coherent in Hp.
    split; [done|]. split; [done|]. split; [done|]. split.
    + subst p'. simpl.
      destruct (AudioStreamPlayer.audioContext p) as [ctx|]; simpl; [|done].
      by apply (stopAll_cancels t).
    + eexists. eexists.
      split; [by apply (addChunk_playable now2 pcm (AudioStreamPlayer.init now1 p') _ eq_refl eq_refl)|].
      split; [apply lastScheduled_start|]. done.
  - intros p Hp p'. apply queueReachable_coherent in Hp.
    split; [done|]. split.
    { intros [ctx Hctx]. subst p'. simpl. by rewrite Hctx. }
    split.
    + subst p'. simpl.
      destruct (AudioQueuePlayer.audioContext p) as [ctx|]; simpl; [|done].
      by apply (stopAll_cancels t).
    + eexists. eexists.
      split; [by apply (addPCM_playable now2 pcm (AudioQueuePlayer.init now1 p') _ eq_refl)|].
      split; [apply lastScheduled_start|]. done.
Qed.

Lemma playing_stream_reachable : streamReachable 1 playing_stream.
Proof.
  apply (streamReachable_addChunk 1
           (AudioStreamPlayer.init 1 (AudioStreamPlayer.new None)) 1 two_samples).
  - apply (streamReachable_init 0 (AudioStreamPlayer.new None) 1).
    + apply streamReachable_new.
    + by left.
  - apply Qle_refl.
  - reflexivity.
Qed.

Lemma stop_cancels_then_init_restarts_witness :
  let p := playing_stream in
  let p' := AudioStreamPlayer.stop 2 p in
  AudioStreamPlayer.scheduledBuffers p' = [] /\
  AudioStreamPlayer.isPlaying p' = false /\
  AudioStreamPlayer.nextStartTime p' = 0%Q /\
  allCancelled 2 (AudioStreamPlayer.scheduledBuffers p)
               (AudioStreamPlayer.audioContext p') /\
  exists p'' b,
    AudioStreamPlayer.addChunk 4 one_sample (AudioStreamPlayer.init 3 p') = Ok p'' /\
    lastScheduled (AudioStreamPlayer.audioContext p'')
                  (AudioStreamPlayer.scheduledBuffers p'') = Some b /\
    length (AudioStreamPlayer.scheduledBuffers p'') = 1 /\
    b = mkSource (bufferOf one_sample (AudioStreamPlayer.sampleRate p)) (Qmax 3 4) None /\
    AudioStreamPlayer.nextStartTime p'' = finish b.
Proof.
  assert (Hle : (1 <= 2)%Q) by (unfold Qle; simpl; lia).
  assert (H1 : playable one_sample) by (split; [reflexivity|discriminate]).
  exact (proj1 (stop_cancels_then_init_restarts 1 2 3 4 one_sample Hle H1)
           playing_stream playing_stream_reachable).
Defined.

(** C5 as stated fails for [AudioStreamPlayer]: its [stop] sets
    [nextStartTime] to 0, whatever the clock. *)
Lemma stream_stop_offset_counterexample :
  ~ (forall now p,
        streamReachable now p ->
        (AudioStreamPlayer.nextStartTime (AudioStreamPlayer.stop now p) == now)%Q).
Proof.
  intros H.
  assert (Hr : streamReachable 7 (AudioStreamPlayer.init 7 (AudioStreamPlayer.new None))).
  { apply (streamReachable_init 0); [apply streamReachable_new|by left]. }
  specialize (H 7%Q _ Hr). simpl in H. discriminate H.
Qed.

(* ===================================================================== *)
(** ** Chunked-stream mode                                                *)
(* ===================================================================== *)

(** C3 as stated fails: a value of three bytes is handed to the player as
    it is, three bytes long. *)
Lemma odd_read_counterexample :
  ~ (forall (now0 nowEnd : Q) (r : HTTPStream.response),
        Forall (fun buf : list byte => Nat.even (length buf) = true)
               (HTTPStream.handed
                  (fst (HTTPStream.streamTTSFromHTTP now0 nowEnd (Ok r))))).
Proof.
  intros H. specialize (H 0%Q 1%Q three_byte_read).
  apply Forall_inv in H. discriminate H.
Qed.

(* ===================================================================== *)
(** ** finalize                                                           *)
(* ===================================================================== *)

Lemma sendText_open (t l : jsstring) (isFinal : bool) (cl : TTSWebSocketClient.t) :
  TTSWebSocketClient.ws cl = Some OPEN ->
  TTSWebSocketClient.sendText t l isFinal cl =
  TTSWebSocketClient.mk (Some OPEN) (TTSWebSocketClient.wire cl ++ [mkFrame t l isFinal])
                        (TTSWebSocketClient.player cl).
Proof. intros H. unfold TTSWebSocketClient.sendText. by rewrite H. Qed.

Lemma sendText_not_open (t l : jsstring) (isFinal : bool) (cl : TTSWebSocketClient.t) :
  TTSWebSocketClient.ws cl <> Some OPEN ->
  TTSWebSocketClient.sendText t l isFinal cl = cl.
Proof.
  intros H. unfold TTSWebSocketClient.sendText.
  destruct (TTSWebSocketClient.ws cl) as [[]|]; done.
Qed.

(** C6 (as amended).  On an open socket [finalize] flushes the chunker and
    sends the flushed text, when it is not empty after trimming, with
    [is_final] false, then one frame with the empty text and [is_final]
    true; the frames that [processToken] sends have [is_final] false.  So
    the only frame marked final is the empty one that ends the response.
    When the socket is not open nothing is sent. *)
Theorem finalize_sends_rest_then_empty_final (cl : TTSWebSocketClient.t)
    (language b : jsstring) (minChars : Z) :
  let p := pipelineWith cl language b minChars in
  let sent q := TTSWebSocketClient.wire (VoicePipeline.ttsClient q) in
  (TTSWebSocketClient.ws cl = Some OPEN ->
     (trim b <> [] ->
        sent (VoicePipeline.finalize p) =
          TTSWebSocketClient.wire cl ++
            [mkFrame (trim b) language false; mkFrame [] language true] /\
        LLMTextChunker.buffer (VoicePipeline.chunker (VoicePipeline.finalize p)) = [])
     /\ (trim b = [] ->
        sent (VoicePipeline.finalize p) =
          TTSWebSocketClient.wire cl ++ [mkFrame [] language true])
     /\ (forall token, exists frames,
        sent (VoicePipeline.processToken token p) = TTSWebSocketClient.wire cl ++ frames /\
        Forall (fun f => is_final f = false /\ text f <> []) frames))
  /\ (TTSWebSocketClient.ws cl <> Some OPEN ->
      sent (VoicePipeline.finalize p) = TTSWebSocketClient.wire cl).
Proof.
  simpl. split.
  - intros Hopen. split; [|split].
    + intros Hb. unfold VoicePipeline.finalize, LLMTextChunker.flush, pipelineWith. simpl.
      apply truthy_true in Hb. rewrite Hb. simpl.
      unfold LLMTextChunker.emitChunk, VoicePipeline.onChunk. simpl.
      rewrite trim_idem, (sendText_open _ _ _ cl Hopen), sendText_open by done.
      simpl. by rewrite <- app_assoc.
    + intros Hb. unfold VoicePipeline.finalize, LLMTextChunker.flush, pipelineWith. simpl.
      rewrite Hb. simpl. by rewrite (sendText_open _ _ _ cl Hopen).
    + intros token. unfold VoicePipeline.processToken, pipelineWith.
      cbn [VoicePipeline.chunker VoicePipeline.ttsClient].
      rewrite addToken_segment. simpl.
      destruct (segment false minChars (b ++ token)) as [[chunk|] b'] eqn:Hseg; simpl.
      * exists [mkFrame chunk language false]. split.
        -- unfold VoicePipeline.onChunk. by rewrite (sendText_open _ _ _ cl Hopen).
        -- constructor; [|constructor]. split; [done|]. simpl.
           by eapply segment_chunk_solid.
      * exists []. by rewrite app_nil_r.
  - intros Hclosed. unfold VoicePipeline.finalize, LLMTextChunker.flush, pipelineWith. simpl.
    destruct (truthy (trim b)); simpl;
      unfold LLMTextChunker.emitChunk, VoicePipeline.onChunk; simpl;
      repeat rewrite (sendText_not_open _ _ _ cl Hclosed); done.
Qed.

Lemma finalize_sends_rest_then_empty_final_witness :
  TTSWebSocketClient.wire
    (VoicePipeline.ttsClient
       (VoicePipeline.finalize (pipelineWith open_client english (of_string "Bye now ") 20)))
  = [mkFrame (of_string "Bye now") english false; mkFrame [] english true].
Proof.
  destruct (finalize_sends_rest_then_empty_final open_client english
              (of_string "Bye now ") 20) as [Hopen _].
  destruct (Hopen eq_refl) as [Hrest _].
  destruct Hrest as [Hsent _]; [discriminate|]. exact Hsent.
Defined.

(** C6 as stated fails: the frame that carries the flushed text is not the
    one marked final. *)
Lemma final_flag_counterexample :
  ~ (forall b : jsstring,
        trim b <> [] ->
        exists f,
          f ∈ TTSWebSocketClient.wire
                (VoicePipeline.ttsClient
                   (VoicePipeline.finalize (pipelineWith open_client english b 20))) /\
          is_final f = true /\ text f = trim b).
Proof.
  intros H. destruct (H (of_string "Bye now ")) as (f & Hin & Hfinal & Htext).
  - discriminate.
  - vm_compute in Hin. apply elem_of_cons in Hin as [->|Hin].
    + discriminate Hfinal.
    + apply elem_of_cons in Hin as [->|Hin]; [discriminate Htext|].
      by apply elem_of_nil in Hin.
Qed.

(* ===================================================================== *)
(** ** Failures of the transport                                          *)
(* ===================================================================== *)


Lemma speak_events (tts : Route.service) (l chunk : jsstring) (s : Route.st) :
  Route.fullResponse (Route.speak tts l chunk s) = Route.fullResponse s /\
  exists evs,
    Route.out (Route.speak tts l chunk s) = Route.out s ++ evs /\
    tokensOf evs = [] /\ noError evs /\
    (Route.synthesizeChunk tts (Route.requests s) chunk l = None -> evs = []).
Proof.
  unfold Route.speak.
  destruct (Route.truthy_opt (Route.synthesizeChunk tts (Route.requests s) chunk l))
    as [a|] eqn:E; simpl.
  - split; [done|]. eexists. split; [done|]. split; [done|].
    split; [by repeat constructor|].
    intros Hnone. by rewrite Hnone in E.
  - split; [done|]. exists []. rewrite app_nil_r. by repeat split; try constructor.
Qed.

Lemma onText_events (tts : Route.service) (l t : jsstring) (s : Route.st) :
  Route.fullResponse (Route.onText tts l t s) = Route.fullResponse s ++ t /\
  exists evs,
    Route.out (Route.onText tts l t s) = Route.out s ++ evs /\
    tokensOf evs = [t] /\ noError evs.
Proof.
  unfold Route.onText. simpl.
  destruct (TextChunker.add t (Route.chunker s)) as [chunk c].
  destruct (Route.truthy_opt chunk) as [ch|]; simpl.
  - match goal with |- context [Route.speak tts l ch ?s0] =>
      destruct (speak_events tts l ch s0) as (Hfull & evs & Hout & Htok & Herr & _)
    end.
    rewrite Hfull, Hout. simpl. split; [done|].
    exists (Route.Token t :: evs). rewrite <- app_assoc. simpl.
    split; [done|]. split; [|by constructor]. unfold tokensOf in *. simpl. by rewrite Htok.
  - split; [done|]. exists [Route.Token t]. by repeat split; repeat constructor.
Qed.

Lemma tokensOf_app (u v : list Route.event) : tokensOf (u ++ v) = tokensOf u ++ tokensOf v.
Proof. apply omap_app. Qed.

Lemma texts_events (tts : Route.service) (l : jsstring) (texts : list jsstring)
    (s : Route.st) :
  let s' := foldl (fun s text => Route.onText tts l text s) s texts in
  Route.fullResponse s' = Route.fullResponse s ++ concat texts /\
  exists evs,
    Route.out s' = Route.out s ++ evs /\ tokensOf evs = texts /\ noError evs.
Proof.
  simpl. revert s. induction texts as [|t texts IH]; intros s; simpl.
  - rewrite app_nil_r. split; [done|]. exists []. rewrite app_nil_r.
    by repeat split; try constructor.
  - destruct (onText_events tts l t s) as (Hfull & evs & Hout & Htok & Herr).
    destruct (IH (Route.onText tts l t s)) as (Hfull' & evs' & Hout' & Htok' & Herr').
    rewrite Hfull', Hfull, Hout', Hout. split; [by rewrite <- app_assoc|].
    exists (evs ++ evs'). rewrite <- app_assoc. split; [done|].
    split; [by rewrite tokensOf_app, Htok, Htok'|by apply Forall_app].
Qed.






(** The error event of the route does not reach the error state of the
    hook either: the [throw] of the [error] case is inside the [try] whose
    [catch] skips malformed events. *)
Example error_event_is_skipped :
  VoiceChat.sendMessage 0
    (Ok (VoiceChat.mkResponse true 200 (Some (token_then_error, None)))) idle_hook
  = (VoiceChat.mkState true true (of_string "Hi") None,
     AudioQueuePlayer.init 0 (AudioQueuePlayer.new None)).
Proof. reflexivity. Qed.

(* ===================================================================== *)
(** ** More on the segmenter                                              *)
(* ===================================================================== *)

Lemma dropWhile_app_all {A} (f : A -> bool) (u v : list A) :
  Forall (fun x => f x = true) u -> dropWhile f (u ++ v) = dropWhile f v.
Proof. induction 1 as [|x u Hx _ IH]; simpl; [done|]. by rewrite Hx. Qed.

Lemma dropWhile_app_stop {A} (f : A -> bool) (u : list A) (c : A) (v : list A) :
  f c = false -> dropWhile f (u ++ c :: v) = dropWhile f u ++ c :: v.
Proof.
  intros Hc. induction u as [|x u IH]; simpl; [by rewrite Hc|].
  by destruct (f x).
Qed.

Lemma trimEnd_snoc_spaces (x : jsstring) (c : char) (ws : jsstring) :
  isSpace c = false -> spaces ws -> trimEnd (x ++ c :: ws) = x ++ [c].
Proof.
  intros Hc Hws. unfold trimEnd.
  rewrite rev_app_distr. simpl. rewrite <- app_assoc. simpl.
  rewrite dropWhile_app_all by by apply spaces_rev.
  rewrite dropWhile_stop by done. simpl. by rewrite rev_involutive.
Qed.

(** The trimmed text of a match ends in the terminator of the match. *)
Lemma trim_match (pre : jsstring) (c : char) (ws : jsstring) :
  isSpace c = false -> spaces ws ->
  trim (pre ++ c :: ws) = trimStart pre ++ [c].
Proof.
  intros Hc Hws. unfold trim, trimStart.
  rewrite dropWhile_app_stop by done. by apply trimEnd_snoc_spaces.
Qed.

Lemma boundary_phrase dotAll T (s g : jsstring) :
  (forall c, T c = true -> Regex.sentenceEnd c || Regex.clauseEnd c = true) ->
  Regex.boundary dotAll T s = Some g -> phrase (trim g).
Proof.
  intros HT Hg. split; [apply trim_idem|].
  apply boundary_sound in Hg as (pre & c & ws & rest & _ & -> & Hc & _ & Hws & _).
  assert (Hsolid : isSpace c = false).
  { specialize (HT c Hc). apply orb_true_iff in HT as [?|?];
      [by apply sentenceEnd_solid|by apply clauseEnd_solid]. }
  exists (trimStart pre), c. split; [by apply trim_match|by apply HT].
Qed.

Lemma segment_phrase dotAll minChars (b : jsstring) chunk b' :
  segment dotAll minChars b = (Some chunk, b') -> phrase chunk.
Proof.
  unfold segment.
  destruct (Regex.longEnough _ (Regex.boundary dotAll Regex.sentenceEnd b)) as [g|] eqn:E1.
  - intros [= <- <-]. apply longEnough_Some in E1 as [E1 _].
    eapply boundary_phrase; [|done]. intros c ->. done.
  - destruct (50 <? length b)%nat; [|done].
    destruct (Regex.longEnough _ (Regex.boundary dotAll Regex.clauseEnd b)) as [g|] eqn:E2;
      [|done].
    intros [= <- <-]. apply longEnough_Some in E2 as [E2 _].
    eapply boundary_phrase; [|done]. intros c ->. by rewrite orb_true_r.
Qed.

Lemma segments_Forall (P : jsstring -> Prop) dotAll minChars
    (tokens : list jsstring) (b : jsstring) (log : list jsstring) :
  (forall b chunk b', segment dotAll minChars b = (Some chunk, b') -> P chunk) ->
  Forall P log ->
  Forall P (snd (segments dotAll minChars b log tokens)).
Proof.
  intros HP. revert b log. induction tokens as [|token tokens IH]; intros b log Hlog; [done|].
  simpl. destruct (segment dotAll minChars (b ++ token)) as [chunk b'] eqn:Hseg.
  apply IH. apply Forall_app. split; [done|].
  destruct chunk as [chunk|]; simpl; [|constructor].
  constructor; [|constructor]. by eapply HP.
Qed.

Lemma phrase_trimmed (c : jsstring) : phrase c -> trim c = c /\ c <> [].
Proof. intros [Ht (q & t & -> & _)]. split; [done|]. by destruct q. Qed.

(** X1.  Whatever the fragments, every chunk that [addToken] or [add]
    hands over is trimmed and ends in a sentence or clause terminator, and
    with the chunk of [flush] included every chunk is trimmed and not
    empty. *)
Theorem chunks_are_trimmed_phrases (minChars : Z) (fragments : list jsstring) :
  let fed := addTokens fragments (LLMTextChunker.new record_chunk (Some minChars), []) in
  (Forall phrase (snd fed)
   /\ Forall (fun c => trim c = c /\ c <> []) (snd (LLMTextChunker.flush fed)))
  /\ (Forall phrase (fst (feed TextChunker.new fragments))
      /\ Forall (fun c => trim c = c /\ c <> [])
                (fst (feed_flush TextChunker.new fragments))).
Proof.
  simpl. split.
  - unfold LLMTextChunker.new. simpl. rewrite addTokens_segments.
    pose proof (segments_Forall phrase false minChars fragments [] []
                  (segment_phrase false minChars) (Forall_nil_2 _)) as H.
    destruct (segments false minChars [] [] fragments) as [b log]. simpl in H.
    split; [done|].
    unfold LLMTextChunker.flush, LLMTextChunker.emitChunk, record_chunk. simpl.
    assert (Hlog : Forall (fun c => trim c = c /\ c <> []) log).
    { eapply Forall_impl; [exact H|]. apply phrase_trimmed. }
    destruct (truthy (trim b)) eqn:E; simpl; [|done].
    apply Forall_app. split; [done|]. constructor; [|constructor].
    rewrite !trim_idem. split; [done|]. by apply truthy_true.
  - unfold feed_flush, feed, TextChunker.new. rewrite feed_segments.
    pose proof (segments_Forall phrase true 20 fragments [] []
                  (segment_phrase true 20) (Forall_nil_2 _)) as H.
    destruct (segments true 20 [] [] fragments) as [b log]. simpl in H.
    split; [done|].
    unfold TextChunker.flush. simpl.
    assert (Hlog : Forall (fun c => trim c = c /\ c <> []) log).
    { eapply Forall_impl; [exact H|]. apply phrase_trimmed. }
    destruct (truthy (trim b)) eqn:E; simpl.
    + apply Forall_app. split; [done|]. constructor; [|constructor].
      rewrite trim_idem. split; [done|]. by apply truthy_true.
    + by rewrite app_nil_r.
Qed.

Lemma boundaryAt_app_l T (s t : jsstring) (i : nat) :
  S i < length s -> boundaryAt T (s ++ t) i <-> boundaryAt T s i.
Proof.
  intros Hi. unfold boundaryAt.
  rewrite !lookup_app_l by lia. done.
Qed.

(** Once something other than a space follows the spaces of the first
    boundary, no text that arrives later changes the match. *)
Lemma boundary_stable dotAll T (b g t : jsstring) :
  Regex.boundary dotAll T b = Some g -> length g < length b ->
  Regex.boundary dotAll T (b ++ t) = Some g.
Proof.
  intros Hg Hlen. apply boundary_complete.
  apply boundary_sound in Hg
    as (pre & c & ws & rest & -> & -> & Hc & Hne & Hws & Hrest & Hpre & Hmin).
  exists pre, c, ws, (rest ++ t).
  assert (Hrest' : rest <> []).
  { intros ->. rewrite app_nil_r in Hlen. lia. }
  split; [by rewrite <- app_assoc; simpl; rewrite <- app_assoc|].
  split; [done|]. split; [done|]. split; [done|]. split; [done|].
  split; [|split; [done|]].
  - intros d Hd. apply Hrest. by destruct rest.
  - intros i Hi.
    change (pre ++ c :: ws ++ rest ++ t) with (pre ++ (c :: ws ++ rest ++ t)).
    replace (pre ++ (c :: ws ++ rest ++ t)) with ((pre ++ c :: ws ++ rest) ++ t)
      by (rewrite <- app_assoc; simpl; by rewrite <- app_assoc).
    rewrite boundaryAt_app_l; [by apply Hmin|].
    rewrite length_app. simpl. lia.
Qed.

Lemma segment_quiet dotAll minChars (b : jsstring) :
  Regex.longEnough minChars (Regex.boundary dotAll Regex.sentenceEnd b) = None ->
  length b <= 50 ->
  segment dotAll minChars b = (None, b).
Proof.
  intros E Hlen. unfold segment. rewrite E.
  apply Nat.ltb_ge in Hlen. by rewrite Hlen.
Qed.

Lemma addToken_quiet {W} (token : jsstring) (c : LLMTextChunker.t W) (w : W) :
  segment false (LLMTextChunker.minChars c) (LLMTextChunker.buffer c ++ token)
  = (None, LLMTextChunker.buffer c ++ token) ->
  LLMTextChunker.addToken token (c, w)
  = (LLMTextChunker.set_buffer (LLMTextChunker.buffer c ++ token) c, w).
Proof. intros E. by rewrite addToken_segment, E. Qed.

Lemma short_match_quiet dotAll minChars (b g : jsstring) :
  Regex.boundary dotAll Regex.sentenceEnd b = Some g ->
  (Z.of_nat (length g) < minChars)%Z -> length b <= 50 ->
  segment dotAll minChars b = (None, b).
Proof.
  intros Hg Hshort Hlen. apply segment_quiet; [|done].
  apply longEnough_None. intros g' E. rewrite Hg in E. by injection E as <-.
Qed.

Lemma held_back_step dotAll minChars (b g token rest : jsstring) :
  Regex.boundary dotAll Regex.sentenceEnd b = Some g ->
  (Z.of_nat (length g) < minChars)%Z ->
  length g < length b ->
  length (b ++ token ++ rest) <= 50 ->
  segment dotAll minChars (b ++ token) = (None, b ++ token)
  /\ Regex.boundary dotAll Regex.sentenceEnd (b ++ token) = Some g
  /\ length g < length (b ++ token)
  /\ length ((b ++ token) ++ rest) <= 50.
Proof.
  intros Hg Hshort Hproper Hlen.
  assert (Hg' : Regex.boundary dotAll Regex.sentenceEnd (b ++ token) = Some g)
    by by apply boundary_stable.
  rewrite !length_app in *.
  split; [|split; [done|lia]].
  apply (short_match_quiet _ _ _ g); [done|done|]. rewrite length_app. lia.
Qed.

(** X2.  A first sentence that is shorter than [minChars], once text other
    than spaces follows it, holds back everything after it: whatever
    arrives, nothing is emitted while the buffer has at most 50 code
    units. *)
Theorem short_first_sentence_holds_back (minChars : Z) (b g : jsstring)
    (tokens : list jsstring) :
  (Z.of_nat (length g) < minChars)%Z ->
  length g < length b ->
  length (b ++ concat tokens) <= 50 ->
  (forall W (onChunk : jsstring -> W -> W) (w : W),
      Regex.boundary false Regex.sentenceEnd b = Some g ->
      addTokens tokens (LLMTextChunker.mk b minChars onChunk, w)
      = (LLMTextChunker.mk (b ++ concat tokens) minChars onChunk, w))
  /\ (Regex.boundary true Regex.sentenceEnd b = Some g ->
      foldl (fun '(log, c) text =>
               let '(chunk, c) := TextChunker.add text c in
               (log ++ option_list chunk, c))
            ([], TextChunker.mk b minChars) tokens
      = ([], TextChunker.mk (b ++ concat tokens) minChars)).
Proof.
  intros Hshort Hproper Hlen. split.
  - intros W onChunk w Hg. unfold addTokens.
    revert b Hg Hproper Hlen. induction tokens as [|token tokens IH];
      intros b Hg Hproper Hlen; cbn [foldl concat].
    + by rewrite app_nil_r.
    + cbn [concat] in Hlen.
      destruct (held_back_step false minChars b g token (concat tokens)
                  Hg Hshort Hproper Hlen) as (Hseg & Hg' & Hproper' & Hlen').
      rewrite addToken_quiet by done.
      unfold LLMTextChunker.set_buffer. simpl.
      rewrite (IH (b ++ token) Hg' Hproper' Hlen'). by rewrite <- app_assoc.
  - intros Hg.
    revert b Hg Hproper Hlen. induction tokens as [|token tokens IH];
      intros b Hg Hproper Hlen; cbn [foldl concat].
    + by rewrite app_nil_r.
    + cbn [concat] in Hlen.
      destruct (held_back_step true minChars b g token (concat tokens)
                  Hg Hshort Hproper Hlen) as (Hseg & Hg' & Hproper' & Hlen').
      rewrite add_segment. simpl. rewrite Hseg. simpl.
      unfold TextChunker.set_buffer. simpl.
      rewrite (IH (b ++ token) Hg' Hproper' Hlen'). by rewrite <- app_assoc.
Qed.

Lemma short_first_sentence_holds_back_witness :
  addTokens [of_string " That was quick."; of_string " Next. "]
            (LLMTextChunker.mk (of_string "Ok. So") 20 record_chunk, [])
  = (LLMTextChunker.mk (of_string "Ok. So That was quick. Next. ") 20 record_chunk, []).
Proof.
  apply (proj1 (short_first_sentence_holds_back 20 (of_string "Ok. So") (of_string "Ok. ")
                  [of_string " That was quick."; of_string " Next. "]
                  ltac:(simpl; lia) ltac:(simpl; lia) ltac:(simpl; lia))).
  reflexivity.
Defined.

Lemma lineTerminator_no_terminator (c : char) :
  isLineTerminator c = true ->
  Regex.sentenceEnd c = false /\ Regex.clauseEnd c = false.
Proof.
  unfold isLineTerminator. rewrite !orb_true_iff, !N.eqb_eq.
  by intros [[[->| ->]| ->]| ->].
Qed.

(** Without the [s] flag a line terminator that comes before the first
    boundary makes the match fail, whatever follows. *)
Lemma boundary_newline T (pre : jsstring) (nl : char) (rest : jsstring) :
  isLineTerminator nl = true -> T nl = false ->
  (forall i, i < length pre -> ~ boundaryAt T (pre ++ [nl]) i) ->
  Regex.boundary false T (pre ++ nl :: rest) = None.
Proof.
  intros Hnl HT. induction pre as [|x pre IH]; intros Hmin; cbn [app Regex.boundary].
  - rewrite HT. cbn [andb]. unfold Regex.dot. by rewrite Hnl.
  - assert (E : T x && match pre ++ nl :: rest with
                       | d :: _ => isSpace d | [] => false end = false).
    { apply not_true_is_false. intros E. apply (Hmin 0); [simpl; lia|].
      apply boundaryAt_0. by destruct pre. }
    rewrite E. destruct (Regex.dot false x); [|done].
    rewrite IH; [done|].
    intros i Hi. rewrite <- boundaryAt_cons. apply Hmin. simpl. lia.
Qed.

(** X3.  [LLMTextChunker], whose regular expressions have no [s] flag,
    falls silent once a line terminator stands in the buffer before any
    sentence or clause boundary: no token that arrives later makes it emit
    a chunk, and all the text waits for [flush]. *)
Theorem newline_silences_addToken {W} (pre : jsstring) (nl : char) (rest : jsstring)
    (minChars : Z) (onChunk : jsstring -> W -> W) (w : W) (tokens : list jsstring) :
  isLineTerminator nl = true ->
  (forall i, i < length pre ->
     ~ boundaryAt Regex.sentenceEnd (pre ++ [nl]) i /\
     ~ boundaryAt Regex.clauseEnd (pre ++ [nl]) i) ->
  addTokens tokens (LLMTextChunker.mk (pre ++ nl :: rest) minChars onChunk, w)
  = (LLMTextChunker.mk (pre ++ nl :: rest ++ concat tokens) minChars onChunk, w).
Proof.
  intros Hnl Hmin. destruct (lineTerminator_no_terminator nl Hnl) as [Hs Hc].
  assert (Hquiet : forall rest, segment false minChars (pre ++ nl :: rest)
                                = (None, pre ++ nl :: rest)).
  { intros r. unfold segment.
    rewrite !boundary_newline; try done; [|intros i Hi; by apply Hmin..].
    simpl. by destruct (50 <? _)%nat. }
  unfold addTokens. revert rest.
  induction tokens as [|token tokens IH]; intros rest; cbn [foldl concat].
  - by rewrite app_nil_r.
  - rewrite addToken_quiet; cbn [LLMTextChunker.buffer LLMTextChunker.minChars].
    + unfold LLMTextChunker.set_buffer. cbn [LLMTextChunker.minChars LLMTextChunker.onChunk].
      rewrite <- app_assoc. cbn [app]. rewrite IH. by rewrite <- app_assoc.
    + rewrite <- app_assoc. cbn [app]. apply Hquiet.
Qed.

Lemma newline_silences_addToken_witness :
  addTokens [of_string "Second line is long enough. "; of_string "Third. "]
    (LLMTextChunker.mk [72; 105; 10]%N 20 record_chunk, [])
  = (LLMTextChunker.mk
       ([72; 105; 10]%N ++ of_string "Second line is long enough. Third. ")
       20 record_chunk, [])
  /\ fst (feed (TextChunker.mk [72; 105; 10]%N 20)
               [of_string "Second line is long enough. "; of_string "Third. "])
     = [[72; 105; 10]%N ++ of_string "Second line is long enough."].
Proof.
  split; [|reflexivity].
  apply (newline_silences_addToken [72; 105]%N 10%N [] 20 record_chunk []).
  - reflexivity.
  - intros i Hi. split; intros (c & d & Hc & Hd & HT & _);
      destruct i as [|[|i]]; simpl in *; try lia;
      injection Hc as <-; discriminate HT.
Defined.

Lemma boundary_oneLine T (s : jsstring) :
  oneLine s -> Regex.boundary false T s = Regex.boundary true T s.
Proof.
  induction 1 as [|c s Hc _ IH]; simpl; [done|].
  unfold Regex.dot. rewrite Hc, IH. done.
Qed.

Lemma segment_oneLine minChars (b : jsstring) :
  oneLine b -> segment false minChars b = segment true minChars b.
Proof.
  intros H. unfold segment. by rewrite !(boundary_oneLine _ b H).
Qed.

Lemma segments_oneLine minChars (tokens : list jsstring) (b : jsstring)
    (log : list jsstring) :
  oneLine (b ++ concat tokens) ->
  segments false minChars b log tokens = segments true minChars b log tokens.
Proof.
  revert b log. induction tokens as [|token tokens IH]; intros b log H; [done|].
  simpl in *. rewrite app_assoc in H.
  apply Forall_app in H as [Hb Hrest].
  rewrite (segment_oneLine _ _ Hb).
  destruct (segment true minChars (b ++ token)) as [chunk b'] eqn:Hseg.
  apply IH. apply Forall_app. split; [|done].
  apply segment_cut in Hseg. destruct chunk as [ch|].
  - destruct Hseg as (g & _ & E & _). unfold oneLine in Hb. rewrite E in Hb.
    by apply Forall_app in Hb as [_ ?].
  - by subst b'.
Qed.

(** X4.  On text without line terminators the two chunkers do the same:
    fed the same fragments, [LLMTextChunker] with its default threshold
    and [TextChunker] emit the same chunks in the same order, flush
    included, and are left with the same buffer. *)
Theorem chunkers_agree_on_one_line (fragments : list jsstring) :
  oneLine (concat fragments) ->
  let '(c1, log1) :=
    LLMTextChunker.flush (addTokens fragments (LLMTextChunker.new record_chunk None, [])) in
  let '(log2, c2) := feed_flush TextChunker.new fragments in
  log1 = log2 /\ LLMTextChunker.buffer c1 = TextChunker.buffer c2.
Proof.
  intros H. unfold LLMTextChunker.new, feed_flush, feed, TextChunker.new. simpl.
  rewrite addTokens_segments, feed_segments, (segments_oneLine 20 fragments [] [] H).
  destruct (segments true 20 [] [] fragments) as [b log].
  unfold LLMTextChunker.flush, TextChunker.flush, LLMTextChunker.emitChunk, record_chunk.
  simpl. destruct (truthy (trim b)); simpl; [by rewrite trim_idem|].
  by rewrite app_nil_r.
Qed.

Lemma chunkers_agree_on_one_line_witness :
  let '(c1, log1) :=
    LLMTextChunker.flush (addTokens three_tokens (LLMTextChunker.new record_chunk None, [])) in
  let '(log2, c2) := feed_flush TextChunker.new three_tokens in
  log1 = log2 /\ LLMTextChunker.buffer c1 = TextChunker.buffer c2.
Proof.
  apply (chunkers_agree_on_one_line three_tokens).
  unfold oneLine. vm_compute. repeat constructor.
Defined.

(* ===================================================================== *)
(** ** More on the players                                                *)
(* ===================================================================== *)

Lemma duration_nonneg (b : AudioBuffer) : (0 <= duration b)%Q.
Proof. unfold duration, Qle. simpl. lia. Qed.

Lemma finish_after_start (a : AudioBufferSourceNode) : (startAt a <= finish a)%Q.
Proof.
  unfold finish. rewrite <- (Qplus_0_r (startAt a)) at 1.
  apply Qplus_le_r, duration_nonneg.
Qed.

Lemma addChunks_playable (calls : list (Q * list byte)) (p : AudioStreamPlayer.t)
    (ctx : AudioContext) :
  AudioStreamPlayer.audioContext p = Some ctx ->
  AudioStreamPlayer.isPlaying p = true ->
  Forall playable (payloads calls) ->
  addChunks calls p =
  let '(ctx', next', handles') :=
    scheduleAll (AudioStreamPlayer.sampleRate p)
      (ctx, AudioStreamPlayer.nextStartTime p, AudioStreamPlayer.scheduledBuffers p) calls in
  Ok (AudioStreamPlayer.mk (Some ctx') next' (AudioStreamPlayer.sampleRate p) true handles').
Proof.
  revert p ctx. induction calls as [|[now pcm] calls IH]; intros p ctx Hctx Hplay Hall.
  - simpl. destruct p. simpl in *. by subst.
  - simpl in Hall. inversion Hall as [|? ? Hpcm Hall']; subst.
    cbn [addChunks]. rewrite (addChunk_playable now pcm p ctx Hctx Hplay Hpcm).
    cbv zeta. cbn [mbind result_bind].
    erewrite IH; [reflexivity|reflexivity|reflexivity|done].
Qed.

Lemma addPCMs_playable (calls : list (Q * list byte)) (p : AudioQueuePlayer.t)
    (ctx : AudioContext) :
  AudioQueuePlayer.audioContext p = Some ctx ->
  Forall playable (payloads calls) ->
  addPCMs calls p =
  let '(ctx', next', handles') :=
    scheduleAll (AudioQueuePlayer.sampleRate p)
      (ctx, AudioQueuePlayer.nextStartTime p, AudioQueuePlayer.sources p) calls in
  Ok (AudioQueuePlayer.mk (Some ctx') next' (AudioQueuePlayer.sampleRate p) handles').
Proof.
  revert p ctx. induction calls as [|[now pcm] calls IH]; intros p ctx Hctx Hall.
  - simpl. destruct p. simpl in *. by subst.
  - simpl in Hall. inversion Hall as [|? ? Hpcm Hall']; subst.
    cbn [addPCMs]. rewrite (addPCM_playable now pcm p ctx Hctx Hpcm).
    cbv zeta. cbn [mbind result_bind].
    erewrite IH; [reflexivity|reflexivity|done].
Qed.

(** The nodes that a run adds, the handles it retains and the offset it
    leaves. *)
Lemma scheduleAll_chain (rate : positive) (calls : list (Q * list byte))
    (ctx : AudioContext) (next : Q) (handles : list nat) :
  exists news,
    scheduleAll rate (ctx, next, handles) calls =
      (mkContext (WebAudio.sampleRate ctx) (nodes ctx ++ news),
       snd (fst (scheduleAll rate (ctx, next, handles) calls)),
       handles ++ seq (length (nodes ctx)) (length calls)) /\
    List.map sourceBuffer news = List.map (fun call => bufferOf (snd call) rate) calls /\
    chain next news (snd (fst (scheduleAll rate (ctx, next, handles) calls))) /\
    (noUnderrun rate next calls ->
     gapless next news (snd (fst (scheduleAll rate (ctx, next, handles) calls)))).
Proof.
  unfold scheduleAll. revert ctx next handles.
  induction calls as [|[now pcm] calls IH]; intros ctx next handles.
  - exists []. simpl. rewrite !app_nil_r. destruct ctx.
    repeat split; constructor.
  - cbn [foldl scheduleOne fst snd startSource].
    destruct (IH (mkContext (WebAudio.sampleRate ctx)
                    (nodes ctx ++ [mkSource (bufferOf pcm rate) (Qmax next now) None]))
                 (Qmax next now + duration (bufferOf pcm rate))%Q
                 (handles ++ [length (nodes ctx)]))
      as (news & E & Hbuf & Hchain & Hgap).
    exists (mkSource (bufferOf pcm rate) (Qmax next now) None :: news).
    rewrite E. cbn [WebAudio.sampleRate nodes fst snd].
    split; [|split; [|split]].
    + rewrite <- !app_assoc, length_app. simpl.
      do 3 f_equal. by rewrite Nat.add_1_r.
    + simpl. by rewrite Hbuf.
    + constructor; [apply Q.le_max_l|done|exact Hchain].
    + intros [Hnow Hrest].
      assert (Hmax : Qmax next now = next).
      { unfold Qmax, GenericMinMax.gmax.
        destruct (next ?= now)%Q eqn:Hcmp; [done| |done].
        apply Qlt_alt in Hcmp. exfalso. by apply (Qlt_not_le _ _ Hcmp). }
      constructor; [exact Hmax|done|].
      unfold finish. cbn [startAt sourceBuffer].
      apply Hgap. by rewrite Hmax.
Qed.

Lemma chain_lower (next : Q) (news : list AudioBufferSourceNode) (next' : Q) :
  chain next news next' ->
  (next <= next')%Q /\ Forall (fun b => (next <= startAt b)%Q) news.
Proof.
  induction 1 as [next|next a rest next' Hstart Hstop _ [IHle IH]].
  - split; [apply Qle_refl|constructor].
  - assert (Hfin : (next <= finish a)%Q).
    { eapply Qle_trans; [exact Hstart|apply finish_after_start]. }
    split; [by eapply Qle_trans|].
    constructor; [done|].
    eapply Forall_impl; [exact IH|]. intros b Hb. simpl in Hb. by eapply Qle_trans.
Qed.

(** In a chain every node ends before any later node starts. *)
Lemma chain_pairwise (next : Q) (news : list AudioBufferSourceNode) (next' : Q) :
  chain next news next' ->
  forall i j a b, i < j -> news !! i = Some a -> news !! j = Some b ->
    (finish a <= startAt b)%Q.
Proof.
  induction 1 as [next|next a0 rest next' Hstart Hstop Hrest IH]; intros i j a b Hij Hi Hj.
  - done.
  - destruct j as [|j]; [lia|]. simpl in Hj. destruct i as [|i].
    + simpl in Hi. injection Hi as <-.
      destruct (chain_lower _ _ _ Hrest) as [_ Hall].
      rewrite Forall_forall in Hall. apply Hall.
      by apply list_elem_of_lookup_2 in Hj.
    + simpl in Hi. apply (IH i j); [lia|done|done].
Qed.

Lemma gapless_offset (rate : positive) (calls : list (Q * list byte))
    (ctx : AudioContext) (next : Q) (handles : list nat) :
  noUnderrun rate next calls ->
  snd (fst (scheduleAll rate (ctx, next, handles) calls)) = offsetAfter rate next calls.
Proof.
  unfold scheduleAll, offsetAfter.
  revert next handles ctx. induction calls as [|[now pcm] calls IH]; intros next handles ctx Hrun.
  - done.
  - destruct Hrun as [Hnow Hrest]. cbn [foldl scheduleOne fst snd].
    assert (Hmax : Qmax next now = next).
    { unfold Qmax, GenericMinMax.gmax.
      destruct (next ?= now)%Q eqn:Hcmp; [done| |done].
      apply Qlt_alt in Hcmp. exfalso. by apply (Qlt_not_le _ _ Hcmp). }
    rewrite Hmax. by apply IH.
Qed.

(** X5.  However the clock runs, the chunks that a run of [addChunk] calls
    (or [addPCM] calls) schedules on an initialised player never overlap:
    every call with a playable buffer adds one node and retains its handle,
    in the order of the calls, the first node starts no earlier than the
    offset found, and each node ends before any later one starts. *)
Theorem queued_chunks_never_overlap (calls : list (Q * list byte)) :
  Forall playable (payloads calls) ->
  (forall p ctx,
      AudioStreamPlayer.audioContext p = Some ctx ->
      AudioStreamPlayer.isPlaying p = true ->
      exists p' news,
        addChunks calls p = Ok p' /\
        AudioStreamPlayer.audioContext p'
          = Some (mkContext (WebAudio.sampleRate ctx) (nodes ctx ++ news)) /\
        AudioStreamPlayer.scheduledBuffers p'
          = AudioStreamPlayer.scheduledBuffers p ++ seq (length (nodes ctx)) (length calls) /\
        List.map sourceBuffer news
          = List.map (fun call => bufferOf (snd call) (AudioStreamPlayer.sampleRate p)) calls /\
        chain (AudioStreamPlayer.nextStartTime p) news (AudioStreamPlayer.nextStartTime p') /\
        forall i j a b, i < j -> news !! i = Some a -> news !! j = Some b ->
          (finish a <= startAt b)%Q)
  /\ (forall p ctx,
      AudioQueuePlayer.audioContext p = Some ctx ->
      exists p' news,
        addPCMs calls p = Ok p' /\
        AudioQueuePlayer.audioContext p'
          = Some (mkContext (WebAudio.sampleRate ctx) (nodes ctx ++ news)) /\
        AudioQueuePlayer.sources p'
          = AudioQueuePlayer.sources p ++ seq (length (nodes ctx)) (length calls) /\
        List.map sourceBuffer news
          = List.map (fun call => bufferOf (snd call) (AudioQueuePlayer.sampleRate p)) calls /\
        chain (AudioQueuePlayer.nextStartTime p) news (AudioQueuePlayer.nextStartTime p') /\
        forall i j a b, i < j -> news !! i = Some a -> news !! j = Some b ->
          (finish a <= startAt b)%Q).
Proof.
  intros Hall. split.
  - intros p ctx Hctx Hplay.
    rewrite (addChunks_playable calls p ctx Hctx Hplay Hall).
    destruct (scheduleAll_chain (AudioStreamPlayer.sampleRate p) calls ctx
                (AudioStreamPlayer.nextStartTime p) (AudioStreamPlayer.scheduledBuffers p))
      as (news & E & Hbuf & Hchain & _).
    rewrite E in *. cbn [fst snd] in *.
    eexists. exists news. split; [reflexivity|]. cbn.
    repeat (split; [done|]). by apply chain_pairwise with (1 := Hchain).
  - intros p ctx Hctx.
    rewrite (addPCMs_playable calls p ctx Hctx Hall).
    destruct (scheduleAll_chain (AudioQueuePlayer.sampleRate p) calls ctx
                (AudioQueuePlayer.nextStartTime p) (AudioQueuePlayer.sources p))
      as (news & E & Hbuf & Hchain & _).
    rewrite E in *. cbn [fst snd] in *.
    eexists. exists news. split; [reflexivity|]. cbn.
    repeat (split; [done|]). by apply chain_pairwise with (1 := Hchain).
Qed.

Lemma queued_chunks_never_overlap_witness :
  exists p' news,
    addChunks [(5%Q, two_samples); (1%Q, one_sample); (9%Q, two_samples)]
              (AudioStreamPlayer.init 1 (AudioStreamPlayer.new None)) = Ok p' /\
    AudioStreamPlayer.audioContext p' = Some (mkContext 22050 ([] ++ news)) /\
    AudioStreamPlayer.scheduledBuffers p' = [] ++ seq 0 3 /\
    List.map sourceBuffer news
      = List.map (fun call => bufferOf (snd call) 22050)
                 [(5%Q, two_samples); (1%Q, one_sample); (9%Q, two_samples)] /\
    chain 1 news (AudioStreamPlayer.nextStartTime p') /\
    forall i j a b, i < j -> news !! i = Some a -> news !! j = Some b ->
      (finish a <= startAt b)%Q.
Proof.
  apply (proj1 (queued_chunks_never_overlap
                  [(5%Q, two_samples); (1%Q, one_sample); (9%Q, two_samples)]
                  ltac:(repeat constructor; discriminate))
           (AudioStreamPlayer.init 1 (AudioStreamPlayer.new None))
           (newAudioContext 22050) eq_refl eq_refl).
Defined.

(** X6.  When no call comes later than the offset it finds (the clock has
    not passed the end of what is queued), the run is gapless: every node
    starts exactly at the offset that the call before it left, the first
    at the offset found, and no reading of the clock enters the offsets:
    the offset after the run is the offset found with the durations of the
    buffers added to it one at a time, in the order of the calls. *)
Theorem no_underrun_plays_gapless (calls : list (Q * list byte)) :
  Forall playable (payloads calls) ->
  (forall p ctx,
      AudioStreamPlayer.audioContext p = Some ctx ->
      AudioStreamPlayer.isPlaying p = true ->
      noUnderrun (AudioStreamPlayer.sampleRate p) (AudioStreamPlayer.nextStartTime p) calls ->
      exists p' news,
        addChunks calls p = Ok p' /\
        AudioStreamPlayer.audioContext p'
          = Some (mkContext (WebAudio.sampleRate ctx) (nodes ctx ++ news)) /\
        gapless (AudioStreamPlayer.nextStartTime p) news (AudioStreamPlayer.nextStartTime p') /\
        AudioStreamPlayer.nextStartTime p'
        = offsetAfter (AudioStreamPlayer.sampleRate p) (AudioStreamPlayer.nextStartTime p) calls)
  /\ (forall p ctx,
      AudioQueuePlayer.audioContext p = Some ctx ->
      noUnderrun (AudioQueuePlayer.sampleRate p) (AudioQueuePlayer.nextStartTime p) calls ->
      exists p' news,
        addPCMs calls p = Ok p' /\
        AudioQueuePlayer.audioContext p'
          = Some (mkContext (WebAudio.sampleRate ctx) (nodes ctx ++ news)) /\
        gapless (AudioQueuePlayer.nextStartTime p) news (AudioQueuePlayer.nextStartTime p') /\
        AudioQueuePlayer.nextStartTime p'
        = offsetAfter (AudioQueuePlayer.sampleRate p) (AudioQueuePlayer.nextStartTime p) calls).
Proof.
  intros Hall. split.
  - intros p ctx Hctx Hplay Hrun.
    rewrite (addChunks_playable calls p ctx Hctx Hplay Hall).
    pose proof (gapless_offset _ calls ctx _ (AudioStreamPlayer.scheduledBuffers p) Hrun) as Htot.
    destruct (scheduleAll_chain (AudioStreamPlayer.sampleRate p) calls ctx
                (AudioStreamPlayer.nextStartTime p) (AudioStreamPlayer.scheduledBuffers p))
      as (news & E & _ & _ & Hgap).
    specialize (Hgap Hrun). rewrite E in *. cbn [fst snd] in *.
    eexists. exists news. split; [reflexivity|]. cbn. done.
  - intros p ctx Hctx Hrun.
    rewrite (addPCMs_playable calls p ctx Hctx Hall).
    pose proof (gapless_offset _ calls ctx _ (AudioQueuePlayer.sources p) Hrun) as Htot.
    destruct (scheduleAll_chain (AudioQueuePlayer.sampleRate p) calls ctx
                (AudioQueuePlayer.nextStartTime p) (AudioQueuePlayer.sources p))
      as (news & E & _ & _ & Hgap).
    specialize (Hgap Hrun). rewrite E in *. cbn [fst snd] in *.
    eexists. exists news. split; [reflexivity|]. cbn. done.
Qed.

Lemma no_underrun_plays_gapless_witness :
  exists p' news,
    addChunks [(1%Q, two_samples); (1%Q, one_sample)]
              (AudioStreamPlayer.init 1 (AudioStreamPlayer.new None)) = Ok p' /\
    AudioStreamPlayer.audioContext p' = Some (mkContext 22050 ([] ++ news)) /\
    gapless 1 news (AudioStreamPlayer.nextStartTime p') /\
    AudioStreamPlayer.nextStartTime p'
    = offsetAfter 22050 1 [(1%Q, two_samples); (1%Q, one_sample)].
Proof.
  apply (proj1 (no_underrun_plays_gapless
                  [(1%Q, two_samples); (1%Q, one_sample)]
                  ltac:(repeat constructor; discriminate))
           (AudioStreamPlayer.init 1 (AudioStreamPlayer.new None))
           (newAudioContext 22050) eq_refl eq_refl).
  simpl. unfold Qle. simpl. lia.
Defined.



Lemma to_N_inj (x y : byte) : Byte.to_N x = Byte.to_N y -> x = y.
Proof.
  intros H. apply (f_equal Byte.of_N) in H. rewrite !Byte.of_to_N in H. by injection H.
Qed.

Lemma int16_range (lo hi : byte) : (-32768 <= int16 lo hi <= 32767)%Z.
Proof.
  unfold int16. pose proof (Byte.to_N_bounded lo). pose proof (Byte.to_N_bounded hi).
  destruct (Z.ltb_spec (Z.of_N (Byte.to_N lo) + 256 * Z.of_N (Byte.to_N hi)) 32768); lia.
Qed.

Lemma int16_inj (lo hi lo' hi' : byte) :
  int16 lo hi = int16 lo' hi' -> lo = lo' /\ hi = hi'.
Proof.
  unfold int16.
  pose proof (Byte.to_N_bounded lo). pose proof (Byte.to_N_bounded hi).
  pose proof (Byte.to_N_bounded lo'). pose proof (Byte.to_N_bounded hi').
  destruct (Z.ltb_spec (Z.of_N (Byte.to_N lo) + 256 * Z.of_N (Byte.to_N hi)) 32768);
    destruct (Z.ltb_spec (Z.of_N (Byte.to_N lo') + 256 * Z.of_N (Byte.to_N hi')) 32768);
    intros E; split; apply to_N_inj; lia.
Qed.

Lemma int16s_inj (pcm pcm' : list byte) :
  Nat.even (length pcm) = true -> Nat.even (length pcm') = true ->
  int16s pcm = int16s pcm' -> pcm = pcm'.
Proof.
  revert pcm'. induction pcm as [pcm IH] using (well_founded_induction
    (well_founded_ltof _ (@length byte))).
  intros pcm' He He' E.
  destruct pcm as [|lo [|hi rest]]; [|done|];
    destruct pcm' as [|lo' [|hi' rest']]; try done.
  simpl in E. injection E as E1 E2.
  destruct (int16_inj _ _ _ _ E1) as [-> ->].
  do 2 f_equal. apply IH; [unfold ltof; simpl; lia|done..].
Qed.

(** X8.  Decoding loses nothing and stays in range: the bytes are read as
    little-endian signed 16-bit integers, each sample lies in [-1, 1), a
    buffer of an even number of bytes gives half as many samples, and two
    such buffers that decode to the same samples are the same bytes. *)
Theorem decoded_samples_in_range_and_exact (pcm : list byte) :
  Forall (fun v => (-1 <= v)%Q /\ (v < 1)%Q) (toFloat32 (int16s pcm))
  /\ (Nat.even (length pcm) = true ->
      2 * length (toFloat32 (int16s pcm)) = length pcm)
  /\ (forall pcm',
      Nat.even (length pcm) = true -> Nat.even (length pcm') = true ->
      toFloat32 (int16s pcm) = toFloat32 (int16s pcm') -> pcm = pcm').
Proof.
  split; [|split].
  - unfold toFloat32. apply Forall_forall. intros v Hv.
    apply list_elem_of_In, in_map_iff in Hv as (z & <- & Hz).
    assert (Hr : (-32768 <= z <= 32767)%Z).
    { clear -Hz. revert Hz.
      induction pcm as [pcm IH] using (well_founded_induction
        (well_founded_ltof _ (@length byte))).
      destruct pcm as [|lo [|hi rest]]; [done|done|].
      simpl. intros [<-|Hz]; [apply int16_range|].
      apply (IH rest); [unfold ltof; simpl; lia|done]. }
    unfold Qle, Qlt. simpl. lia.
  - intros He. unfold toFloat32. rewrite length_map, int16s_length.
    apply Nat.even_spec in He as [k ->].
    by rewrite Nat.div2_double.
  - intros pcm' He He' E. apply int16s_inj; [done..|].
    unfold toFloat32 in E. revert E. generalize (int16s pcm) (int16s pcm').
    induction l as [|z l IH]; intros [|z' l'] E; try done.
    simpl in E. injection E as -> E. f_equal. by apply IH.
Qed.

Lemma decoded_samples_in_range_and_exact_witness :
  toFloat32 (int16s [x00; x80; xff; x7f]) = [(-32768 # 32768)%Q; (32767 # 32768)%Q]
  /\ 2 * length (toFloat32 (int16s [x00; x80; xff; x7f])) = 4.
Proof.
  split; [reflexivity|].
  apply (proj1 (proj2 (decoded_samples_in_range_and_exact [x00; x80; xff; x7f]))).
  reflexivity.
Defined.

(** X9.  [addBase64WAV] takes the first 44 bytes of the decoded text for
    the header, whatever they are, and plays the rest: on a player with a
    context it does what [addPCM] does with the bytes after the first 44; a
    file of 44 bytes or fewer leaves no sample and throws a
    [NotSupportedError], text that is not base64 throws what [atob] throws,
    and in both cases the player is as before.  Without a context nothing
    is decoded and nothing is thrown. *)
Theorem addBase64WAV_skips_header (now : Q) (p : AudioQueuePlayer.t) :
  (forall ctx header pcm,
      AudioQueuePlayer.audioContext p = Some ctx -> length header = 44 ->
      AudioQueuePlayer.addBase64WAV now (Ok (header ++ pcm)) p
      = AudioQueuePlayer.addPCM now pcm p)
  /\ (forall ctx bytes,
      AudioQueuePlayer.audioContext p = Some ctx -> length bytes <= 44 ->
      exists e, AudioQueuePlayer.addBase64WAV now (Ok bytes) p = Throw e /\
                name e = NotSupportedErrorName)
  /\ (forall ctx e,
      AudioQueuePlayer.audioContext p = Some ctx ->
      AudioQueuePlayer.addBase64WAV now (Throw e) p = Throw e)
  /\ (forall binaryString,
      AudioQueuePlayer.audioContext p = None ->
      AudioQueuePlayer.addBase64WAV now binaryString p = Ok p).
Proof.
  split; [|split; [|split]].
  - intros ctx header pcm Hctx Hlen. unfold AudioQueuePlayer.addBase64WAV.
    rewrite Hctx. simpl. by rewrite <- Hlen, drop_app_length.
  - intros ctx bytes Hctx Hlen. unfold AudioQueuePlayer.addBase64WAV.
    rewrite Hctx. simpl. rewrite drop_ge by done.
    unfold AudioQueuePlayer.addPCM. rewrite Hctx. simpl. by eexists.
  - intros ctx e Hctx. unfold AudioQueuePlayer.addBase64WAV. by rewrite Hctx.
  - intros binaryString Hctx. unfold AudioQueuePlayer.addBase64WAV. by rewrite Hctx.
Qed.

Lemma addBase64WAV_skips_header_witness :
  let p := AudioQueuePlayer.init 0 (AudioQueuePlayer.new None) in
  AudioQueuePlayer.addBase64WAV 0 (Ok (repeat x00 44 ++ two_samples)) p
  = AudioQueuePlayer.addPCM 0 two_samples p
  /\ exists e, AudioQueuePlayer.addBase64WAV 0 (Ok (repeat x00 44)) p = Throw e /\
               name e = NotSupportedErrorName.
Proof.
  pose proof (addBase64WAV_skips_header 0
                (AudioQueuePlayer.init 0 (AudioQueuePlayer.new None))) as (H1 & H2 & _).
  split.
  - apply (H1 (newAudioContext 22050)); reflexivity.
  - apply (H2 (newAudioContext 22050)); [reflexivity|simpl; lia].
Defined.

(* ===================================================================== *)
(** ** More on the pipeline                                               *)
(* ===================================================================== *)

Lemma segments_log dotAll minChars (tokens : list jsstring) (b : jsstring)
    (log : list jsstring) :
  segments dotAll minChars b log tokens =
  (fst (segments dotAll minChars b [] tokens),
   log ++ snd (segments dotAll minChars b [] tokens)).
Proof.
  revert b log. induction tokens as [|token tokens IH]; intros b log; simpl.
  - by rewrite app_nil_r.
  - destruct (segment dotAll minChars (b ++ token)) as [chunk b'].
    rewrite (IH b' (log ++ option_list chunk)), (IH b' (option_list chunk)). simpl.
    by rewrite <- app_assoc.
Qed.

(** A chunker with any callback calls it on the chunks that the recording
    callback records, in the same order. *)
Lemma addTokens_emitAll {W} (tokens : list jsstring) (b : jsstring) (minChars : Z)
    (on : jsstring -> W -> W) (w : W) :
  addTokens tokens (LLMTextChunker.mk b minChars on, w) =
  (LLMTextChunker.mk (fst (segments false minChars b [] tokens)) minChars on,
   emitAll on (snd (segments false minChars b [] tokens)) w).
Proof.
  unfold addTokens, emitAll. revert b w.
  induction tokens as [|token tokens IH]; intros b w; [done|].
  cbn [foldl segments]. rewrite addToken_segment.
  cbn [LLMTextChunker.buffer LLMTextChunker.minChars].
  destruct (segment false minChars (b ++ token)) as [chunk b'].
  unfold LLMTextChunker.set_buffer. cbn [LLMTextChunker.minChars LLMTextChunker.onChunk].
  rewrite IH, (segments_log false minChars tokens b' ([] ++ option_list chunk)).
  cbn [fst snd app]. rewrite foldl_app. by destruct chunk.
Qed.

Lemma processTokens_addTokens (tokens : list jsstring) (p : VoicePipeline.t) :
  processTokens tokens p =
  let '(c, cl) := addTokens tokens (VoicePipeline.chunker p, VoicePipeline.ttsClient p) in
  VoicePipeline.mk cl c (VoicePipeline.language p).
Proof.
  unfold processTokens, addTokens. revert p.
  induction tokens as [|token tokens IH]; intros p; [by destruct p|].
  cbn [foldl]. rewrite IH. unfold VoicePipeline.processToken.
  by destruct (LLMTextChunker.addToken token _) as [c cl].
Qed.

Lemma emitAll_open (language : jsstring) (chunks : list jsstring)
    (cl : TTSWebSocketClient.t) :
  TTSWebSocketClient.ws cl = Some OPEN ->
  emitAll (VoicePipeline.onChunk language) chunks cl =
  TTSWebSocketClient.mk (Some OPEN)
    (TTSWebSocketClient.wire cl ++ List.map (fun c => mkFrame c language false) chunks)
    (TTSWebSocketClient.player cl).
Proof.
  unfold emitAll. revert cl. induction chunks as [|c chunks IH]; intros cl Hopen; simpl.
  - rewrite app_nil_r. destruct cl. simpl in *. by subst.
  - unfold VoicePipeline.onChunk at 2. rewrite (sendText_open _ _ _ cl Hopen).
    rewrite IH by done. simpl. by rewrite <- app_assoc.
Qed.

Lemma emitAll_not_open (language : jsstring) (chunks : list jsstring)
    (cl : TTSWebSocketClient.t) :
  TTSWebSocketClient.ws cl <> Some OPEN ->
  emitAll (VoicePipeline.onChunk language) chunks cl = cl.
Proof.
  intros Hclosed. unfold emitAll. induction chunks as [|c chunks IH]; simpl; [done|].
  unfold VoicePipeline.onChunk at 2. by rewrite (sendText_not_open _ _ _ cl Hclosed).
Qed.

Lemma emitAll_record (log acc : list jsstring) :
  emitAll record_chunk log acc = acc ++ log.
Proof.
  unfold emitAll, record_chunk. revert acc.
  induction log as [|c log IH]; intros acc; simpl; [by rewrite app_nil_r|].
  rewrite IH. by rewrite <- app_assoc.
Qed.

Lemma flushed_reassembles (minChars : Z) (fragments : list jsstring) :
  reassembles
    (snd (LLMTextChunker.flush
            (addTokens fragments (LLMTextChunker.new record_chunk (Some minChars), []))))
    (concat fragments).
Proof.
  destruct (addTokens_invariant minChars fragments) as (b & log & consumed & -> & <- & Hlog).
  unfold LLMTextChunker.flush, LLMTextChunker.emitChunk. simpl.
  pose proof (flush_reassembles log consumed b Hlog) as H.
  rewrite trim_idem. unfold record_chunk.
  destruct (truthy (trim b)); simpl; [done|]. by rewrite app_nil_r in H.
Qed.

(** X10.  A whole response through a pipeline that was built and started:
    the frames on the socket after [finalize] are the chunks that the
    chunker cuts from the tokens, flush included, in order, each with the
    language of the pipeline and [is_final] false, followed by the one
    empty frame with [is_final] true; and these chunks make up the text of
    the tokens, with only runs of spaces missing. *)
Theorem session_sends_chunks_then_final (now : Q) (language : option jsstring)
    (tokens : list jsstring) :
  let lang := default english language in
  let p := processTokens tokens (VoicePipeline.start now (VoicePipeline.new language)) in
  let chunks :=
    snd (LLMTextChunker.flush
           (addTokens tokens (LLMTextChunker.new record_chunk None, []))) in
  TTSWebSocketClient.wire (VoicePipeline.ttsClient (VoicePipeline.finalize p))
  = List.map (fun c => mkFrame c lang false) chunks ++ [mkFrame [] lang true]
  /\ reassembles chunks (concat tokens).
Proof.
  cbv zeta. split; [|apply flushed_reassembles].
  rewrite processTokens_addTokens. unfold VoicePipeline.start, VoicePipeline.new.
  cbn [VoicePipeline.chunker VoicePipeline.ttsClient VoicePipeline.language].
  unfold LLMTextChunker.new. cbn [default].
  rewrite !addTokens_emitAll.
  destruct (segments false 20 [] [] tokens) as [b log]. cbn [fst snd].
  rewrite emitAll_open by done.
  unfold VoicePipeline.finalize, LLMTextChunker.flush, LLMTextChunker.emitChunk.
  cbn [VoicePipeline.chunker VoicePipeline.ttsClient VoicePipeline.language
       LLMTextChunker.buffer LLMTextChunker.onChunk].
  assert (Hrec : emitAll record_chunk log [] = log) by apply emitAll_record.
  rewrite Hrec.
  destruct (truthy (trim b)); cbn [VoicePipeline.ttsClient].
  - unfold VoicePipeline.onChunk, record_chunk.
    rewrite !sendText_open by done. simpl.
    by rewrite List.map_app.
  - rewrite sendText_open by done. done.
Qed.

(** X11.  Through a socket that is not open (never connected, or after
    [stop]) nothing is sent: tokens and [finalize] leave the client as it
    is.  The chunker consumes the text all the same, so that after
    [finalize] its buffer holds nothing but spaces: the text is neither
    sent nor kept. *)
Theorem closed_socket_drops_text (cl : TTSWebSocketClient.t) (language b : jsstring)
    (minChars : Z) (tokens : list jsstring) :
  TTSWebSocketClient.ws cl <> Some OPEN ->
  let p := VoicePipeline.finalize
             (processTokens tokens (pipelineWith cl language b minChars)) in
  VoicePipeline.ttsClient p = cl
  /\ trim (LLMTextChunker.buffer (VoicePipeline.chunker p)) = [].
Proof.
  intros Hclosed. cbv zeta. rewrite processTokens_addTokens. unfold pipelineWith.
  cbn [VoicePipeline.chunker VoicePipeline.ttsClient VoicePipeline.language].
  rewrite addTokens_emitAll.
  destruct (segments false minChars b [] tokens) as [b' log]. cbn [fst snd].
  rewrite emitAll_not_open by done.
  unfold VoicePipeline.finalize, LLMTextChunker.flush, LLMTextChunker.emitChunk.
  cbn [VoicePipeline.chunker VoicePipeline.ttsClient VoicePipeline.language
       LLMTextChunker.buffer LLMTextChunker.onChunk].
  destruct (truthy (trim b')) eqn:E;
    cbn [VoicePipeline.chunker VoicePipeline.ttsClient LLMTextChunker.buffer
         LLMTextChunker.set_buffer].
  - unfold VoicePipeline.onChunk.
    rewrite (sendText_not_open _ _ _ cl Hclosed), (sendText_not_open _ _ _ cl Hclosed).
    done.
  - rewrite (sendText_not_open _ _ _ cl Hclosed). split; [done|].
    by apply truthy_false.
Qed.

Lemma closed_socket_drops_text_witness :
  let stopped := TTSWebSocketClient.stop 1 open_client in
  let p := VoicePipeline.finalize
             (processTokens three_tokens (pipelineWith stopped english [] 20)) in
  VoicePipeline.ttsClient p = stopped
  /\ trim (LLMTextChunker.buffer (VoicePipeline.chunker p)) = [].
Proof.
  apply (closed_socket_drops_text (TTSWebSocketClient.stop 1 open_client) english [] 20
           three_tokens).
  discriminate.
Defined.

(** X12.  Frames that arrive when the client is not playing are ignored:
    after [stop], and before [connect], the handler of the socket leaves
    the client as it is for any frame, binary frames of any length
    included; text frames are ignored at all times. *)
Theorem late_frames_are_ignored (now t : Q) (d : TTSWebSocketClient.data) :
  (forall cl,
      TTSWebSocketClient.onmessage now d (TTSWebSocketClient.stop t cl)
      = Ok (TTSWebSocketClient.stop t cl))
  /\ (forall rate,
      TTSWebSocketClient.onmessage now d (TTSWebSocketClient.new rate)
      = Ok (TTSWebSocketClient.new rate))
  /\ (forall cl s,
      TTSWebSocketClient.onmessage now (TTSWebSocketClient.TextData s) cl = Ok cl).
Proof.
  split; [|split].
  - intros cl. destruct d as [s|bytes]; [done|].
    unfold TTSWebSocketClient.onmessage, TTSWebSocketClient.stop,
      AudioStreamPlayer.addChunk. simpl.
    by destruct (AudioStreamPlayer.audioContext (TTSWebSocketClient.player cl)).
  - intros rate. by destruct d.
  - done.
Qed.

(* ===================================================================== *)
(** ** The lines of an event stream do not depend on the reads            *)
(* ===================================================================== *)

Lemma split_nonempty (s : jsstring) : EventStream.split s <> [].
Proof.
  destruct s as [|c [|d r]]; simpl; [done| done |].
  destruct ((c =? 10) && (d =? 10))%N; [done|].
  unfold EventStream.consFirst. by destruct (match r with [] => _ | _ => _ end).
Qed.

Lemma split_sep (r : jsstring) :
  EventStream.split (10 :: 10 :: r)%N = [] :: EventStream.split r.
Proof. done. Qed.

Lemma split_char (c : char) (rest : jsstring) :
  (forall r, c = 10%N -> rest <> (10 :: r)%N) ->
  EventStream.split (c :: rest)
  = EventStream.consFirst c (EventStream.split rest).
Proof.
  intros H. destruct rest as [|d r]; [done|].
  cbn [EventStream.split].
  destruct ((c =? 10) && (d =? 10))%N eqn:E; [|done].
  apply andb_true_iff in E as [Ec Ed]. apply N.eqb_eq in Ec, Ed. subst.
  by destruct (H r eq_refl).
Qed.

(** What no piece starts with, no split differs on. *)
Lemma split_cases (s : jsstring) :
  (s = [] \/ exists r, s = (10 :: 10 :: r)%N) \/
  exists c rest, s = c :: rest /\ (forall r, c = 10%N -> rest <> (10 :: r)%N).
Proof.
  destruct s as [|c rest]; [by left; left|].
  destruct (decide (c = 10%N)) as [->|Hc].
  - destruct rest as [|d r]; [right; by exists 10%N, []|].
    destruct (decide (d = 10%N)) as [->|Hd].
    + left. right. by exists r.
    + right. exists 10%N, (d :: r). split; [done|]. intros r' _ [= ? _]. done.
  - right. exists c, rest. split; [done|]. intros r' ?. done.
Qed.

Lemma join_consFirst (c : char) (pieces : list jsstring) :
  pieces <> [] -> join (EventStream.consFirst c pieces) = c :: join pieces.
Proof. intros H. destruct pieces as [|p [|q ps]]; done. Qed.

(** Joining the pieces of a text with the separator gives the text back. *)
Lemma join_split (s : jsstring) : join (EventStream.split s) = s.
Proof.
  induction s as [s IH] using (well_founded_induction
    (well_founded_ltof _ (@length N))).
  destruct (split_cases s) as [[->|[r ->]]|(c & rest & -> & Hc)].
  - done.
  - rewrite split_sep. pose proof (split_nonempty r) as Hne.
    cbn [join]. destruct (EventStream.split r) as [|p ps] eqn:E; [done|].
    rewrite <- E, IH; [done|]. unfold ltof. simpl. lia.
  - rewrite split_char by done.
    rewrite join_consFirst by apply split_nonempty.
    rewrite IH; [done|]. unfold ltof. simpl. lia.
Qed.

Lemma split_single (s piece : jsstring) :
  EventStream.split s = [piece] -> piece = s.
Proof. intros E. rewrite <- (join_split s), E. done. Qed.

Lemma removelast_consFirst (c : char) (pieces : list jsstring) :
  removelast (EventStream.consFirst c pieces)
  = match pieces with
    | _ :: _ :: _ => EventStream.consFirst c (removelast pieces)
    | _ => []
    end.
Proof. by destruct pieces as [|p [|q ps]]. Qed.

Lemma last_consFirst (c : char) (pieces : list jsstring) :
  last (EventStream.consFirst c pieces)
  = match pieces with
    | [] => Some [c]
    | [piece] => Some (c :: piece)
    | _ => last pieces
    end.
Proof. by destruct pieces as [|p [|q ps]]. Qed.

(** Text that arrives later only adds to the last piece. *)
Lemma split_app (x y : jsstring) :
  EventStream.split (x ++ y)
  = removelast (EventStream.split x)
    ++ EventStream.split (default [] (last (EventStream.split x)) ++ y).
Proof.
  induction x as [x IH] using (well_founded_induction
    (well_founded_ltof _ (@length N))).
  destruct (split_cases x) as [[->|[r ->]]|(c & rest & -> & Hc)].
  - done.
  - cbn [app]. rewrite !split_sep.
    pose proof (split_nonempty r) as Hne.
    rewrite (IH r) by (unfold ltof; simpl; lia).
    destruct (EventStream.split r) as [|p ps] eqn:E; [done|]. done.
  - rewrite (split_char c rest Hc).
    pose proof (split_nonempty rest) as Hne.
    destruct (EventStream.split rest) as [|p [|q ps]] eqn:E; [done| |].
    + (* the text so far is one piece *)
      apply split_single in E. subst p. done.
    + cbn [app]. rewrite split_char.
      * rewrite (IH rest) by (unfold ltof; simpl; lia). rewrite E. done.
      * intros r' ->. destruct rest as [|d rest']; [done|].
        intros [= -> _]. by apply (Hc rest').
Qed.

Lemma split_last_stable (x : jsstring) :
  EventStream.split (default [] (last (EventStream.split x)))
  = [default [] (last (EventStream.split x))].
Proof.
  pose proof (split_app x []) as H. rewrite !app_nil_r in H.
  pose proof (split_nonempty x) as Hne.
  rewrite (app_removelast_last [] Hne) in H at 1.
  apply app_inv_head in H. rewrite <- H. f_equal.
  destruct (EventStream.split x) as [|p ps] using rev_ind; [done|].
  by rewrite last_last, last_snoc.
Qed.

Lemma cuts_cut (buffer : jsstring) (texts : list jsstring) :
  EventStream.split buffer = [buffer] ->
  EventStream.cuts buffer texts = EventStream.cut buffer (concat texts).
Proof.
  revert buffer. induction texts as [|text texts IH]; intros buffer Hb.
  - simpl. unfold EventStream.cut. rewrite app_nil_r, Hb. done.
  - cbn [EventStream.cuts concat]. unfold EventStream.cut at 1.
    rewrite (IH _ (split_last_stable (buffer ++ text))).
    unfold EventStream.cut.
    rewrite (app_assoc buffer), (split_app (buffer ++ text) (concat texts)).
    pose proof (split_nonempty
                  (default [] (last (EventStream.split (buffer ++ text))) ++ concat texts))
      as Hne.
    rewrite removelast_app by done. f_equal.
    destruct (EventStream.split (default [] (last (EventStream.split (buffer ++ text)))
                                 ++ concat texts)) as [|p ps _] using rev_ind; [done|].
    by rewrite app_assoc, !last_snoc.
Qed.

Lemma join_snoc (pieces : list jsstring) (rest : jsstring) :
  join (pieces ++ [rest]) = concat (List.map (fun l => l ++ blankLine) pieces) ++ rest.
Proof.
  induction pieces as [|p ps IH]; [done|].
  cbn [app List.map concat]. rewrite <- !app_assoc, <- IH.
  by destruct ps.
Qed.

Lemma split_unbroken (s : jsstring) : Forall unbroken (EventStream.split s).
Proof.
  induction s as [s IH] using (well_founded_induction
    (well_founded_ltof _ (@length N))).
  destruct (split_cases s) as [[->|[r ->]]|(c & rest & -> & Hc)].
  - constructor; [|constructor]. intros u v. by destruct u.
  - rewrite split_sep. constructor.
    + intros u v. by destruct u.
    + apply IH. unfold ltof. simpl. lia.
  - rewrite split_char by done.
    pose proof (IH rest ltac:(unfold ltof; simpl; lia)) as Hall.
    pose proof (join_split rest) as Hjoin.
    destruct (EventStream.split rest) as [|p ps]; [repeat constructor; intros [|? [|? ?]] ?; done|].
    apply Forall_cons in Hall as [Hp Hps]. cbn [EventStream.consFirst].
    constructor; [|done].
    intros [|c' u] v E.
    + simpl in E. injection E as Ec Ep. subst c p.
      apply (Hc (v ++ match ps with [] => [] | _ => blankLine ++ join ps end)); [done|].
      rewrite <- Hjoin. destruct ps; simpl; [by rewrite app_nil_r|done].
    + simpl in E. injection E as _ Ep. by apply (Hp u v).
Qed.

Lemma hookLines_cuts (parse : jsstring -> option VoiceChat.data) (buffer : jsstring)
    (reads : list (Q * jsstring)) :
  List.map snd (EventStream.hookLines parse buffer reads)
  = List.map (EventStream.hookLine parse)
             (fst (EventStream.cuts buffer (List.map snd reads))).
Proof.
  revert buffer. induction reads as [|[now text] reads IH]; intros buffer; [done|].
  cbn [EventStream.hookLines EventStream.cuts List.map snd].
  destruct (EventStream.cut buffer text) as [lines buffer'].
  specialize (IH buffer').
  destruct (EventStream.cuts buffer' (List.map snd reads)) as [more buffer''].
  cbn [fst] in *. rewrite !List.map_app, IH, List.map_map. done.
Qed.

(** X13.  The lines of an event stream are those of the whole text,
    however the text is divided among the reads: cutting the lines read by
    read gives the pieces that one [split] of the concatenated text gives,
    the last piece being the buffer that is left.  No code unit is lost
    (the lines, each with its separator, and the buffer make up the text),
    neither a line nor the buffer holds a separator, and so the events that
    [sendMessage] handles are the same for every division of the text. *)
Theorem event_lines_do_not_depend_on_reads
    (parse : jsstring -> option VoiceChat.data) (reads : list (Q * jsstring)) :
  let texts := List.map snd reads in
  let '(lines, rest) := EventStream.cuts [] texts in
  (lines, rest) = EventStream.cut [] (concat texts)
  /\ concat (List.map (fun l => l ++ blankLine) lines) ++ rest = concat texts
  /\ Forall unbroken lines /\ unbroken rest
  /\ List.map snd (EventStream.hookLines parse [] reads)
     = List.map (EventStream.hookLine parse) lines.
Proof.
  cbv zeta. pose proof (hookLines_cuts parse [] reads) as Hhook.
  rewrite (cuts_cut [] (List.map snd reads) eq_refl) in *.
  unfold EventStream.cut in *. cbn [app fst] in *.
  pose proof (split_nonempty (concat (List.map snd reads))) as Hne.
  pose proof (join_split (concat (List.map snd reads))) as Hjoin.
  pose proof (split_unbroken (concat (List.map snd reads))) as Hall.
  destruct (EventStream.split (concat (List.map snd reads))) as [|rest lines _]
    using rev_ind; [done|].
  rewrite removelast_last, last_snoc in *. cbn [default] in *.
  rewrite join_snoc in Hjoin. apply Forall_app in Hall as [Hlines Hrest].
  repeat split; try done. by inversion Hrest.
Qed.

(* ===================================================================== *)
(** ** More on the hook and the route                                     *)
(* ===================================================================== *)

Lemma onLine_state (now : Q) (l : VoiceChat.line) (s : VoiceChat.state)
    (player : AudioQueuePlayer.t) :
  let s' := fst (VoiceChat.onLine now l (s, player)) in
  VoiceChat.transcript s' = VoiceChat.transcript s ++ concat (tokenTexts [(now, l)]) /\
  VoiceChat.error s' = VoiceChat.error s /\
  VoiceChat.isPlaying s' = VoiceChat.isPlaying s /\
  VoiceChat.isLoading s' = VoiceChat.isLoading s && negb (isDone (now, l)).
Proof.
  destruct l as [| |[text|[bin|]| |msg|]]; simpl;
    rewrite ?app_nil_r, ?andb_true_r, ?andb_false_r; try done.
  destruct (AudioQueuePlayer.addBase64WAV now bin player); simpl;
    by rewrite ?andb_true_r.
Qed.

Lemma onLines_state (lines : list (Q * VoiceChat.line)) (h : VoiceChat.hook) :
  let s := fst h in
  let s' := fst (foldl (fun h '(now, l) => VoiceChat.onLine now l h) h lines) in
  VoiceChat.transcript s' = VoiceChat.transcript s ++ concat (tokenTexts lines) /\
  VoiceChat.error s' = VoiceChat.error s /\
  VoiceChat.isPlaying s' = VoiceChat.isPlaying s /\
  VoiceChat.isLoading s' = VoiceChat.isLoading s && negb (existsb isDone lines).
Proof.
  cbv zeta. revert h. induction lines as [|[now l] lines IH]; intros h.
  - simpl. by rewrite app_nil_r, andb_true_r.
  - cbn [foldl]. destruct (IH (VoiceChat.onLine now l h)) as (Ht & He & Hp & Hl).
    destruct h as [s player].
    destruct (onLine_state now l s player) as (Ht' & He' & Hp' & Hl').
    cbv zeta in Ht', He', Hp', Hl'. cbn [fst] in *.
    rewrite Ht, He, Hp, Hl, Ht', He', Hp', Hl'.
    split; [|split; [done|split; [done|]]].
    + rewrite <- app_assoc. f_equal.
      change ((now, l) :: lines) with ([(now, l)] ++ lines).
      unfold tokenTexts. by rewrite omap_app, concat_app.
    + cbn [existsb]. rewrite negb_orb. by rewrite andb_assoc.
Qed.

(** X14.  For a response that is read to its end, what [sendMessage] leaves
    in the state depends on the events alone: the transcript is the texts
    of the token events in their order, whatever lines in between are not
    events, do not parse, or carry audio that fails to decode or to play;
    no error is set; and [isLoading] is false exactly when a [done] event
    came, so a stream that ends without one leaves the hook loading. *)
Theorem transcript_is_the_token_texts (now0 : Q) (status : nat)
    (lines : list (Q * VoiceChat.line)) (h : VoiceChat.hook) :
  let s := fst (VoiceChat.sendMessage now0
                  (Ok (VoiceChat.mkResponse true status (Some (lines, None)))) h) in
  VoiceChat.transcript s = concat (tokenTexts lines) /\
  VoiceChat.error s = None /\
  VoiceChat.isPlaying s = true /\
  VoiceChat.isLoading s = negb (existsb isDone lines).
Proof.
  cbv zeta. destruct h as [s0 player]. unfold VoiceChat.sendMessage. simpl.
  match goal with |- context [foldl ?f ?h0 lines] =>
    pose proof (onLines_state lines h0) as H
  end.
  cbv zeta in H. simpl in H. exact H.
Qed.

Lemma feed_feedStep (c : TextChunker.t) (log : list jsstring) (texts : list jsstring) :
  foldl (fun '(log, c) text =>
           let '(chunk, c) := TextChunker.add text c in
           (log ++ option_list chunk, c))
        (log, c) texts
  = foldl feedStep (log, c) texts.
Proof.
  revert c log. induction texts as [|t texts IH]; intros c log; [done|].
  cbn [foldl]. unfold feedStep at 2.
  destruct (TextChunker.add t c) as [chunk c']. apply IH.
Qed.

Lemma add_chunk_truthy (text : jsstring) (c : TextChunker.t) chunk c' :
  TextChunker.add text c = (chunk, c') -> Route.truthy_opt chunk = chunk.
Proof.
  rewrite add_segment.
  destruct (segment true _ _) as [ch b'] eqn:Hseg. intros [= <- <-].
  destruct ch as [ch|]; [|done]. apply segment_chunk_solid in Hseg.
  simpl. by destruct ch.
Qed.

Lemma flush_chunk_truthy (c : TextChunker.t) chunk c' :
  TextChunker.flush c = (chunk, c') -> Route.truthy_opt chunk = chunk.
Proof.
  unfold TextChunker.flush. destruct (truthy (trim (TextChunker.buffer c))) eqn:E.
  - intros [= <- <-]. simpl. by rewrite E.
  - by intros [= <- <-].
Qed.

(** What one synthesis does to the audio events. *)
Lemma speak_audio (tts : Route.service) (l chunk : jsstring) (s : Route.st) :
  audioIndices (Route.out s) = seq 0 (Route.chunkIndex s) ->
  let s' := Route.speak tts l chunk s in
  Route.chunker s' = Route.chunker s /\
  audioIndices (Route.out s') = seq 0 (Route.chunkIndex s') /\
  (audioTexts (Route.out s') = audioTexts (Route.out s) ++ [chunk] \/
   audioTexts (Route.out s') = audioTexts (Route.out s)) /\
  ((exists a, Route.synthesizeChunk tts (Route.requests s) chunk l = Some a /\ a <> []) ->
   audioTexts (Route.out s') = audioTexts (Route.out s) ++ [chunk]).
Proof.
  intros Hidx. cbv zeta. unfold Route.speak.
  destruct (Route.synthesizeChunk tts (Route.requests s) chunk l) as [a|] eqn:E; simpl.
  - destruct (truthy a) eqn:Ea; simpl.
    + unfold audioIndices, audioTexts in *. rewrite !omap_app, Hidx. simpl.
      split; [done|]. split; [symmetry; apply (seq_S (Route.chunkIndex s) 0)|].
      split; [by left|done].
    + split; [done|]. split; [done|]. split; [by right|].
      intros (a' & [= <-] & Hne). by destruct a.
  - split; [done|]. split; [done|]. split; [by right|].
    by intros (a' & ? & _).
Qed.

Lemma onText_audio (tts : Route.service) (l t : jsstring) (s : Route.st)
    (log : list jsstring) :
  audioIndices (Route.out s) = seq 0 (Route.chunkIndex s) ->
  audioTexts (Route.out s) `sublist_of` log ->
  let s' := Route.onText tts l t s in
  let '(log', c') := feedStep (log, Route.chunker s) t in
  Route.chunker s' = c' /\
  audioIndices (Route.out s') = seq 0 (Route.chunkIndex s') /\
  audioTexts (Route.out s') `sublist_of` log' /\
  ((forall n t l, exists a, Route.synthesizeChunk tts n t l = Some a /\ a <> []) ->
   audioTexts (Route.out s) = log -> audioTexts (Route.out s') = log').
Proof.
  intros Hidx Hsub. cbv zeta. unfold Route.onText, feedStep. simpl.
  destruct (TextChunker.add t (Route.chunker s)) as [chunk c] eqn:Hadd.
  rewrite (add_chunk_truthy _ _ _ _ Hadd).
  destruct chunk as [ch|]; simpl.
  - match goal with |- context [Route.speak tts l ch ?s0] =>
      destruct (speak_audio tts l ch s0) as (Hc & Hi & Ht & Hall)
    end.
    { simpl. unfold audioIndices in *. rewrite omap_app. simpl. by rewrite app_nil_r. }
    cbv zeta in Hc, Hi, Ht, Hall. simpl in Hc, Ht, Hall.
    assert (Hsame : audioTexts (Route.out s ++ [Route.Token t]) = audioTexts (Route.out s)).
    { unfold audioTexts. rewrite omap_app. simpl. by rewrite app_nil_r. }
    rewrite Hsame in Ht, Hall.
    split; [done|]. split; [done|]. split.
    + destruct Ht as [-> | ->]; [by apply sublist_app|by apply sublist_inserts_r].
    + intros Hspeaks <-. apply Hall, Hspeaks.
  - assert (Hsame : audioTexts (Route.out s ++ [Route.Token t]) = audioTexts (Route.out s)).
    { unfold audioTexts. rewrite omap_app. simpl. by rewrite app_nil_r. }
    assert (Hsame' : audioIndices (Route.out s ++ [Route.Token t])
                     = audioIndices (Route.out s)).
    { unfold audioIndices. rewrite omap_app. simpl. by rewrite app_nil_r. }
    rewrite Hsame, Hsame', app_nil_r.
    split; [done|]. split; [done|]. split; [done|]. by intros _ <-.
Qed.

Lemma texts_audio (tts : Route.service) (l : jsstring) (texts : list jsstring)
    (s : Route.st) (log : list jsstring) :
  audioIndices (Route.out s) = seq 0 (Route.chunkIndex s) ->
  audioTexts (Route.out s) `sublist_of` log ->
  let s' := foldl (fun s text => Route.onText tts l text s) s texts in
  let '(log', c') := foldl feedStep (log, Route.chunker s) texts in
  Route.chunker s' = c' /\
  audioIndices (Route.out s') = seq 0 (Route.chunkIndex s') /\
  audioTexts (Route.out s') `sublist_of` log' /\
  ((forall n t l, exists a, Route.synthesizeChunk tts n t l = Some a /\ a <> []) ->
   audioTexts (Route.out s) = log -> audioTexts (Route.out s') = log').
Proof.
  cbv zeta. revert s log. induction texts as [|t texts IH]; intros s log Hidx Hsub.
  - simpl. repeat split; try done.
  - cbn [foldl].
    pose proof (onText_audio tts l t s log Hidx Hsub) as H1. cbv zeta in H1.
    destruct (feedStep (log, Route.chunker s) t) as [log1 c1].
    destruct H1 as (Hc & Hi & Ht & Hall). rewrite <- Hc.
    specialize (IH (Route.onText tts l t s) log1 Hi Ht).
    destruct (foldl feedStep (log1, Route.chunker (Route.onText tts l t s)) texts)
      as [log' c'].
    destruct IH as (Hc' & Hi' & Ht' & Hall').
    repeat split; try done.
    intros Hspeaks Hlog. apply Hall'; [done|]. by apply Hall.
Qed.

Lemma audioIndices_app (u v : list Route.event) :
  audioIndices (u ++ v) = audioIndices u ++ audioIndices v.
Proof. apply omap_app. Qed.

Lemma audioTexts_app (u v : list Route.event) :
  audioTexts (u ++ v) = audioTexts u ++ audioTexts v.
Proof. apply omap_app. Qed.

Lemma seq_length_self (l : list nat) (n : nat) : l = seq 0 n -> l = seq 0 (length l).
Proof. intros ->. by rewrite length_seq. Qed.

(** X15.  The audio events of a response are numbered 0, 1, 2, ... in the
    order in which they are sent, with no gap even when some chunks get no
    audio; their texts are chunks of the chunker, in the order of the
    chunks; and when every synthesis request gives audio, the texts of the
    audio events are exactly the chunks, flush included. *)
Theorem audio_events_follow_the_chunks (tts : Route.service) (language : jsstring)
    (texts : list jsstring) (failure : option exn) :
  let evs := Route.streamTextWithTTS tts language texts failure in
  let chunks := fst (feed_flush TextChunker.new texts) in
  audioIndices evs = seq 0 (length (audioIndices evs))
  /\ audioTexts evs `sublist_of` chunks
  /\ (failure = None ->
      (forall n t l, exists a, Route.synthesizeChunk tts n t l = Some a /\ a <> []) ->
      audioTexts evs = chunks).
Proof.
  cbv zeta. unfold Route.streamTextWithTTS, feed_flush, feed.
  rewrite feed_feedStep.
  pose proof (texts_audio tts language texts (Route.mkSt TextChunker.new [] 0 0 []) []
                eq_refl (sublist_nil_l _)) as H.
  cbv zeta in H. cbn [Route.chunker Route.out] in H.
  destruct (foldl feedStep ([], TextChunker.new) texts) as [log c].
  destruct H as (Hc & Hi & Ht & Hall).
  set (s := foldl _ _ texts) in *.
  destruct failure as [e|].
  - rewrite audioIndices_app, audioTexts_app. cbn [audioIndices audioTexts omap].
    rewrite !app_nil_r.
    split; [by eapply seq_length_self|]. split; [|done].
    destruct (TextChunker.flush c) as [chunk c']. by apply sublist_inserts_r.
  - rewrite Hc. destruct (TextChunker.flush c) as [chunk c'] eqn:Hflush.
    rewrite (flush_chunk_truthy _ _ _ Hflush).
    destruct chunk as [ch|]; cbn [option_list fst].
    + match goal with |- context [Route.speak tts language ch ?s0] =>
        destruct (speak_audio tts language ch s0 Hi) as (_ & Hi' & Ht' & Hall')
      end.
      cbv zeta in Hi', Ht', Hall'. cbn [Route.out Route.requests] in Ht', Hall'.
      rewrite audioIndices_app, audioTexts_app. cbn [audioIndices audioTexts omap].
      rewrite !app_nil_r.
      split; [by eapply seq_length_self|]. split.
      * destruct Ht' as [-> | ->]; [by apply sublist_app|by apply sublist_inserts_r].
      * intros _ Hspeaks. rewrite Hall' by apply Hspeaks. f_equal. by apply Hall.
    + cbn [Route.out Route.fullResponse].
      rewrite audioIndices_app, audioTexts_app. cbn [audioIndices audioTexts omap].
      rewrite !app_nil_r.
      split; [by eapply seq_length_self|]. split; [done|].
      intros _ Hspeaks. by apply Hall.
Qed.

Lemma audio_events_follow_the_chunks_witness :
  audioTexts (Route.streamTextWithTTS speaking_service english three_tokens None)
  = fst (feed_flush TextChunker.new three_tokens)
  /\ audioIndices (Route.streamTextWithTTS speaking_service english three_tokens None)
     = [0; 1].
Proof.
  split; [|reflexivity].
  apply (proj2 (proj2 (audio_events_follow_the_chunks speaking_service english
                         three_tokens None))); [reflexivity|].
  intros n t l. eexists. split; [reflexivity|discriminate].
Defined.

(** [String(error)] has no colon when the message is empty. *)
Lemma String_examples :
  Route.String_ (Exn ErrorName []) = of_string "Error" /\
  Route.String_ (Exn TypeErrorName (of_string "fetch failed"))
  = of_string "TypeError: fetch failed".
Proof. split; reflexivity. Qed.

(** X16.  When the stream of the model fails, the response is what a
    stream that ends after the same texts sends before its flush, followed
    by the one error event with [String(error)] for the error object
    thrown (its name alone when its message is empty): every token
    event is there, no event before the last is an error event, and what
    the chunker still holds is not synthesized. *)
Theorem failed_stream_ends_with_error (tts : Route.service) (language : jsstring)
    (texts : list jsstring) (e : exn) :
  exists body tail,
    Route.streamTextWithTTS tts language texts (Some e)
    = body ++ [Route.Error (Route.String_ e)] /\
    Route.streamTextWithTTS tts language texts None
    = body ++ tail ++ [Route.Done (concat texts)] /\
    tokensOf body = texts /\ noError body /\
    tokensOf tail = [] /\ length tail <= 1.
Proof.
  unfold Route.streamTextWithTTS.
  destruct (texts_events tts language texts (Route.mkSt TextChunker.new [] 0 0 []))
    as (Hfull & evs & Hout & Htok & Herr).
  cbv zeta in Hfull, Hout. simpl in Hfull, Hout.
  set (s := foldl _ _ texts) in *.
  exists (Route.out s).
  destruct (TextChunker.flush (Route.chunker s)) as [remaining c].
  destruct (Route.truthy_opt remaining) as [r|].
  - unfold Route.speak. cbn [Route.out Route.fullResponse Route.requests Route.chunkIndex
                              Route.chunker].
    destruct (Route.truthy_opt (Route.synthesizeChunk tts (Route.requests s) r language))
      as [a|]; cbn [Route.out Route.fullResponse].
    + exists [Route.Audio a (Route.chunkIndex s) r].
      rewrite Hfull, <- app_assoc, Hout. simpl. repeat split; done.
    + exists []. rewrite Hfull, Hout. simpl. repeat split; try done. lia.
  - exists []. cbn [Route.out Route.fullResponse]. rewrite Hfull, Hout. simpl.
    repeat split; try done. lia.
Qed.

Lemma playedFrom_app (tts : Route.streamService) (l : jsstring) (n : nat)
    (u v : list jsstring) :
  playedFrom tts l n (u ++ v) = playedFrom tts l n u ++ playedFrom tts l (n + length u) v.
Proof.
  revert n. induction u as [|c u IH]; intros n; simpl.
  - by rewrite Nat.add_0_r.
  - rewrite IH, <- app_assoc. do 3 f_equal. lia.
Qed.

Lemma playedFrom_prefix (tts : Route.streamService) (l : jsstring)
    (u v : list jsstring) :
  u `prefix_of` v -> playedFrom tts l 0 u `prefix_of` playedFrom tts l 0 v.
Proof. intros [k ->]. rewrite playedFrom_app. by eexists. Qed.

Lemma forward_played (tts : Route.streamService) (l ch : jsstring) (s : Route.audioSt) :
  let '(s', r) := Route.forward tts l ch s in
  Route.audioChunker s' = Route.audioChunker s /\
  Route.audioRequests s' = S (Route.audioRequests s) /\
  Route.enqueued s' = Route.enqueued s ++ played tts l (Route.audioRequests s) ch /\
  (settles (tts (Route.audioRequests s) ch l) -> r = None).
Proof.
  unfold Route.forward, played.
  destruct (tts (Route.audioRequests s) ch l) as [e|[|] [[values [e|]]|]]; simpl;
    rewrite ?app_nil_r; done.
Qed.

Lemma feedStep_grows (texts : list jsstring) (log : list jsstring) (c : TextChunker.t) :
  log `prefix_of` fst (foldl feedStep (log, c) texts).
Proof.
  revert log c. induction texts as [|t texts IH]; intros log c; [done|].
  cbn [foldl]. unfold feedStep at 2.
  destruct (TextChunker.add t c) as [chunk c'].
  destruct (IH (log ++ option_list chunk) c') as [k Hk].
  exists (option_list chunk ++ k). rewrite Hk. by rewrite app_assoc.
Qed.

Lemma audioLoop_played (tts : Route.streamService) (l : jsstring)
    (texts : list jsstring) (s : Route.audioSt) (log : list jsstring) :
  Route.audioRequests s = length log ->
  Route.enqueued s = playedFrom tts l 0 log ->
  let '(s', r) := Route.audioLoop tts l texts s in
  let '(log', c') := foldl feedStep (log, Route.audioChunker s) texts in
  (exists log1,
      log1 `prefix_of` log' /\ Route.enqueued s' = playedFrom tts l 0 log1 /\
      (r = None ->
       log1 = log' /\ Route.audioChunker s' = c' /\ Route.audioRequests s' = length log'))
  /\ ((forall n t l', settles (tts n t l')) -> r = None).
Proof.
  revert s log. induction texts as [|t texts IH]; intros s log Hreq Henq.
  - simpl. split; [|done]. by exists log.
  - cbn [Route.audioLoop foldl]. unfold feedStep at 2.
    destruct (TextChunker.add t (Route.audioChunker s)) as [chunk c] eqn:Hadd.
    rewrite (add_chunk_truthy _ _ _ _ Hadd).
    destruct chunk as [ch|].
    + change (option_list (Some ch)) with [ch].
      pose proof (forward_played tts l ch
                    (Route.mkAudioSt c (Route.audioRequests s) (Route.enqueued s))) as Hf.
      destruct (Route.forward tts l ch _) as [s1 [e|]];
        cbn [Route.audioChunker Route.audioRequests Route.enqueued] in Hf;
        destruct Hf as (Hc1 & Hr1 & He1 & Hs1).
      * pose proof (feedStep_grows texts (log ++ [ch]) c) as Hgrow.
        destruct (foldl feedStep (log ++ [ch], c) texts) as [log' c'].
        cbv beta iota. cbn [fst] in Hgrow. split.
        -- exists (log ++ [ch]). split; [done|]. split; [|done].
           rewrite He1, Henq, playedFrom_app, Hreq. simpl. by rewrite app_nil_r.
        -- intros Hall. by apply Hs1.
      * specialize (IH s1 (log ++ [ch])). rewrite Hc1 in IH. apply IH.
        -- rewrite Hr1, Hreq, length_app. simpl. lia.
        -- rewrite He1, Henq, playedFrom_app, Hreq. simpl. by rewrite app_nil_r.
    + change (option_list None) with (@nil (list N)). rewrite app_nil_r.
      apply (IH (Route.mkAudioSt c (Route.audioRequests s) (Route.enqueued s)) log);
        done.
Qed.

(** X17.  [streamWithAudio] sends the audio of the chunks in the order of
    the chunks: when no request rejects or breaks off and the stream of the
    model ends normally, the values enqueued are those of the responses to
    the chunks of the chunker, flush included, one response after the
    other, a response that is not [ok] or has no body giving nothing.
    Whatever fails, what is enqueued is a prefix of that, and nothing in
    the output tells that it was cut short. *)
Theorem audio_stream_follows_the_chunks (tts : Route.streamService) (language : jsstring)
    (texts : list jsstring) (failure : option exn) :
  let chunks := fst (feed_flush TextChunker.new texts) in
  Route.streamWithAudio tts language texts failure
    `prefix_of` playedFrom tts language 0 chunks
  /\ (failure = None -> (forall n t l, settles (tts n t l)) ->
      Route.streamWithAudio tts language texts failure
      = playedFrom tts language 0 chunks).
Proof.
  cbv zeta. unfold Route.streamWithAudio, feed_flush, feed. rewrite feed_feedStep.
  pose proof (audioLoop_played tts language texts (Route.mkAudioSt TextChunker.new 0 []) []
                eq_refl eq_refl) as H.
  destruct (Route.audioLoop tts language texts _) as [s r].
  cbn [Route.audioChunker] in H.
  destruct (foldl feedStep ([], TextChunker.new) texts) as [log c].
  destruct H as [(log1 & Hpre & Henq & Hnone) Hsettles].
  destruct (TextChunker.flush c) as [chunk c'] eqn:Hflush. cbn [fst].
  assert (Hcut : playedFrom tts language 0 log1
                 `prefix_of` playedFrom tts language 0 (log ++ option_list chunk)).
  { apply playedFrom_prefix. destruct Hpre as [k ->].
    exists (k ++ option_list chunk). by rewrite app_assoc. }
  destruct r as [e|].
  - rewrite Henq. split; [done|]. intros _ Hall. by specialize (Hsettles Hall).
  - destruct (Hnone eq_refl) as (-> & Hc & Hreq).
    destruct failure as [e|]; [rewrite Henq; by split|].
    rewrite Hc, Hflush. rewrite (flush_chunk_truthy _ _ _ Hflush).
    destruct chunk as [ch|].
    + change (option_list (Some ch)) with [ch].
      pose proof (forward_played tts language ch
                    (Route.mkAudioSt c' (Route.audioRequests s) (Route.enqueued s))) as Hf.
      destruct (Route.forward tts language ch _) as [s1 r1].
      cbn [Route.audioChunker Route.audioRequests Route.enqueued fst] in *.
      destruct Hf as (_ & _ & He1 & _).
      assert (E : Route.enqueued s1 = playedFrom tts language 0 (log ++ [ch])).
      { rewrite He1, Henq, playedFrom_app, Hreq. simpl. by rewrite app_nil_r. }
      rewrite E. by split.
    + change (option_list None) with (@nil (list N)).
      cbn [Route.enqueued]. rewrite app_nil_r, Henq. by split.
Qed.

Lemma audio_stream_follows_the_chunks_witness :
  Route.streamWithAudio pcm_service english three_tokens None
  = [two_samples; [x01]; two_samples; [x01]].
Proof.
  rewrite (proj2 (audio_stream_follows_the_chunks pcm_service english three_tokens None)
             eq_refl); [reflexivity|].
  intros n t l. exact I.
Defined.

(* ===================================================================== *)
(** ** streamTTSFromHTTP: the wait before the player is closed            *)
(* ===================================================================== *)

(** On playable values the read loop is a run of [addChunk] calls. *)
Lemma readLoop_addChunks (reads : list (Q * list byte)) (st : HTTPStream.loop)
    (ctx : AudioContext) :
  AudioStreamPlayer.audioContext (HTTPStream.player st) = Some ctx ->
  AudioStreamPlayer.isPlaying (HTTPStream.player st) = true ->
  Forall playable (payloads reads) ->
  exists p,
    addChunks reads (HTTPStream.player st) = Ok p /\
    HTTPStream.readLoop reads st =
    (HTTPStream.mkLoop p
       (HTTPStream.totalBytes st + length (concat (payloads reads)))
       (HTTPStream.handed st ++ payloads reads), None).
Proof.
  revert st ctx. induction reads as [|[now value] reads IH]; intros st ctx Hctx Hplay Hall.
  - exists (HTTPStream.player st). simpl. split; [done|].
    rewrite app_nil_r, Nat.add_0_r. by destruct st.
  - simpl in Hall. inversion Hall as [|? ? Hv Hall']; subst.
    pose proof (addChunk_playable now value _ ctx Hctx Hplay Hv) as E. cbv zeta in E.
    cbn [addChunks HTTPStream.readLoop]. unfold HTTPStream.readOne. rewrite E.
    cbn [mbind result_bind].
    match goal with
    | |- context [HTTPStream.readLoop reads ?st1] =>
        destruct (IH st1 _ eq_refl eq_refl Hall') as (p & Hp & Hloop); rewrite Hloop
    end.
    exists p. split; [exact Hp|].
    cbn [HTTPStream.totalBytes HTTPStream.handed payloads List.map concat].
    rewrite length_app, <- app_assoc. simpl. unfold payloads.
    by rewrite Nat.add_assoc.
Qed.

(** Every node of a chain ends no later than the offset after the chain. *)
Lemma chain_upper (next : Q) (news : list AudioBufferSourceNode) (next' : Q) :
  chain next news next' ->
  Forall (fun a => stopAt a = None /\ (finish a <= next')%Q) news.
Proof.
  induction 1 as [next|next a rest next' Hstart Hstop Hrest IH]; constructor; [|done].
  split; [done|]. by destruct (chain_lower _ _ _ Hrest).
Qed.

(** With a clock that does not run backwards, the offset is never further
    ahead of the clock of the last call than the audio scheduled so far is
    long. *)
Lemma scheduleAll_bound (rate : positive) (calls : list (Q * list byte))
    (ctx : AudioContext) (next : Q) (handles : list nat) (t d : Q) :
  (0 <= d)%Q -> (next <= t + d)%Q -> clockRuns t calls ->
  (snd (fst (scheduleAll rate (ctx, next, handles) calls))
   <= lastCall t calls + (d + totalDuration rate calls))%Q.
Proof.
  unfold scheduleAll, lastCall.
  revert ctx next handles t d.
  induction calls as [|[now pcm] calls IH]; intros ctx next handles t d Hd Hnext Hrun.
  - simpl. lra.
  - destruct Hrun as [Hnow Hrun].
    cbn [foldl scheduleOne fst snd totalDuration foldr].
    fold (totalDuration rate calls).
    pose proof (duration_nonneg (bufferOf pcm rate)) as Hdur.
    eapply Qle_trans.
    + apply (IH _ _ _ now (d + duration (bufferOf pcm rate))%Q); [lra| |done].
      assert (Hmax : (Qmax next now <= now + d)%Q) by (apply Q.max_lub; lra).
      lra.
    + lra.
Qed.

(** The duration of the audio of a buffer with an even number of bytes,
    from the number of its bytes. *)
Lemma duration_of_bytes (pcm : list byte) (rate : positive) :
  Nat.even (length pcm) = true ->
  (duration (bufferOf pcm rate)
   == inject_Z (Z.of_nat (length pcm)) / 2 / inject_Z (Z.pos rate))%Q.
Proof.
  intros Heven. unfold duration, bufferOf, toFloat32. cbn [channelData bufferRate].
  rewrite length_map, int16s_length.
  pose proof (Nat.div2_odd (length pcm)) as Hdiv.
  rewrite <- Nat.negb_even, Heven in Hdiv. cbn [negb Nat.b2n] in Hdiv.
  rewrite Nat.add_0_r in Hdiv. clear Heven.
  generalize dependent (Nat.div2 (length pcm)). intros k ->.
  rewrite Nat2Z.inj_mul, inject_Z_mult, Qmake_Qdiv.
  change (inject_Z (Z.of_nat 2)) with 2%Q. field.
  intros H. discriminate H.
Qed.

(** [durationMs] is the duration of the audio in milliseconds: the total
    duration at 22050 Hz of values with an even number of bytes each. *)
Lemma durationMs_total (calls : list (Q * list byte)) :
  Forall playable (payloads calls) ->
  (durationMs (length (concat (payloads calls)))
   == totalDuration 22050 calls * 1000)%Q.
Proof.
  unfold durationMs.
  induction calls as [|[now pcm] calls IH]; intros Hall.
  - simpl. reflexivity.
  - simpl in Hall. inversion Hall as [|? ? [Heven _] Hall']; subst.
    specialize (IH Hall').
    cbn [payloads List.map concat totalDuration foldr snd].
    fold (payloads calls). fold (totalDuration 22050 calls).
    rewrite length_app, Nat2Z.inj_add, inject_Z_plus.
    rewrite (duration_of_bytes pcm 22050 Heven).
    change (inject_Z (Z.pos 22050)) with 22050%Q.
    rewrite Qmult_plus_distr_l, <- IH. field.
Qed.

Lemma stopAll_sourceBuffer (now : Q) (handles : list nat) (ctx : AudioContext) :
  List.map sourceBuffer (nodes (stopAll now handles ctx))
  = List.map sourceBuffer (nodes ctx).
Proof.
  apply list_eq. intros i.
  change (List.map sourceBuffer) with (fmap (M:=list) sourceBuffer).
  rewrite !list_lookup_fmap, stopAll_lookup.
  destruct (decide (i ∈ handles)); [|done].
  destruct (nodes ctx !! i) as [n|]; [|done]. simpl.
  unfold stopNode. by destruct (stopAt n).
Qed.

(* ===================================================================== *)
(** ** streamTTSFromHTTP: what is scheduled, and the closed player        *)
(* ===================================================================== *)

(** A run of playable buffers on the player that [streamTTSFromHTTP]
    makes: one node for each, in order, none stopped, every handle
    retained. *)
Lemma addChunks_fresh (now0 : Q) (reads : list (Q * list byte)) :
  Forall playable (payloads reads) ->
  exists news next,
    addChunks reads (AudioStreamPlayer.init now0 (AudioStreamPlayer.new (Some 22050%positive)))
    = Ok (AudioStreamPlayer.mk (Some (mkContext 22050 news)) next 22050 true
            (seq 0 (length reads))) /\
    List.map sourceBuffer news = List.map (fun r => bufferOf (snd r) 22050) reads /\
    Forall (fun n => stopAt n = None) news.
Proof.
  intros Hall.
  set (p0 := AudioStreamPlayer.init now0 (AudioStreamPlayer.new (Some 22050%positive))).
  rewrite (addChunks_playable reads p0 (newAudioContext 22050) eq_refl eq_refl Hall).
  cbn [p0 AudioStreamPlayer.init AudioStreamPlayer.new AudioStreamPlayer.sampleRate
       AudioStreamPlayer.nextStartTime AudioStreamPlayer.scheduledBuffers
       AudioStreamPlayer.audioContext default].
  change (id 22050%positive) with 22050%positive.
  destruct (scheduleAll_chain 22050 reads (newAudioContext 22050) now0 [])
    as (news & E & Hbuf & Hchain & _).
  rewrite E. cbn [newAudioContext nodes WebAudio.sampleRate app].
  exists news. eexists. split; [reflexivity|]. split; [exact Hbuf|].
  eapply Forall_impl; [exact (chain_upper _ _ _ Hchain)|]. by intros n [Hstop _].
Qed.

(** [close] on a player that retains the handle of every node of its
    context, none of them stopped. *)
Lemma close_stops_every_node (now next : Q) (rate rate' : positive) (playing : bool)
    (news : list AudioBufferSourceNode) :
  Forall (fun n => stopAt n = None) news ->
  closedAt now news
    (AudioStreamPlayer.mk (Some (mkContext rate news)) next rate' playing
       (seq 0 (length news))).
Proof.
  intros Hnone. split; [|done].
  exists (stopAll now (seq 0 (length news)) (mkContext rate news)).
  split; [done|]. split; [by rewrite stopAll_sourceBuffer|].
  apply Forall_lookup_2. intros i n Hi. rewrite stopAll_lookup in Hi. cbn [nodes] in Hi.
  destruct (decide (i ∈ seq 0 (length news))) as [_|Hout].
  - destruct (news !! i) as [a|] eqn:Ha; [|done]. injection Hi as <-.
    unfold stopNode. by rewrite (Forall_lookup_1 _ _ _ _ Hnone Ha).
  - exfalso. apply Hout, elem_of_seq. apply lookup_lt_Some in Hi. lia.
Qed.

Lemma addChunk_unplayable (now : Q) (value : list byte) (p : AudioStreamPlayer.t) :
  ready p -> ~ playable value ->
  exists e,
    AudioStreamPlayer.addChunk now value p = Throw e /\
    (Nat.even (length value) = false -> name e = RangeErrorName).
Proof.
  intros [[ctx Hctx] Hplay] Hv. unfold AudioStreamPlayer.addChunk.
  rewrite Hctx, Hplay. simpl. unfold Int16Array.
  destruct (Nat.even (length value)) eqn:Heven; simpl.
  - destruct value as [|lo [|hi rest]]; simpl.
    + by eexists.
    + done.
    + exfalso. apply Hv. by split.
  - by eexists.
Qed.

Lemma readLoop_app (pre post : list (Q * list byte)) (st : HTTPStream.loop) :
  HTTPStream.readLoop (pre ++ post) st =
  match HTTPStream.readLoop pre st with
  | (st, None) => HTTPStream.readLoop post st
  | (st, Some e) => (st, Some e)
  end.
Proof.
  revert st. induction pre as [|[now value] pre IH]; intros st; [done|].
  cbn [app HTTPStream.readLoop].
  destruct (HTTPStream.readOne now value st) as [st1 [e|]]; [done|apply IH].
Qed.

(** C3 (as amended).  In chunked-stream mode every value read is handed to
    [addChunk] as it is, with no buffering and no alignment.  When all the
    values are playable (even length, not empty) every one of them is
    scheduled: the context gets one node for each value, in the order of
    the reads, with the samples of the whole value, and the stream ends
    normally.  At the first value that is not playable the stream ends:
    the values before it are scheduled, that value is handed on like the
    others, [addChunk] throws (a [RangeError] when the length is odd), the
    values after it are not handed on and no byte of it is kept for a later
    read.  In both cases the player is closed: its nodes are stopped, and it
    is left without a context, not playing, with no handle. *)
Theorem reads_are_handed_unaligned (now0 nowEnd : Q) (status : nat) :
  let player := AudioStreamPlayer.init now0 (AudioStreamPlayer.new (Some 22050%positive)) in
  (forall reads,
      Forall playable (payloads reads) ->
      exists p news,
        addChunks reads player = Ok p /\
        AudioStreamPlayer.audioContext p = Some (mkContext 22050 news) /\
        List.map sourceBuffer news = List.map (fun r => bufferOf (snd r) 22050) reads /\
        Forall (fun n => stopAt n = None) news /\
        AudioStreamPlayer.scheduledBuffers p = seq 0 (length reads) /\
        HTTPStream.streamTTSFromHTTP now0 nowEnd
          (Ok (HTTPStream.mkResponse true status (Some reads)))
        = (HTTPStream.mkLoop (AudioStreamPlayer.close nowEnd p)
             (length (concat (payloads reads))) (payloads reads), None) /\
        closedAt nowEnd news p)
  /\ (forall pre now value post,
      Forall playable (payloads pre) -> ~ playable value ->
      exists p news x,
        addChunks pre player = Ok p /\
        AudioStreamPlayer.audioContext p = Some (mkContext 22050 news) /\
        List.map sourceBuffer news = List.map (fun r => bufferOf (snd r) 22050) pre /\
        Forall (fun n => stopAt n = None) news /\
        AudioStreamPlayer.scheduledBuffers p = seq 0 (length pre) /\
        AudioStreamPlayer.addChunk now value p = Throw x /\
        (Nat.even (length value) = false -> name x = RangeErrorName) /\
        HTTPStream.streamTTSFromHTTP now0 nowEnd
          (Ok (HTTPStream.mkResponse true status (Some (pre ++ (now, value) :: post))))
        = (HTTPStream.mkLoop (AudioStreamPlayer.close nowEnd p)
             (length (concat (payloads pre))) (payloads pre ++ [value]), Some x) /\
        closedAt nowEnd news p).
Proof.
  intros player.
  assert (Hrun : forall reads,
             Forall playable (payloads reads) ->
             exists p news,
               addChunks reads player = Ok p /\
               AudioStreamPlayer.audioContext p = Some (mkContext 22050 news) /\
               AudioStreamPlayer.isPlaying p = true /\
               List.map sourceBuffer news = List.map (fun r => bufferOf (snd r) 22050) reads /\
               Forall (fun n => stopAt n = None) news /\
               AudioStreamPlayer.scheduledBuffers p = seq 0 (length reads) /\
               HTTPStream.readLoop reads (HTTPStream.mkLoop player 0 [])
               = (HTTPStream.mkLoop p (length (concat (payloads reads))) (payloads reads), None) /\
               closedAt nowEnd news p).
  { intros reads Hall.
    destruct (addChunks_fresh now0 reads Hall) as (news & next & Hp & Hbuf & Hnone).
    destruct (readLoop_addChunks reads (HTTPStream.mkLoop player 0 []) (newAudioContext 22050)
                eq_refl eq_refl Hall) as (p & Hp' & Hloop).
    cbn [HTTPStream.player HTTPStream.totalBytes HTTPStream.handed app Nat.add] in Hp', Hloop.
    fold player in Hp. rewrite Hp in Hp'. injection Hp' as <-.
    eexists. exists news. split; [exact Hp|].
    repeat (split; [done|]).
    assert (Hlen : length reads = length news).
    { apply (f_equal length) in Hbuf. by rewrite !length_map in Hbuf. }
    rewrite Hlen. by apply close_stops_every_node. }
  split.
  - intros reads Hall.
    destruct (Hrun reads Hall) as (p & news & Hp & Hctx & _ & Hbuf & Hnone & Hh & Hloop & Hclosed).
    exists p, news. repeat (split; [done|]). split; [|done].
    unfold HTTPStream.streamTTSFromHTTP. cbn [HTTPStream.ok HTTPStream.body negb].
    fold player. by rewrite Hloop.
  - intros pre now value post Hall Hv.
    destruct (Hrun pre Hall) as (p & news & Hp & Hctx & Hplay & Hbuf & Hnone & Hh & Hloop & Hclosed).
    destruct (addChunk_unplayable now value p) as (x & Hx & Hname); [by split; [eexists|]|done|].
    exists p, news, x. repeat (split; [done|]). split; [|done].
    unfold HTTPStream.streamTTSFromHTTP. cbn [HTTPStream.ok HTTPStream.body negb].
    fold player. rewrite readLoop_app, Hloop.
    cbn [HTTPStream.readLoop]. unfold HTTPStream.readOne.
    cbn [HTTPStream.player HTTPStream.totalBytes HTTPStream.handed]. by rewrite Hx.
Qed.

(** Two samples, then a value of three bytes, then two samples again: the
    first value is scheduled, the second makes [addChunk] throw a
    [RangeError], the third is never handed on, and the player is
    closed. *)
Lemma reads_are_handed_unaligned_witness :
  exists x,
    HTTPStream.streamTTSFromHTTP 0 1 (Ok odd_second_read)
    = (HTTPStream.mkLoop (AudioStreamPlayer.mk None 0 22050 false []) 4
         [two_samples; [x01; x02; x03]], Some x) /\
    name x = RangeErrorName.
Proof.
  destruct (proj2 (reads_are_handed_unaligned 0 1 200)
              [(0%Q, two_samples)] 0%Q [x01; x02; x03] [(0%Q, two_samples)])
    as (p & news & x & Hp & _ & _ & _ & _ & _ & Hname & Hrun & _).
  - repeat constructor; discriminate.
  - intros [Heven _]. discriminate Heven.
  - vm_compute in Hp. injection Hp as <-.
    exists x. split; [exact Hrun|]. by apply Hname.
Defined.

(** X18.  The wait of [streamTTSFromHTTP] is long enough.  When every
    value read is playable, the clock does not run backwards, and the
    [finally] block runs no earlier than [durationMs + 100] milliseconds
    after the last value was read (the timer does not fire early, and the
    clock of the device keeps up with it), then every value got its node,
    in the order of the reads, and every node has played to its end when
    [close] stops it: no audio is cut, however late the values arrived and
    whatever silence fell between them. *)
Theorem estimated_wait_outlasts_the_audio (now0 nowEnd : Q) (status : nat)
    (reads : list (Q * list byte)) :
  Forall playable (payloads reads) ->
  clockRuns now0 reads ->
  (lastCall now0 reads + playbackWait (length (concat (payloads reads))) <= nowEnd)%Q ->
  exists st ctx,
    HTTPStream.readLoop reads
      (HTTPStream.mkLoop
         (AudioStreamPlayer.init now0 (AudioStreamPlayer.new (Some 22050%positive))) 0 [])
    = (st, None) /\
    HTTPStream.streamTTSFromHTTP now0 nowEnd
      (Ok (HTTPStream.mkResponse true status (Some reads)))
    = (HTTPStream.mkLoop (AudioStreamPlayer.close nowEnd (HTTPStream.player st))
         (HTTPStream.totalBytes st) (HTTPStream.handed st), None) /\
    HTTPStream.totalBytes st = length (concat (payloads reads)) /\
    AudioStreamPlayer.audioContext (AudioStreamPlayer.stop nowEnd (HTTPStream.player st))
    = Some ctx /\
    List.map sourceBuffer (nodes ctx)
    = List.map (fun r => bufferOf (snd r) 22050) reads /\
    Forall playsToCompletion (nodes ctx).
Proof.
  intros Hall Hrun Hwait.
  set (p0 := AudioStreamPlayer.init now0 (AudioStreamPlayer.new (Some 22050%positive))).
  destruct (readLoop_addChunks reads (HTTPStream.mkLoop p0 0 []) (newAudioContext 22050)
              eq_refl eq_refl Hall) as (p & Hp & Hloop).
  cbn [HTTPStream.player HTTPStream.totalBytes HTTPStream.handed] in Hp, Hloop.
  rewrite (addChunks_playable reads p0 (newAudioContext 22050) eq_refl eq_refl Hall) in Hp.
  cbn [p0 AudioStreamPlayer.init AudioStreamPlayer.new AudioStreamPlayer.sampleRate
       AudioStreamPlayer.nextStartTime AudioStreamPlayer.scheduledBuffers
       AudioStreamPlayer.audioContext default] in Hp.
  destruct (scheduleAll_chain 22050 reads (newAudioContext 22050) now0 [])
    as (news & E & Hbuf & Hchain & _).
  pose proof (scheduleAll_bound 22050 reads (newAudioContext 22050) now0 [] now0 0
                ltac:(lra) ltac:(lra) Hrun) as Hbound.
  change (id 22050%positive) with 22050%positive in Hp. rewrite E in Hp.
  set (next' := snd (fst (scheduleAll 22050 (newAudioContext 22050, now0, []) reads))) in *.
  cbn [newAudioContext nodes WebAudio.sampleRate app] in Hp.
  injection Hp as <-.
  exists (HTTPStream.mkLoop
            (AudioStreamPlayer.mk (Some (mkContext 22050 news)) next' 22050 true
               (seq 0 (length reads)))
            (length (concat (payloads reads))) (payloads reads)),
         (stopAll nowEnd (seq 0 (length reads)) (mkContext 22050 news)).
  split; [exact Hloop|].
  split.
  { unfold HTTPStream.streamTTSFromHTTP. cbn [HTTPStream.ok HTTPStream.body negb].
    fold p0. by rewrite Hloop. }
  split; [done|]. split; [done|].
  split; [by rewrite stopAll_sourceBuffer|].
  assert (Hend : (next' <= nowEnd)%Q).
  { pose proof (durationMs_total reads Hall) as Hms.
    unfold playbackWait in Hwait.
    assert (H100 : ((durationMs (length (concat (payloads reads))) + 100) / 1000
                    == totalDuration 22050 reads + (1 # 10))%Q).
    { rewrite Hms. field. }
    rewrite H100 in Hwait. lra. }
  apply Forall_lookup_2. intros i n Hi. rewrite stopAll_lookup in Hi.
  cbn [nodes] in Hi.
  pose proof (chain_upper _ _ _ Hchain) as Hup.
  destruct (decide (i ∈ seq 0 (length reads))) as [_|_].
  - destruct (news !! i) as [a|] eqn:Ha; [|done]. injection Hi as <-.
    destruct (Forall_lookup_1 _ _ _ _ Hup Ha) as [Hstop Hfin].
    unfold playsToCompletion, stopNode. rewrite Hstop. cbn [stopAt].
    change (finish (mkSource (sourceBuffer a) (startAt a) (Some nowEnd))) with (finish a).
    lra.
  - destruct (Forall_lookup_1 _ _ _ _ Hup Hi) as [Hstop _].
    unfold playsToCompletion. by rewrite Hstop.
Qed.

(** Two reads five seconds apart, the player closed half a second after
    the second: both nodes have played to their end. *)
Lemma estimated_wait_outlasts_the_audio_witness :
  exists st ctx,
    HTTPStream.streamTTSFromHTTP 0 (11 # 2) (Ok (HTTPStream.mkResponse true 200 (Some late_reads)))
    = (HTTPStream.mkLoop (AudioStreamPlayer.close (11 # 2) (HTTPStream.player st))
         (HTTPStream.totalBytes st) (HTTPStream.handed st), None) /\
    AudioStreamPlayer.audioContext (AudioStreamPlayer.stop (11 # 2) (HTTPStream.player st))
    = Some ctx /\
    length (nodes ctx) = 2 /\
    Forall playsToCompletion (nodes ctx).
Proof.
  destruct (estimated_wait_outlasts_the_audio 0 (11 # 2) 200 late_reads)
    as (st & ctx & _ & Hrun & _ & Hctx & Hbuf & Hall).
  - repeat constructor; discriminate.
  - simpl. repeat split; unfold Qle; simpl; lia.
  - vm_compute. discriminate.
  - exists st, ctx. repeat split; [exact Hrun|exact Hctx| |exact Hall].
    apply (f_equal length) in Hbuf. by rewrite !length_map in Hbuf.
Defined.

(* ===================================================================== *)
(** ** streamTTSFromSSE                                                   *)
(* ===================================================================== *)

(** On lines that do not throw the loop is the run of [addChunk] calls of
    the audio events. *)
Lemma onLines_harmless (lines : list (Q * SSEStream.line)) (st : SSEStream.loop)
    (ctx : AudioContext) :
  AudioStreamPlayer.audioContext (SSEStream.player st) = Some ctx ->
  AudioStreamPlayer.isPlaying (SSEStream.player st) = true ->
  Forall harmless (List.map snd lines) ->
  exists p,
    addChunks (omap sseCall lines) (SSEStream.player st) = Ok p /\
    SSEStream.onLines lines st =
    (SSEStream.mkLoop p (SSEStream.handed st ++ payloads (omap sseCall lines)), None).
Proof.
  revert st ctx. induction lines as [|[now l] lines IH]; intros st ctx Hctx Hplay Hall.
  - exists (SSEStream.player st). simpl. split; [done|].
    rewrite app_nil_r. by destruct st.
  - simpl in Hall. inversion Hall as [|? ? Hl Hall']; subst.
    assert (Hskip : sseCall (now, l) = None -> SSEStream.onLine now l st = (st, None) ->
            exists p,
              addChunks (omap sseCall ((now, l) :: lines)) (SSEStream.player st) = Ok p /\
              SSEStream.onLines ((now, l) :: lines) st =
              (SSEStream.mkLoop p
                 (SSEStream.handed st ++ payloads (omap sseCall ((now, l) :: lines))), None)).
    { intros Hcall Hline. cbn [omap list_omap SSEStream.onLines]. rewrite Hcall, Hline.
      exact (IH st ctx Hctx Hplay Hall'). }
    destruct l as [|e|[text|[[bytes|e]|]| |message|]];
      try (by apply Hskip); try done.
    simpl in Hl.
    pose proof (addChunk_playable now bytes _ ctx Hctx Hplay Hl) as E. cbv zeta in E.
    cbn [omap list_omap sseCall snd fst addChunks SSEStream.onLines SSEStream.onLine].
    rewrite E. cbn [mbind result_bind].
    match goal with
    | |- context [SSEStream.onLines lines ?st1] =>
        destruct (IH st1 _ eq_refl eq_refl Hall') as (p & Hp & Hloop); rewrite Hloop
    end.
    exists p. split; [exact Hp|].
    cbn [SSEStream.handed payloads List.map snd]. by rewrite <- app_assoc.
Qed.

Lemma onLines_app (pre post : list (Q * SSEStream.line)) (st : SSEStream.loop) :
  SSEStream.onLines (pre ++ post) st =
  match SSEStream.onLines pre st with
  | (st, None) => SSEStream.onLines post st
  | (st, Some e) => (st, Some e)
  end.
Proof.
  revert st. induction pre as [|[now l] pre IH]; intros st; [done|].
  cbn [app SSEStream.onLines].
  destruct (SSEStream.onLine now l st) as [st1 [e|]]; [done|apply IH].
Qed.

(** X19.  [streamTTSFromSSE] plays the audio events and nothing else, up
    to the first line that throws.  While no line throws, every audio
    event with a chunk gives one call of [addChunk] with all the bytes
    that [atob] gives (no header is skipped), in the order of the events;
    token, done and error events and lines that are not events do
    nothing, so that an error event does not end the call; and the call
    settles as the reads do, with the player closed.  A first line that
    does not parse, or whose chunk is not base64, ends it there: the call
    rejects with what was thrown, the player is closed, and the lines
    after it are not handled. *)
Theorem sse_plays_events_until_first_throw (now0 nowEnd : Q) (status : nat)
    (lines : list (Q * SSEStream.line)) :
  Forall harmless (List.map snd lines) ->
  let calls := omap sseCall lines in
  exists p,
    addChunks calls (AudioStreamPlayer.init now0 (AudioStreamPlayer.new (Some 22050%positive)))
    = Ok p /\
    (forall failure,
        SSEStream.streamTTSFromSSE now0 nowEnd
          (Ok (SSEStream.mkResponse true status (Some (lines, failure))))
        = (SSEStream.mkLoop (AudioStreamPlayer.close nowEnd p) (payloads calls), failure)) /\
    (forall now bad e post failure,
        thrownBy bad = Some e ->
        SSEStream.streamTTSFromSSE now0 nowEnd
          (Ok (SSEStream.mkResponse true status (Some (lines ++ (now, bad) :: post, failure))))
        = (SSEStream.mkLoop (AudioStreamPlayer.close nowEnd p) (payloads calls), Some e)).
Proof.
  intros Hall calls.
  set (p0 := AudioStreamPlayer.init now0 (AudioStreamPlayer.new (Some 22050%positive))).
  destruct (onLines_harmless lines (SSEStream.mkLoop p0 []) (newAudioContext 22050)
              eq_refl eq_refl Hall) as (p & Hp & Hloop).
  cbn [SSEStream.player SSEStream.handed app] in Hp, Hloop.
  exists p. split; [exact Hp|]. split.
  - intros failure. unfold SSEStream.streamTTSFromSSE.
    cbn [SSEStream.ok SSEStream.body negb]. fold p0. by rewrite Hloop.
  - intros now bad e post failure Hbad. unfold SSEStream.streamTTSFromSSE.
    cbn [SSEStream.ok SSEStream.body negb]. fold p0.
    rewrite onLines_app, Hloop. cbn [SSEStream.onLines].
    assert (E : forall st, SSEStream.onLine now bad st = (st, Some e)).
    { intros st. destruct bad as [|e'|[text|[[bytes|e']|]| |message|]]; try done;
        simpl in Hbad; by injection Hbad as ->. }
    by rewrite E.
Qed.

Lemma sse_plays_events_until_first_throw_witness :
  SSEStream.streamTTSFromSSE 0 2 (Ok (SSEStream.mkResponse true 200 (Some (sse_events, None))))
  = (SSEStream.mkLoop
       (AudioStreamPlayer.mk None 0 22050 false []) [two_samples], None)
  /\ SSEStream.streamTTSFromSSE 0 2
       (Ok (SSEStream.mkResponse true 200
              (Some (sse_events ++ (1%Q, SSEStream.BadJSON syntax_error) :: sse_events, None))))
     = (SSEStream.mkLoop
          (AudioStreamPlayer.mk None 0 22050 false []) [two_samples], Some syntax_error).
Proof.
  assert (Hall : Forall harmless (List.map snd sse_events)).
  { repeat constructor; discriminate. }
  destruct (sse_plays_events_until_first_throw 0 2 200 sse_events Hall)
    as (p & Hp & Hok & Hbad).
  vm_compute in Hp. injection Hp as <-.
  split.
  - rewrite Hok. reflexivity.
  - rewrite (Hbad 1%Q (SSEStream.BadJSON syntax_error) syntax_error sse_events None eq_refl).
    reflexivity.
Defined.
